(** * Interactive dithered ripples: registry and field evaluator

    A shallow embedding of the two variants of the ripple effect:

    - the basic variant (controller with [MAX_CLICKS = 10] and the
      one-bit dithering fragment shader), in module [Basic];
    - the elaborated variant (controller with [MAX_CLICKS = 16], the
      [activeRipples] counter, the style uniforms and the smooth-stepped
      shader), in module [Enhanced].

    Numbers.  JavaScript numbers and GLSL floats are idealised as real
    numbers ([R]): the arithmetic of the shaders is exact, overflow and
    NaN are not modelled.  Two places where the platform's arithmetic
    shows are kept apart.  [uClickTimes] is a [Float32Array]: the states
    keep the numbers written to it, and [Float32.held] gives what the
    array holds, their binary32 roundings.  The hash [blueNoise] of the
    elaborated shader multiplies two sines by 43758.5453: its value at a
    given fragment depends on the precision of the platform's sine, and
    what is proved of the shader holds for whatever value the hash takes
    there.  Integer valued fields of the controller ([clickIndex],
    [activeRipples], [maxRipples]) are integers ([Z]); the [%] of
    JavaScript is [Z.rem].

    Arrays.  [uClickPos] is a JavaScript array of distinct [Vector2]
    objects and [uClickTimes] a [Float32Array]; both are lists here.
    Reading [uClickPos.value[i]] outside the array gives [undefined], and
    calling [.set] on it throws: [addRipple] therefore returns an
    [option].  The loop of the shaders over the [MAX_CLICKS] uniform slots
    is a recursion over the two lists.

    Module [Ring] is the part of the two controllers that is the same
    (slots and write cursor); module [Sample] holds the concrete frames
    and click sequences the examples are evaluated on. *)

From Stdlib Require Import Reals Lra Lia ZArith String.
From stdpp Require Import base list.

#[local] Open Scope R_scope.

(** ** GLSL built-ins *)

Module Glsl.

Record vec2 : Type := Vec2 { vx : R; vy : R }.
Record vec3 : Type := Vec3 { cr : R; cg : R; cb : R }.
Record vec4 : Type := Vec4 { rgb : vec3; alpha : R }.

(** [x < y] as a boolean, for the conditions of the shaders. *)
Definition ltb (x y : R) : bool := if Rlt_dec x y then true else false.

Definition floor (x : R) : R := IZR (Int_part x).
Definition fract (x : R) : R := x - floor x.
Definition step (edge x : R) : R := if ltb x edge then 0 else 1.
Definition clamp (x lo hi : R) : R := Rmin (Rmax x lo) hi.
Definition smoothstep (e0 e1 x : R) : R :=
  let t := clamp ((x - e0) / (e1 - e0)) 0 1 in
  t * t * (3 - 2 * t).
Definition mix (x y a : R) : R := x * (1 - a) + y * a.

(** [pow(x, 2.0)]: the square. *)
Definition pow2 (x : R) : R := x * x.

Definition vfloor (a : vec2) : vec2 := Vec2 (floor (vx a)) (floor (vy a)).
Definition vsub (a b : vec2) : vec2 := Vec2 (vx a - vx b) (vy a - vy b).
Definition vsubs (a : vec2) (k : R) : vec2 := Vec2 (vx a - k) (vy a - k).
Definition vadd (a b : vec2) : vec2 := Vec2 (vx a + vx b) (vy a + vy b).
Definition vscale (a : vec2) (k : R) : vec2 := Vec2 (vx a * k) (vy a * k).
Definition vdivs (a : vec2) (k : R) : vec2 := Vec2 (vx a / k) (vy a / k).
Definition vdiv (a b : vec2) : vec2 := Vec2 (vx a / vx b) (vy a / vy b).
Definition vmul (a b : vec2) : vec2 := Vec2 (vx a * vx b) (vy a * vy b).
Definition dot (a b : vec2) : R := vx a * vx b + vy a * vy b.
Definition distance (a b : vec2) : R := sqrt (dot (vsub a b) (vsub a b)).

Definition vmix (x y : vec3) (a : R) : vec3 :=
  Vec3 (mix (cr x) (cr y) a) (mix (cg x) (cg y) a) (mix (cb x) (cb y) a).
Definition cscale (x : vec3) (k : R) : vec3 :=
  Vec3 (cr x * k) (cg x * k) (cb x * k).
Definition cadd (x y : vec3) : vec3 :=
  Vec3 (cr x + cr y) (cg x + cg y) (cb x + cb y).

End Glsl.

Import Glsl.

(** ** Arrays of the controller *)

(** [arr[i]] of JavaScript: [undefined] for an index outside the array. *)
Definition js_get {A : Type} (l : list A) (i : Z) : option A :=
  if (i <? 0)%Z then None else l !! Z.to_nat i.

(** The empty slot written by the controllers: [new Vector2(-1, -1)]. *)
Definition sentinel : vec2 := Vec2 (-1) (-1).

(** The empty-slot test of both shaders: [pos.x < 0.0 && pos.y < 0.0]. *)
Definition isEmpty (pos : vec2) : bool := ltb (vx pos) 0 && ltb (vy pos) 0.

(** How many slots of an array pass the test. *)
Fixpoint countActive (ps : list vec2) : nat :=
  match ps with
  | [] => 0
  | p :: ps' => (if isEmpty p then 0 else 1) + countActive ps'
  end.

(** One pointer event: the position handed to [addRipple] and the value
    of [uTime] written by the last [animate] before it. *)
Record Click : Type := MkClick { clickPos : vec2; clickTime : R }.

(** ** Binary32 storage

    [uClickTimes] is a [Float32Array], and a float uniform reaches the
    shader as a binary32 number: a JavaScript number written to either
    is rounded to the nearest binary32 number, ties to even.  The
    controller never reads [uClickTimes] back, so the states below keep
    the numbers written; [held] is what the array holds, and what the
    shader is given.  Numbers beyond the binary32 range (about 3.4e38),
    which the array holds as infinities, are outside this model. *)

Module Float32.

(** The nearest integer, ties to even. *)
Definition nearestEven (y : R) : Z :=
  let n := Int_part y in
  let f := y - IZR n in
  if ltb f 0.5 then n
  else if ltb 0.5 f then (n + 1)%Z
  else if Z.even n then n else (n + 1)%Z.

(** The exponent of the binade of [x]; below [2 ^ -126] that of the
    subnormal numbers. *)
Definition exponent (x : R) : Z :=
  Z.max (Int_part (ln (Rabs x) / ln 2)) (-126).

(** The spacing of the binary32 numbers of that binade: 24 significant
    bits. *)
Definition ulp (x : R) : R := powerRZ 2 (exponent x - 23).

(** [Math.fround]: the conversion applied by a store into a
    [Float32Array] and by the upload of a float uniform. *)
Definition fround (x : R) : R := IZR (nearestEven (x / ulp x)) * ulp x.

Definition held (ts : list R) : list R := fround <$> ts.

End Float32.

(** ** Ordered-dither thresholds

    [Bayer2] and the macros [Bayer4] and [Bayer8] have the same text in
    both fragment shaders; [Bayer16] exists in the elaborated one only.
    A macro argument [0.5*(a)] is the vector [a] scaled by one half. *)

Module Dither.

Definition Bayer2 (a : vec2) : R :=
  let a := vfloor a in
  fract (vx a / 2 + vy a * vy a * 0.75).

Definition Bayer4 (a : vec2) : R := Bayer2 (vscale a 0.5) * 0.25 + Bayer2 a.
Definition Bayer8 (a : vec2) : R := Bayer4 (vscale a 0.5) * 0.25 + Bayer2 a.
Definition Bayer16 (a : vec2) : R := Bayer8 (vscale a 0.5) * 0.25 + Bayer2 a.

End Dither.

Import Dither.

(** ** The basic variant *)

Module Basic.

Definition MAX_CLICKS : Z := 10.

Record Uniforms : Type := MkUniforms {
  uResolution : vec2;
  uClickPos : list vec2;
  uClickTimes : list R;
  uTime : R
}.

Record State : Type := MkState {
  uniforms : Uniforms;
  clickIndex : Z
}.

(** Field initialisers of the class. *)
Definition init : State :=
  MkState (MkUniforms (Vec2 0 0)
             (replicate (Z.to_nat MAX_CLICKS) sentinel)
             (replicate (Z.to_nat MAX_CLICKS) 0)
             0)
          0.

(** The number written into [uClickTimes] is the [uTime] of the last
    frame; the typed array holds its binary32 rounding
    ([Float32.held]). *)
Definition addRipple (s : State) (x y : R) : option State :=
  let u := uniforms s in
  let i := clickIndex s in
  match js_get (uClickPos u) i with
  | None => None
  | Some _ =>
      Some (MkState
              (MkUniforms (uResolution u)
                 (<[Z.to_nat i := Vec2 x y]> (uClickPos u))
                 (<[Z.to_nat i := uTime u]> (uClickTimes u))
                 (uTime u))
              (Z.rem (i + 1) MAX_CLICKS))
  end.

Definition clearRipples (s : State) : State :=
  let u := uniforms s in
  MkState
    (MkUniforms (uResolution u)
       ((fun _ => sentinel) <$> uClickPos u)
       ((fun _ => 0) <$> uClickTimes u)
       (uTime u))
    (clickIndex s).

Definition withTime (u : Uniforms) (t : R) : Uniforms :=
  MkUniforms (uResolution u) (uClickPos u) (uClickTimes u) t.

(** [animate]: the clock reading is stored in [uTime]. *)
Definition animate (s : State) (t : R) : State :=
  MkState (withTime (uniforms s) t) (clickIndex s).

Definition resize (s : State) (w h : R) : State :=
  let u := uniforms s in
  MkState (MkUniforms (Vec2 w h) (uClickPos u) (uClickTimes u) (uTime u))
          (clickIndex s).

(** A frame at the click's time, then the click. *)
Definition click (s : State) (c : Click) : option State :=
  addRipple (animate s (clickTime c)) (vx (clickPos c)) (vy (clickPos c)).

Fixpoint clicks (s : State) (cs : list Click) : option State :=
  match cs with
  | [] => Some s
  | c :: cs' =>
      match click s c with
      | None => None
      | Some s' => clicks s' cs'
      end
  end.

(** Well-formed states: both arrays have [MAX_CLICKS] entries and the
    cursor is an index. *)
Definition wf (s : State) : Prop :=
  length (uClickPos (uniforms s)) = Z.to_nat MAX_CLICKS /\
  length (uClickTimes (uniforms s)) = Z.to_nat MAX_CLICKS /\
  (0 <= clickIndex s < MAX_CLICKS)%Z.

(** *** Fragment shader *)

Definition PIXEL_SIZE : R := 4.
Definition speed : R := 0.30.
Definition thickness : R := 0.10.
Definition dampT : R := 1.
Definition dampR : R := 1.

(** What [main] computes once per fragment, before the loop. *)
Record Frag : Type := MkFrag {
  fragCoord : vec2;
  cellPixelSize : R;
  aspectRatio : R;
  uv : vec2
}.

Definition frag (u : Uniforms) (gl_FragCoord : vec2) : Frag :=
  let pixelSize := PIXEL_SIZE in
  let fragCoord := vsub gl_FragCoord (vscale (uResolution u) 0.5) in
  let aspectRatio := vx (uResolution u) / vy (uResolution u) in
  let cellPixelSize := 8 * pixelSize in
  let cellId := vfloor (vdivs fragCoord cellPixelSize) in
  let cellCoord := vscale cellId cellPixelSize in
  let uv := vmul (vdiv cellCoord (uResolution u)) (Vec2 aspectRatio 1) in
  MkFrag fragCoord cellPixelSize aspectRatio uv.

(** The normalised centre [cuv] of a click. *)
Definition clickUV (u : Uniforms) (f : Frag) (pos : vec2) : vec2 :=
  vmul (vdiv (vsubs (vsub pos (vscale (uResolution u) 0.5))
                    (cellPixelSize f * 0.5))
             (uResolution u))
       (Vec2 (aspectRatio f) 1).

Definition ring (r t : R) : R := exp (- pow2 ((r - speed * t) / thickness)).
Definition atten (r t : R) : R := exp (- dampT * t) * exp (- dampR * r).

(** [ring * atten] of one click that passed the empty-slot test. *)
Definition contribution (u : Uniforms) (f : Frag) (pos : vec2) (t0 : R) : R :=
  let cuv := clickUV u f pos in
  let t := Rmax (uTime u - t0) 0 in
  let r := distance (uv f) cuv in
  ring r t * atten r t.

(** The loop over the slots, from the current slot on. *)
Fixpoint clickLoop (u : Uniforms) (f : Frag)
    (ps : list vec2) (ts : list R) (feed : R) : R :=
  match ps, ts with
  | pos :: ps', t0 :: ts' =>
      if isEmpty pos then clickLoop u f ps' ts' feed
      else clickLoop u f ps' ts' (Rmax feed (contribution u f pos t0))
  | _, _ => feed
  end.

Definition feedOf (u : Uniforms) (gl_FragCoord : vec2) : R :=
  clickLoop u (frag u gl_FragCoord) (uClickPos u) (uClickTimes u) 0.

(** The contributions of the slots the loop does not skip, in slot
    order. *)
Fixpoint contributions (u : Uniforms) (f : Frag)
    (ps : list vec2) (ts : list R) : list R :=
  match ps, ts with
  | pos :: ps', t0 :: ts' =>
      if isEmpty pos then contributions u f ps' ts'
      else contribution u f pos t0 :: contributions u f ps' ts'
  | _, _ => []
  end.

Definition contributionsOf (u : Uniforms) (gl_FragCoord : vec2) : list R :=
  contributions u (frag u gl_FragCoord) (uClickPos u) (uClickTimes u).

Definition bayerValue (u : Uniforms) (gl_FragCoord : vec2) : R :=
  Bayer8 (vdivs (fragCoord (frag u gl_FragCoord)) PIXEL_SIZE) - 0.5.

Definition main (u : Uniforms) (gl_FragCoord : vec2) : vec4 :=
  let feed := feedOf u gl_FragCoord in
  let bw := step 0.5 (feed + bayerValue u gl_FragCoord) in
  Vec4 (Vec3 bw bw bw) 1.

(** The two output colours of the one-bit dither. *)
Definition background : vec4 := Vec4 (Vec3 0 0 0) 1.
Definition foreground : vec4 := Vec4 (Vec3 1 1 1) 1.

End Basic.

(** ** The elaborated variant *)

Module Enhanced.

Definition MAX_CLICKS : Z := 16.

(** [RippleParams]; the colours are kept as the uniforms hold them. *)
Record RippleParams : Type := MkParams {
  color1 : vec3;
  color2 : vec3;
  backgroundColor : vec3;
  pixelSize : R;
  waveSpeed : R;
  waveThickness : R;
  timeDecay : R;
  distanceDecay : R;
  bloomStrength : R;
  animatedBackground : bool;
  maxRipples : Z
}.

Record Uniforms : Type := MkUniforms {
  uResolution : vec2;
  uClickPos : list vec2;
  uClickTimes : list R;
  uTime : R;
  uColor1 : vec3;
  uColor2 : vec3;
  uBackgroundColor : vec3;
  uPixelSize : R;
  uWaveSpeed : R;
  uWaveThickness : R;
  uTimeDecay : R;
  uDistanceDecay : R;
  uBloomStrength : R;
  uAnimatedBackground : bool
}.

Record State : Type := MkState {
  uniforms : Uniforms;
  params : RippleParams;
  clickIndex : Z;
  activeRipples : Z
}.

(** The uniforms with other click arrays, everything else kept. *)
Definition withClicks (u : Uniforms) (ps : list vec2) (ts : list R) : Uniforms :=
  MkUniforms (uResolution u) ps ts (uTime u)
    (uColor1 u) (uColor2 u) (uBackgroundColor u) (uPixelSize u)
    (uWaveSpeed u) (uWaveThickness u) (uTimeDecay u) (uDistanceDecay u)
    (uBloomStrength u) (uAnimatedBackground u).

Definition withTime (u : Uniforms) (t : R) : Uniforms :=
  MkUniforms (uResolution u) (uClickPos u) (uClickTimes u) t
    (uColor1 u) (uColor2 u) (uBackgroundColor u) (uPixelSize u)
    (uWaveSpeed u) (uWaveThickness u) (uTimeDecay u) (uDistanceDecay u)
    (uBloomStrength u) (uAnimatedBackground u).

(** Field initialisers of the class: every uniform is built from
    [params], and [uResolution] starts as the zero vector. *)
Definition initWith (p : RippleParams) : State :=
  MkState
    (MkUniforms (Vec2 0 0)
       (replicate (Z.to_nat MAX_CLICKS) sentinel)
       (replicate (Z.to_nat MAX_CLICKS) 0)
       0
       (color1 p) (color2 p) (backgroundColor p) (pixelSize p)
       (waveSpeed p) (waveThickness p) (timeDecay p) (distanceDecay p)
       (bloomStrength p) (animatedBackground p))
    p 0 0.

(** The literal in the class, with the three colours as [vec3]. *)
Definition defaultParams (c1 c2 bg : vec3) : RippleParams :=
  MkParams c1 c2 bg 4.0 0.35 0.12 0.8 1.2 0.3 true 16.

(** The [if] that opens [addRipple]: on a full registry the slot under
    the cursor is emptied and the counter decremented. *)
Definition evict (s : State) : option State :=
  if (activeRipples s >=? maxRipples (params s))%Z then
    match js_get (uClickPos (uniforms s)) (clickIndex s) with
    | None => None
    | Some _ =>
        Some (MkState
                (withClicks (uniforms s)
                   (<[Z.to_nat (clickIndex s) := sentinel]>
                      (uClickPos (uniforms s)))
                   (uClickTimes (uniforms s)))
                (params s) (clickIndex s) (activeRipples s - 1))
    end
  else Some s.

(** [updateRippleCounter] only writes the counter into the page.  As in
    the basic class, the number written into [uClickTimes] is kept; the
    typed array holds its binary32 rounding ([Float32.held]). *)
Definition addRipple (s : State) (x y : R) : option State :=
  match evict s with
  | None => None
  | Some s1 =>
      let u := uniforms s1 in
      let i := clickIndex s1 in
      match js_get (uClickPos u) i with
      | None => None
      | Some _ =>
          Some (MkState
                  (withClicks u
                     (<[Z.to_nat i := Vec2 x y]> (uClickPos u))
                     (<[Z.to_nat i := uTime u]> (uClickTimes u)))
                  (params s1)
                  (Z.rem (i + 1) MAX_CLICKS)
                  (activeRipples s1 + 1))
      end
  end.

Definition clearAllRipples (s : State) : State :=
  let u := uniforms s in
  MkState
    (withClicks u
       ((fun _ => sentinel) <$> uClickPos u)
       ((fun _ => 0) <$> uClickTimes u))
    (params s) 0 0.

Definition animate (s : State) (t : R) : State :=
  MkState (withTime (uniforms s) t) (params s)
          (clickIndex s) (activeRipples s).

Definition withResolution (u : Uniforms) (w h : R) : Uniforms :=
  MkUniforms (Vec2 w h) (uClickPos u) (uClickTimes u) (uTime u)
    (uColor1 u) (uColor2 u) (uBackgroundColor u) (uPixelSize u)
    (uWaveSpeed u) (uWaveThickness u) (uTimeDecay u) (uDistanceDecay u)
    (uBloomStrength u) (uAnimatedBackground u).

Definition resize (s : State) (w h : R) : State :=
  MkState (withResolution (uniforms s) w h) (params s)
          (clickIndex s) (activeRipples s).

Definition click (s : State) (c : Click) : option State :=
  addRipple (animate s (clickTime c)) (vx (clickPos c)) (vy (clickPos c)).

(** What the page can do to the registry: a pointer or touch event, or
    the key [R] (the button "Clear Ripples"). *)
Inductive Op : Type :=
| Insert (c : Click)
| Clear.

Definition apply (s : State) (o : Op) : option State :=
  match o with
  | Insert c => click s c
  | Clear => Some (clearAllRipples s)
  end.

Fixpoint run (s : State) (os : list Op) : option State :=
  match os with
  | [] => Some s
  | o :: os' =>
      match apply s o with
      | None => None
      | Some s' => run s' os'
      end
  end.

Definition opNonEmpty (o : Op) : Prop :=
  match o with
  | Insert c => isEmpty (clickPos c) = false
  | Clear => True
  end.

(** The slots the shader does not skip. *)
Definition nonEmptySlots (s : State) : Z :=
  Z.of_nat (countActive (uClickPos (uniforms s))).

Definition wf (s : State) : Prop :=
  length (uClickPos (uniforms s)) = Z.to_nat MAX_CLICKS /\
  length (uClickTimes (uniforms s)) = Z.to_nat MAX_CLICKS /\
  (0 <= clickIndex s < MAX_CLICKS)%Z.

(** The counter is exact: either the registry has been filled from slot 0
    up to the cursor and the counter equals the cursor, or every slot is
    filled and the counter equals the capacity. *)
Definition tracked (s : State) : Prop :=
  wf s /\
  ((activeRipples s = clickIndex s /\
    Forall (fun p => isEmpty p = false)
           (take (Z.to_nat (clickIndex s)) (uClickPos (uniforms s))) /\
    Forall (fun p => isEmpty p = true)
           (drop (Z.to_nat (clickIndex s)) (uClickPos (uniforms s)))) \/
   (activeRipples s = MAX_CLICKS /\
    Forall (fun p => isEmpty p = false) (uClickPos (uniforms s)))).

(** *** Fragment shader *)

Definition CELL_PIXEL_SIZE : R := 8.0.

(** The hash as the formula defines it.  On a GPU the two sines are
    approximate and the factor 43758.5453123 multiplies their error, so
    the value at a given coordinate differs from platform to platform;
    only the range [0, 1) is common to all. *)
Definition blueNoise (coord : vec2) : R :=
  let p := vscale coord 0.01 in
  fract (sin (dot p (Vec2 127.1 311.7)) * 43758.5453123 +
         sin (dot p (Vec2 269.5 183.3)) * 43758.5453123).

Definition calculateWave (pos center : vec2) (time waveSpeed thickness : R) : R :=
  let dist := distance pos center in
  let waveRadius := waveSpeed * time in
  let wavePhase := 6.28318 * (dist - waveRadius) / thickness in
  let wave := exp (- pow2 ((dist - waveRadius) / thickness)) in
  wave * ((1 + 0.3 * sin (wavePhase * 2)) * 0.7).

Definition getAnimatedBackground (u : Uniforms) (uv : vec2) : vec3 :=
  if negb (uAnimatedBackground u) then uBackgroundColor u
  else
    let animUV :=
      vadd uv (vscale (Vec2 (sin (uTime u * 0.3)) (cos (uTime u * 0.2))) 0.1) in
    let gradient :=
      smoothstep 0 1 (vy animUV + sin (vx animUV * 3.14159) * 0.2) in
    vmix (uBackgroundColor u) (cscale (uBackgroundColor u) 1.5)
         (gradient * 0.3).

Record Frag : Type := MkFrag {
  fragCoord : vec2;
  cellPixelSize : R;
  aspectRatio : R;
  uv : vec2
}.

Definition frag (u : Uniforms) (gl_FragCoord : vec2) : Frag :=
  let pixelSize := uPixelSize u in
  let fragCoord := vsub gl_FragCoord (vscale (uResolution u) 0.5) in
  let aspectRatio := vx (uResolution u) / vy (uResolution u) in
  let cellPixelSize := CELL_PIXEL_SIZE * pixelSize in
  let cellId := vfloor (vdivs fragCoord cellPixelSize) in
  let cellCoord := vscale cellId cellPixelSize in
  let uv := vmul (vdiv cellCoord (uResolution u)) (Vec2 aspectRatio 1) in
  MkFrag fragCoord cellPixelSize aspectRatio uv.

Definition clickUV (u : Uniforms) (f : Frag) (pos : vec2) : vec2 :=
  vmul (vdiv (vsubs (vsub pos (vscale (uResolution u) 0.5))
                    (cellPixelSize f * 0.5))
             (uResolution u))
       (Vec2 (aspectRatio f) 1).

Definition timeAttenuation (u : Uniforms) (timeSinceClick : R) : R :=
  exp (- uTimeDecay u * timeSinceClick).

Definition distanceAttenuation (u : Uniforms) (dist : R) : R :=
  exp (- uDistanceDecay u * dist).

(** [finalWave] of one click that passed the empty-slot test. *)
Definition finalWave (u : Uniforms) (f : Frag) (pos : vec2) (t0 : R) : R :=
  let cuv := clickUV u f pos in
  let timeSinceClick := Rmax (uTime u - t0) 0 in
  let dist := distance (uv f) cuv in
  let wave :=
    calculateWave (uv f) cuv timeSinceClick (uWaveSpeed u) (uWaveThickness u) in
  wave * timeAttenuation u timeSinceClick * distanceAttenuation u dist.

(** The loop carries the pair [(totalWave, maxIntensity)]. *)
Fixpoint clickLoop (u : Uniforms) (f : Frag)
    (ps : list vec2) (ts : list R) (acc : R * R) : R * R :=
  match ps, ts with
  | pos :: ps', t0 :: ts' =>
      if isEmpty pos then clickLoop u f ps' ts' acc
      else
        let w := finalWave u f pos t0 in
        clickLoop u f ps' ts' (Rmax (fst acc) w, Rmax (snd acc) w)
  | _, _ => acc
  end.

Definition waves (u : Uniforms) (gl_FragCoord : vec2) : R * R :=
  clickLoop u (frag u gl_FragCoord) (uClickPos u) (uClickTimes u) (0, 0).

Definition totalWave (u : Uniforms) (gl_FragCoord : vec2) : R :=
  fst (waves u gl_FragCoord).

(** The [finalWave] values of the slots the loop does not skip, in slot
    order. *)
Fixpoint finalWaves (u : Uniforms) (f : Frag)
    (ps : list vec2) (ts : list R) : list R :=
  match ps, ts with
  | pos :: ps', t0 :: ts' =>
      if isEmpty pos then finalWaves u f ps' ts'
      else finalWave u f pos t0 :: finalWaves u f ps' ts'
  | _, _ => []
  end.

Definition finalWavesOf (u : Uniforms) (gl_FragCoord : vec2) : list R :=
  finalWaves u (frag u gl_FragCoord) (uClickPos u) (uClickTimes u).

(** The pattern chosen from [maxIntensity], before [ditherValue -= 0.5]. *)
Definition ditherPattern (u : Uniforms) (f : Frag) (maxIntensity : R) : R :=
  let a := vdivs (fragCoord f) (uPixelSize u) in
  if ltb 0.8 maxIntensity then Bayer16 a
  else if ltb 0.6 maxIntensity then Bayer8 a
  else if ltb 0.3 maxIntensity then Bayer4 a
  else blueNoise a.

Definition rippleStrengthOf (u : Uniforms) (gl_FragCoord : vec2) : R :=
  let f := frag u gl_FragCoord in
  let '(totalWave, maxIntensity) := waves u gl_FragCoord in
  let ditherValue := ditherPattern u f maxIntensity - 0.5 in
  let thresholdValue := totalWave + ditherValue in
  smoothstep 0.3 0.7 thresholdValue.

Definition main (u : Uniforms) (gl_FragCoord : vec2) : vec4 :=
  let f := frag u gl_FragCoord in
  let rippleStrength := rippleStrengthOf u gl_FragCoord in
  let backgroundColor := getAnimatedBackground u (uv f) in
  let rippleColor := vmix (uColor1 u) (uColor2 u) rippleStrength in
  let finalColor := vmix backgroundColor rippleColor rippleStrength in
  let finalColor :=
    if ltb 0.5 rippleStrength then
      cadd finalColor
           (cscale rippleColor (uBloomStrength u * (rippleStrength - 0.5) * 2))
    else finalColor in
  Vec4 finalColor 1.

(** The colour of a fragment no ripple reaches. *)
Definition backgroundOnly (u : Uniforms) (gl_FragCoord : vec2) : vec4 :=
  Vec4 (getAnimatedBackground u (uv (frag u gl_FragCoord))) 1.

End Enhanced.

(** ** The registry proper

    Slots and write cursor are handled by the same three statements in
    both controllers.  [Registry] is that common part of the two states;
    [put] is those three statements. *)

Module Ring.

Record Registry : Type := MkRegistry {
  slotPos : list vec2;
  slotTime : list R;
  writeCursor : Z
}.

Definition put (N : Z) (r : Registry) (c : Click) : option Registry :=
  match js_get (slotPos r) (writeCursor r) with
  | None => None
  | Some _ =>
      Some (MkRegistry
              (<[Z.to_nat (writeCursor r) := clickPos c]> (slotPos r))
              (<[Z.to_nat (writeCursor r) := clickTime c]> (slotTime r))
              (Z.rem (writeCursor r + 1) N))
  end.

Fixpoint puts (N : Z) (r : Registry) (cs : list Click) : option Registry :=
  match cs with
  | [] => Some r
  | c :: cs' =>
      match put N r c with
      | None => None
      | Some r' => puts N r' cs'
      end
  end.

Definition ofBasic (s : Basic.State) : Registry :=
  MkRegistry (Basic.uClickPos (Basic.uniforms s))
             (Basic.uClickTimes (Basic.uniforms s))
             (Basic.clickIndex s).

Definition ofEnhanced (s : Enhanced.State) : Registry :=
  MkRegistry (Enhanced.uClickPos (Enhanced.uniforms s))
             (Enhanced.uClickTimes (Enhanced.uniforms s))
             (Enhanced.clickIndex s).

(** The record held by slot [i], if the slot exists. *)
Definition record (r : Registry) (i : nat) : option Click :=
  match slotPos r !! i, slotTime r !! i with
  | Some p, Some t => Some (MkClick p t)
  | _, _ => None
  end.

End Ring.

(** ** The page around the controllers

    The listeners of both classes: where the arguments of [addRipple]
    come from, and what else writes the state. *)

Module Dom.

(** [getBoundingClientRect()] of the canvas, in CSS pixels. *)
Record Rect : Type := MkRect {
  rectLeft : R;
  rectTop : R;
  rectWidth : R;
  rectHeight : R
}.

(** The canvas at the time of an event: its rectangle and the size of its
    drawing buffer ([canvas.width], [canvas.height]). *)
Record Canvas : Type := MkCanvas {
  rect : Rect;
  bufferWidth : R;
  bufferHeight : R
}.

(** The conversion written out in the [pointerdown] listener of the basic
    class and in [handlePointerEvent] and [handleTouch] of the elaborated
    one: CSS pixels from the top left corner to framebuffer pixels from
    the bottom left corner. *)
Definition toFramebuffer (c : Canvas) (clientX clientY : R) : vec2 :=
  let cssX := clientX - rectLeft (rect c) in
  let cssY := clientY - rectTop (rect c) in
  let fragX := cssX * bufferWidth c / rectWidth (rect c) in
  let fragY :=
    (rectHeight (rect c) - cssY) * bufferHeight c / rectHeight (rect c) in
  Vec2 fragX fragY.

(** The pointer is over the canvas. *)
Definition over (c : Canvas) (clientX clientY : R) : Prop :=
  rectLeft (rect c) <= clientX <= rectLeft (rect c) + rectWidth (rect c) /\
  rectTop (rect c) <= clientY <= rectTop (rect c) + rectHeight (rect c).

(** A canvas that is laid out: a rectangle of positive size and a drawing
    buffer of non-negative size. *)
Definition laidOut (c : Canvas) : Prop :=
  0 < rectWidth (rect c) /\ 0 < rectHeight (rect c) /\
  0 <= bufferWidth c /\ 0 <= bufferHeight c.

End Dom.

Module BasicPage.

Inductive Event : Type :=
| PointerDown (c : Dom.Canvas) (clientX clientY : R)
| WindowResize (clientWidth clientHeight : R)
| AnimationFrame (elapsed : R)
| ClearRipples.

Definition pointerdown (s : Basic.State) (c : Dom.Canvas)
    (clientX clientY : R) : option Basic.State :=
  let p := Dom.toFramebuffer c clientX clientY in
  Basic.addRipple s (vx p) (vy p).

Definition handle (s : Basic.State) (ev : Event) : option Basic.State :=
  match ev with
  | PointerDown c x y => pointerdown s c x y
  | WindowResize w h => Some (Basic.resize s w h)
  | AnimationFrame t => Some (Basic.animate s t)
  | ClearRipples => Some (Basic.clearRipples s)
  end.

Fixpoint handleAll (s : Basic.State) (evs : list Event) : option Basic.State :=
  match evs with
  | [] => Some s
  | ev :: evs' =>
      match handle s ev with
      | None => None
      | Some s' => handleAll s' evs'
      end
  end.

(** The clock readings of the frames never go back, starting from [t]. *)
Fixpoint clockMonotone (t : R) (evs : list Event) : Prop :=
  match evs with
  | [] => True
  | AnimationFrame t' :: evs' => t <= t' /\ clockMonotone t' evs'
  | _ :: evs' => clockMonotone t evs'
  end.

End BasicPage.

Module EnhancedPage.

Inductive PresetName : Type := ocean | fire | electric | pastel.

(** One entry of the table in [preset]. *)
Record Preset : Type := MkPreset {
  pColor1 : string;
  pColor2 : string;
  pBackgroundColor : string;
  pWaveSpeed : R;
  pBloomStrength : R
}.

Definition presets (name : PresetName) : Preset :=
  match name with
  | ocean => MkPreset "#004080" "#40a0ff" "#001020" 0.25 0.4
  | fire => MkPreset "#ff4000" "#ffff00" "#200000" 0.5 0.6
  | electric => MkPreset "#8000ff" "#00ffff" "#000010" 0.4 0.8
  | pastel => MkPreset "#ffb3d1" "#b3d1ff" "#f0f0f0" 0.2 0.2
  end.

Inductive Event : Type :=
| PointerDown (c : Dom.Canvas) (clientX clientY : R)
| TouchStart (c : Dom.Canvas) (changedTouches : list (R * R))
| KeyC
| KeyR
| Space (c : Dom.Canvas) (random1 random2 : R)
| WindowResize (clientWidth clientHeight : R)
| AnimationFrame (elapsed : R)
| ApplyPreset (name : PresetName).

Definition handlePointerEvent (s : Enhanced.State) (c : Dom.Canvas)
    (clientX clientY : R) : option Enhanced.State :=
  let p := Dom.toFramebuffer c clientX clientY in
  Enhanced.addRipple s (vx p) (vy p).

(** [handleTouch] has the text of [handlePointerEvent]. *)
Definition handleTouch (s : Enhanced.State) (c : Dom.Canvas)
    (touch : R * R) : option Enhanced.State :=
  let p := Dom.toFramebuffer c (fst touch) (snd touch) in
  Enhanced.addRipple s (vx p) (vy p).

(** The loop of the [touchstart] listener over [changedTouches]. *)
Fixpoint touchstart (s : Enhanced.State) (c : Dom.Canvas)
    (touches : list (R * R)) : option Enhanced.State :=
  match touches with
  | [] => Some s
  | touch :: touches' =>
      match handleTouch s c touch with
      | None => None
      | Some s' => touchstart s' c touches'
      end
  end.

(** [addRandomRipple], with the two results of [Math.random()]. *)
Definition addRandomRipple (s : Enhanced.State) (c : Dom.Canvas)
    (random1 random2 : R) : option Enhanced.State :=
  let x := random1 * Dom.bufferWidth c in
  let y := random2 * Dom.bufferHeight c in
  Enhanced.addRipple s x y.

Section Colors.

(** What [THREE.Color.set] makes of a hexadecimal colour string. *)
Variable hex : string -> vec3.

(** [preset]: [Object.assign] on the parameters, then the five uniforms. *)
Definition preset (s : Enhanced.State) (name : PresetName) : Enhanced.State :=
  let pr := presets name in
  let p := Enhanced.params s in
  let u := Enhanced.uniforms s in
  Enhanced.MkState
    (Enhanced.MkUniforms
       (Enhanced.uResolution u) (Enhanced.uClickPos u)
       (Enhanced.uClickTimes u) (Enhanced.uTime u)
       (hex (pColor1 pr)) (hex (pColor2 pr)) (hex (pBackgroundColor pr))
       (Enhanced.uPixelSize u) (pWaveSpeed pr) (Enhanced.uWaveThickness u)
       (Enhanced.uTimeDecay u) (Enhanced.uDistanceDecay u)
       (pBloomStrength pr) (Enhanced.uAnimatedBackground u))
    (Enhanced.MkParams
       (hex (pColor1 pr)) (hex (pColor2 pr)) (hex (pBackgroundColor pr))
       (Enhanced.pixelSize p) (pWaveSpeed pr) (Enhanced.waveThickness p)
       (Enhanced.timeDecay p) (Enhanced.distanceDecay p)
       (pBloomStrength pr) (Enhanced.animatedBackground p)
       (Enhanced.maxRipples p))
    (Enhanced.clickIndex s) (Enhanced.activeRipples s).

Definition handle (s : Enhanced.State) (ev : Event) : option Enhanced.State :=
  match ev with
  | PointerDown c x y => handlePointerEvent s c x y
  | TouchStart c touches => touchstart s c touches
  | KeyC => Some s
  | KeyR => Some (Enhanced.clearAllRipples s)
  | Space c r1 r2 => addRandomRipple s c r1 r2
  | WindowResize w h => Some (Enhanced.resize s w h)
  | AnimationFrame t => Some (Enhanced.animate s t)
  | ApplyPreset name => Some (preset s name)
  end.

Fixpoint handleAll (s : Enhanced.State) (evs : list Event)
    : option Enhanced.State :=
  match evs with
  | [] => Some s
  | ev :: evs' =>
      match handle s ev with
      | None => None
      | Some s' => handleAll s' evs'
      end
  end.

End Colors.

(** The events aim at the canvas: pointers and touches are over it, it is
    laid out, and [Math.random()] is in [0, 1). *)
Definition onCanvas (ev : Event) : Prop :=
  match ev with
  | PointerDown c x y => Dom.laidOut c /\ Dom.over c x y
  | TouchStart c touches =>
      Dom.laidOut c /\ Forall (fun t => Dom.over c (fst t) (snd t)) touches
  | Space c r1 r2 => Dom.laidOut c /\ 0 <= r1 < 1 /\ 0 <= r2 < 1
  | _ => True
  end.

(** The style uniforms hold what the parameters say. *)
Definition mirrored (s : Enhanced.State) : Prop :=
  let u := Enhanced.uniforms s in
  let p := Enhanced.params s in
  Enhanced.uColor1 u = Enhanced.color1 p /\
  Enhanced.uColor2 u = Enhanced.color2 p /\
  Enhanced.uBackgroundColor u = Enhanced.backgroundColor p /\
  Enhanced.uPixelSize u = Enhanced.pixelSize p /\
  Enhanced.uWaveSpeed u = Enhanced.waveSpeed p /\
  Enhanced.uWaveThickness u = Enhanced.waveThickness p /\
  Enhanced.uTimeDecay u = Enhanced.timeDecay p /\
  Enhanced.uDistanceDecay u = Enhanced.distanceDecay p /\
  Enhanced.uBloomStrength u = Enhanced.bloomStrength p /\
  Enhanced.uAnimatedBackground u = Enhanced.animatedBackground p.

End EnhancedPage.

(** A colour whose three components lie in [0, 1]. *)
Definition unitColour (c : vec3) : Prop :=
  0 <= cr c <= 1 /\ 0 <= cg c <= 1 /\ 0 <= cb c <= 1.

(** ** Performance counter of the elaborated class *)

Module Perf.

Record Stats : Type := MkStats {
  frameCount : Z;
  lastTime : R;
  fps : Z
}.

(** Field initialisers. *)
Definition init : Stats := MkStats 0 0 60.

(** [Math.round]: the nearest integer, halves upwards. *)
Definition round (x : R) : Z := Int_part (x + 0.5).

(** [updatePerformanceStats], with the reading of [performance.now()];
    the write into the page is left out. *)
Definition updatePerformanceStats (p : Stats) (currentTime : R) : Stats :=
  let frameCount' := (frameCount p + 1)%Z in
  if ltb (currentTime - lastTime p) 1000 then
    MkStats frameCount' (lastTime p) (fps p)
  else
    MkStats 0 currentTime
      (round (IZR frameCount' * 1000 / (currentTime - lastTime p))).

Fixpoint updates (p : Stats) (times : list R) : Stats :=
  match times with
  | [] => p
  | t :: times' => updates (updatePerformanceStats p t) times'
  end.

End Perf.

(** ** The dither thresholds on integers

    Numerators of [Bayer2], [Bayer4] and [Bayer8] over 4, 16 and 64 at the
    cell with integer coordinates [(x, y)]. *)

Module DitherZ.

Definition bayer2 (x y : Z) : Z := ((2 * x + 3 * (y * y)) mod 4)%Z.

Definition bayer4 (x y : Z) : Z :=
  (bayer2 (x / 2) (y / 2) + 4 * bayer2 x y)%Z.

Definition bayer8 (x y : Z) : Z :=
  (bayer4 (x / 2) (y / 2) + 16 * bayer2 x y)%Z.

(** The cells of one 8 x 8 tile, row by row, and their numerators. *)
Definition cells : list (Z * Z) :=
  y ← seqZ 0 8; x ← seqZ 0 8; [(x, y)].

Definition tile : list Z := (fun p => bayer8 (fst p) (snd p)) <$> cells.

End DitherZ.

(** ** Sample inputs *)

Module Sample.

(** A click at the pixel [(x, x)] while the clock reads [x]. *)
Definition at_ (x : R) : Click := MkClick (Vec2 x x) x.

(** Eleven distinct clicks: one more than the basic variant has slots. *)
Definition eleven : list Click :=
  [at_ 1; at_ 2; at_ 3; at_ 4; at_ 5; at_ 6; at_ 7; at_ 8; at_ 9; at_ 10;
   at_ 11].

(** Seventeen distinct clicks, for the sixteen slots of the elaborated
    variant. *)
Definition seventeen : list Click :=
  eleven ++ [at_ 12; at_ 13; at_ 14; at_ 15; at_ 16; at_ 17].

(** The parameters of the class, with the three colours of its literal
    read as [vec3] components in [0, 1]. *)
Definition params : Enhanced.RippleParams :=
  Enhanced.defaultParams (Vec3 0 (2 / 3) 1) (Vec3 1 1 1)
                         (Vec3 0 (1 / 15) (2 / 15)).

(** Three clicks, then the states right after one click at [(5, 7)]. *)
Definition three : list Click := [at_ 1; at_ 2; at_ 3].

Definition basicOne : Basic.State :=
  Basic.MkState
    (Basic.MkUniforms (Vec2 0 0)
       (<[0%nat := Vec2 5 7]> (replicate 10 sentinel))
       (<[0%nat := 0]> (replicate 10 0))
       0)
    1.

Definition enhancedOne : Enhanced.State :=
  Enhanced.MkState
    (Enhanced.withClicks (Enhanced.uniforms (Enhanced.initWith params))
       (<[0%nat := Vec2 5 7]> (replicate 16 sentinel))
       (<[0%nat := 0]> (replicate 16 0)))
    params 1 1.

(** The same parameters with [maxRipples] set to 2, and the state after
    the clicks of [three] under them. *)
Definition capped : Enhanced.RippleParams :=
  Enhanced.MkParams (Vec3 0 (2 / 3) 1) (Vec3 1 1 1) (Vec3 0 (1 / 15) (2 / 15))
    4.0 0.35 0.12 0.8 1.2 0.3 true 2.

Definition cappedThree : Enhanced.State :=
  Enhanced.MkState
    (Enhanced.withTime
       (Enhanced.withClicks (Enhanced.uniforms (Enhanced.initWith capped))
          (Vec2 1 1 :: Vec2 2 2 :: Vec2 3 3 :: replicate 13 sentinel)
          (1 :: 2 :: 3 :: replicate 13 0))
       3)
    capped 3 2.

(** The basic state after the clicks of [three]. *)
Definition basicThree : Basic.State :=
  Basic.MkState
    (Basic.MkUniforms (Vec2 0 0)
       (Vec2 1 1 :: Vec2 2 2 :: Vec2 3 3 :: replicate 7 sentinel)
       (1 :: 2 :: 3 :: replicate 7 0)
       3)
    3.

(** An 800 x 600 frame, the fragment at its centre, and the click whose
    normalised position is that of the centre fragment's cell. *)
Definition centre : vec2 := Vec2 400.5 300.5.
Definition onCentre : vec2 := Vec2 416 316.

(** Another fragment of the centre fragment's cell. *)
Definition inCentreCell : vec2 := Vec2 410 310.

Definition basicScreen : Basic.Uniforms :=
  Basic.MkUniforms (Vec2 800 600)
    (onCentre :: replicate 9 sentinel) (replicate 10 0) 0.

Definition enhancedScreen : Enhanced.Uniforms :=
  Enhanced.withClicks
    (Enhanced.withResolution (Enhanced.uniforms (Enhanced.initWith params))
       800 600)
    (onCentre :: replicate 15 sentinel) (replicate 16 0).






(** Two ripples at [onCentre], both spawned at clock reading 0, seen at
    the clock reading [tstar] at which each contributes 0.4 at the centre
    fragment: [9 * tstar ^ 2 + tstar = ln (5 / 2)]. *)
Definition tstar : R := (sqrt (1 + 36 * ln (5 / 2)) - 1) / 18.

Definition twin : Basic.Uniforms :=
  Basic.MkUniforms (Vec2 800 600)
    (onCentre :: onCentre :: replicate 8 sentinel) (replicate 10 0) tstar.

(** The basic page in an 800 x 600 frame after one click at [(-5, -5)]. *)
Definition belowLeft : Basic.State :=
  Basic.MkState
    (Basic.MkUniforms (Vec2 800 600)
       (Vec2 (-5) (-5) :: replicate 9 sentinel) (replicate 10 0) 0)
    1.

(** A canvas of 400 x 300 CSS pixels at [(10, 20)] with a drawing buffer
    of 800 x 600, and events on it. *)
Definition canvas : Dom.Canvas :=
  Dom.MkCanvas (Dom.MkRect 10 20 400 300) 800 600.

Definition basicSession : list BasicPage.Event :=
  [BasicPage.WindowResize 800 600; BasicPage.AnimationFrame 1;
   BasicPage.PointerDown canvas 110 95; BasicPage.AnimationFrame 2;
   BasicPage.ClearRipples; BasicPage.PointerDown canvas 210 170].

Definition enhancedSession : list EnhancedPage.Event :=
  [EnhancedPage.WindowResize 800 600; EnhancedPage.AnimationFrame 1;
   EnhancedPage.PointerDown canvas 110 95;
   EnhancedPage.TouchStart canvas [(50, 60); (70, 80)];
   EnhancedPage.ApplyPreset EnhancedPage.fire;
   EnhancedPage.Space canvas 0.25 0.5; EnhancedPage.KeyR;
   EnhancedPage.PointerDown canvas 210 170].

(** The basic page long after its only click: the clock reads 100. *)
Definition stale : Basic.Uniforms :=
  Basic.MkUniforms (Vec2 800 600)
    (onCentre :: replicate 9 sentinel) (replicate 10 0) 100.

End Sample.

(** * Properties *)

(** Projections of the two states out of a constructor, for the proofs
    that follow an operation field by field. *)
Ltac basic_fields :=
  cbn [Basic.uniforms Basic.clickIndex Basic.uResolution Basic.uClickPos
       Basic.uClickTimes Basic.uTime Basic.withTime].

Ltac enhanced_fields :=
  cbn [Enhanced.uniforms Enhanced.params Enhanced.clickIndex
       Enhanced.activeRipples Enhanced.uResolution Enhanced.uClickPos
       Enhanced.uClickTimes Enhanced.uTime Enhanced.uColor1 Enhanced.uColor2
       Enhanced.uBackgroundColor Enhanced.uPixelSize Enhanced.uWaveSpeed
       Enhanced.uWaveThickness Enhanced.uTimeDecay Enhanced.uDistanceDecay
       Enhanced.uBloomStrength Enhanced.uAnimatedBackground
       Enhanced.withClicks Enhanced.withTime Enhanced.withResolution].

(** ** Arithmetic of the built-ins *)

Section BuiltIns.

Lemma ltb_true (x y : R) : x < y -> ltb x y = true.
Proof. intros H. unfold ltb. destruct (Rlt_dec x y); [reflexivity | contradiction]. Qed.

Lemma ltb_false (x y : R) : y <= x -> ltb x y = false.
Proof. intros H. unfold ltb. destruct (Rlt_dec x y); [lra | reflexivity]. Qed.

Lemma ltb_true_iff (x y : R) : ltb x y = true <-> x < y.
Proof.
  unfold ltb. destruct (Rlt_dec x y); split; intros; try assumption;
    try reflexivity; try discriminate; contradiction.
Qed.

Lemma isEmpty_sentinel : isEmpty sentinel = true.
Proof. unfold isEmpty, sentinel; cbn [vx vy]. rewrite ltb_true by lra. reflexivity. Qed.

Lemma isEmpty_true_iff (p : vec2) : isEmpty p = true <-> vx p < 0 /\ vy p < 0.
Proof.
  unfold isEmpty. rewrite andb_true_iff, !ltb_true_iff. reflexivity.
Qed.

Lemma isEmpty_false_iff (p : vec2) : isEmpty p = false <-> 0 <= vx p \/ 0 <= vy p.
Proof.
  rewrite <- not_true_iff_false, isEmpty_true_iff. split; intros H; lra.
Qed.

Lemma floor_IZR (z : Z) : floor (IZR z) = IZR z.
Proof.
  unfold floor. f_equal. symmetry. apply Int_part_spec. lra.
Qed.

Lemma floor_shift (z : Z) (f : R) : 0 <= f < 1 -> floor (IZR z + f) = IZR z.
Proof.
  intros H. unfold floor. f_equal. symmetry. apply Int_part_spec. lra.
Qed.

Lemma fract_bounds (x : R) : 0 <= fract x < 1.
Proof.
  unfold fract, floor. destruct (base_Int_part x). lra.
Qed.

Lemma fract_shift (z : Z) (f : R) : 0 <= f < 1 -> fract (IZR z + f) = f.
Proof. intros H. unfold fract. rewrite floor_shift by assumption. lra. Qed.

Lemma vec2_eta (p : vec2) : Vec2 (vx p) (vy p) = p.
Proof. destruct p; reflexivity. Qed.

Lemma distance_self (a : vec2) : distance a a = 0.
Proof.
  unfold distance, dot, vsub; cbn [vx vy].
  replace ((vx a - vx a) * (vx a - vx a) + (vy a - vy a) * (vy a - vy a))
    with 0 by ring.
  apply sqrt_0.
Qed.

Lemma distance_nonneg (a b : vec2) : 0 <= distance a b.
Proof. unfold distance. apply sqrt_pos. Qed.





End BuiltIns.

(** Facts used to show that a contribution is positive or bounded. *)
Create HintDb ripple.

#[global] Hint Resolve exp_pos distance_nonneg Rmult_lt_0_compat : ripple.

(** ** The ring of slots *)

Section RingFacts.

Import Ring.

Lemma js_get_Some {A : Type} (l : list A) (i : Z) :
  (0 <= i < Z.of_nat (length l))%Z -> exists a, js_get l i = Some a.
Proof.
  intros H. unfold js_get.
  destruct (Z.ltb_spec i 0) as [Hneg | _]; [lia |].
  destruct (lookup_lt_is_Some_2 l (Z.to_nat i)) as [a Ha]; [lia |].
  exists a. exact Ha.
Qed.

Lemma js_get_insert {A : Type} (l : list A) (i : Z) (a x : A) :
  js_get l i = Some a -> js_get (<[Z.to_nat i := x]> l) i = Some x.
Proof.
  unfold js_get. destruct (i <? 0)%Z; [discriminate |].
  intros H. apply list_lookup_insert_eq. eapply lookup_lt_Some, H.
Qed.

Lemma take_S_insert {A : Type} (l : list A) (c : nat) (x : A) :
  (c < length l)%nat -> take (S c) (<[c := x]> l) = take c l ++ [x].
Proof.
  intros H. rewrite (take_S_r _ c x).
  - rewrite take_insert_ge by lia. reflexivity.
  - apply list_lookup_insert_eq. exact H.
Qed.

(** The controller of the basic variant is [put] on its registry. *)
Lemma basic_click_put (s : Basic.State) (c : Click) :
  ofBasic <$> Basic.click s c = put Basic.MAX_CLICKS (ofBasic s) c.
Proof.
  unfold Basic.click, Basic.addRipple, put, ofBasic.
  cbn [Basic.animate Basic.uniforms Basic.uClickPos Basic.uClickTimes
       Basic.uTime Basic.clickIndex slotPos slotTime writeCursor].
  destruct (js_get _ _); [| reflexivity].
  cbn. rewrite vec2_eta. reflexivity.
Qed.

(** So is the controller of the elaborated variant: emptying the slot
    first changes the counter only. *)
Lemma enhanced_click_put (s : Enhanced.State) (c : Click) :
  ofEnhanced <$> Enhanced.click s c = put Enhanced.MAX_CLICKS (ofEnhanced s) c.
Proof.
  unfold Enhanced.click, Enhanced.addRipple, Enhanced.evict, put, ofEnhanced.
  cbn [Enhanced.animate Enhanced.uniforms Enhanced.params Enhanced.uClickPos
       Enhanced.uClickTimes Enhanced.uTime Enhanced.clickIndex
       Enhanced.activeRipples Enhanced.withTime
       slotPos slotTime writeCursor].
  destruct (_ >=? _)%Z.
  - destruct (js_get _ _) as [a |] eqn:Hget; [| reflexivity].
    enhanced_fields.
    rewrite (js_get_insert _ _ a sentinel Hget).
    cbn. rewrite list_insert_insert_eq, vec2_eta. reflexivity.
  - destruct (js_get _ _); [| reflexivity].
    cbn. rewrite vec2_eta. reflexivity.
Qed.

(** Filling consecutive slots without wrapping around. *)
Lemma puts_fill (N : nat) (cs : list Click) :
  forall (ps : list vec2) (ts : list R) (c : nat),
    length ps = N -> length ts = N ->
    (c + length cs <= N)%nat -> (c < N)%nat ->
    puts (Z.of_nat N) (MkRegistry ps ts (Z.of_nat c)) cs =
    Some (MkRegistry
            (take c ps ++ (clickPos <$> cs) ++ drop (c + length cs) ps)
            (take c ts ++ (clickTime <$> cs) ++ drop (c + length cs) ts)
            (if cs is [] then Z.of_nat c
             else Z.rem (Z.of_nat (c + length cs)) (Z.of_nat N))).
Proof.
  induction cs as [| k cs IH]; intros ps ts c Hps Hts Hfit Hc.
  - cbn. rewrite Nat.add_0_r, !take_drop. reflexivity.
  - cbn [puts length] in *. unfold put.
    cbn [slotPos slotTime writeCursor].
    destruct (js_get_Some ps (Z.of_nat c)) as [a Ha]; [lia |].
    rewrite Ha, Nat2Z.id.
    destruct cs as [| k' cs'].
    + cbn [puts fmap list_fmap length app].
      f_equal. f_equal.
      * rewrite insert_take_drop by lia.
        replace (c + 1)%nat with (S c) by lia. reflexivity.
      * rewrite insert_take_drop by lia.
        replace (c + 1)%nat with (S c) by lia. reflexivity.
      * f_equal. lia.
    + cbn [length] in *.
      replace (Z.rem (Z.of_nat c + 1) (Z.of_nat N)) with (Z.of_nat (S c)).
      2:{ rewrite Z.rem_small; lia. }
      rewrite IH; [| rewrite length_insert; lia .. | cbn [length]; lia | lia].
      cbn [length].
      f_equal. f_equal.
      * rewrite take_S_insert, drop_insert_lt by lia.
        rewrite <- app_assoc. cbn [fmap list_fmap app].
        replace (S c + S (length cs'))%nat with (c + S (S (length cs')))%nat by lia.
        reflexivity.
      * rewrite take_S_insert, drop_insert_lt by lia.
        rewrite <- app_assoc. cbn [fmap list_fmap app].
        replace (S c + S (length cs'))%nat with (c + S (S (length cs')))%nat by lia.
        reflexivity.
      * f_equal. lia.
Qed.

End RingFacts.

Section Views.


Import Ring.

Lemma puts_app (N : Z) (cs1 cs2 : list Click) :
  forall r, puts N r (cs1 ++ cs2) =
            match puts N r cs1 with
            | None => None
            | Some r' => puts N r' cs2
            end.
Proof.
  induction cs1 as [| k cs1 IH]; intros r; cbn [puts app]; [reflexivity |].
  destruct (put N r k); [apply IH | reflexivity].
Qed.

Lemma basic_clicks_puts (cs : list Click) :
  forall s, ofBasic <$> Basic.clicks s cs = puts Basic.MAX_CLICKS (ofBasic s) cs.
Proof.
  induction cs as [| k cs IH]; intros s; cbn [Basic.clicks puts]; [reflexivity |].
  rewrite <- basic_click_put.
  destruct (Basic.click s k); cbn [fmap option_fmap option_map]; [apply IH | reflexivity].
Qed.

Lemma enhanced_inserts_puts (cs : list Click) :
  forall s, ofEnhanced <$> Enhanced.run s (Enhanced.Insert <$> cs) =
            puts Enhanced.MAX_CLICKS (ofEnhanced s) cs.
Proof.
  induction cs as [| k cs IH]; intros s;
    cbn [Enhanced.run Enhanced.apply puts fmap list_fmap]; [reflexivity |].
  rewrite <- enhanced_click_put.
  destruct (Enhanced.click s k); cbn [fmap option_fmap option_map]; [apply IH | reflexivity].
Qed.

Lemma click_eta (k : Click) : MkClick (clickPos k) (clickTime k) = k.
Proof. destruct k; reflexivity. Qed.

Lemma record_fmap (cs : list Click) (w : Z) (i : nat) :
  record (MkRegistry (clickPos <$> cs) (clickTime <$> cs) w) i = cs !! i.
Proof.
  unfold record; cbn [slotPos slotTime]. rewrite !list_lookup_fmap.
  destruct (cs !! i) as [k |]; cbn; [rewrite click_eta |]; reflexivity.
Qed.

End Views.

(** *** One insertion more than there are slots *)

Section Wraparound.

Import Ring.

Variable N : nat.
Hypothesis N_pos : (0 < N)%nat.

Variable cs : list Click.
Hypothesis cs_len : length cs = S N.

(** [N + 1] insertions into [N] slots, from cursor 0: the last one lands
    on slot 0, every other slot keeps the insertion of its own index. *)
Lemma puts_wrap (ps : list vec2) (ts : list R) :
  length ps = N -> length ts = N ->
  exists r', puts (Z.of_nat N) (MkRegistry ps ts 0) cs = Some r' /\
             record r' 0 = cs !! N /\
             (forall i, (0 < i < N)%nat -> record r' i = cs !! i) /\
             (forall i, (N <= i)%nat -> record r' i = None).
Proof.
  intros Hps Hts.
  destruct (lookup_lt_is_Some_2 cs N) as [k Hk]; [lia |].
  assert (Hsplit : cs = take N cs ++ [k]).
  { rewrite <- (take_drop N cs) at 1. f_equal.
    rewrite (drop_S cs k N Hk), drop_ge by lia. reflexivity. }
  set (cs1 := take N cs) in *.
  assert (Hlen1 : length cs1 = N) by (unfold cs1; rewrite length_take; lia).
  rewrite Hsplit, puts_app.
  change 0%Z with (Z.of_nat 0).
  rewrite puts_fill by lia.
  rewrite Nat.add_0_l, Hlen1, !drop_ge, !app_nil_r, !take_0 by lia.
  cbn [app].
  replace (if cs1 is [] then Z.of_nat 0 else Z.rem (Z.of_nat N) (Z.of_nat N))
    with 0%Z.
  2:{ destruct cs1; [cbn in Hlen1; lia |]. rewrite Z.rem_same; lia. }
  cbn [puts]. unfold put; cbn [slotPos slotTime writeCursor].
  destruct (js_get_Some (clickPos <$> cs1) 0) as [a Ha].
  { rewrite length_fmap. lia. }
  rewrite Ha. change (Z.to_nat 0) with 0%nat.
  eexists; split; [reflexivity |].
  split; [| split].
  - unfold record; cbn [slotPos slotTime].
    rewrite !list_lookup_insert_eq by (rewrite length_fmap; lia).
    rewrite click_eta, lookup_app_r by lia.
    rewrite Hlen1, Nat.sub_diag. reflexivity.
  - intros i Hi. unfold record; cbn [slotPos slotTime].
    rewrite !list_lookup_insert_ne by lia.
    rewrite lookup_app_l by lia.
    apply (record_fmap cs1 0 i).
  - intros i Hi. unfold record; cbn [slotPos slotTime].
    rewrite (lookup_ge_None_2 (<[0%nat:=clickPos k]> (clickPos <$> cs1)) i);
      [reflexivity |].
    rewrite length_insert, length_fmap. lia.
Qed.

(** After the wrap-around no slot holds the first insertion, unless a
    later insertion repeats it. *)
Lemma wrap_first_gone (r' : Registry) (c1 : Click) :
  record r' 0 = cs !! N ->
  (forall i, (0 < i < N)%nat -> record r' i = cs !! i) ->
  (forall i, (N <= i)%nat -> record r' i = None) ->
  (forall k, (0 < k)%nat -> cs !! k <> Some c1) ->
  forall i, record r' i <> Some c1.
Proof.
  intros H0 Hmid Hout Hlater i.
  destruct (Nat.eq_dec i 0%nat) as [-> | Hi0].
  - rewrite H0. apply Hlater. lia.
  - destruct (Nat.lt_ge_cases i N) as [Hlt | Hge].
    + rewrite Hmid by lia. apply Hlater. lia.
    + rewrite Hout by lia. discriminate.
Qed.

End Wraparound.

(** ** Strict FIFO reuse of the slots *)

Section Fifo.

Import Ring.

Lemma fmap_Some_inv {A B : Type} (f : A -> B) (o : option A) (b : B) :
  f <$> o = Some b -> exists a, o = Some a /\ f a = b.
Proof. destruct o as [a |]; cbn; [| discriminate]. intros [= <-]. eauto. Qed.

Lemma basic_wrap (cs : list Click) :
  length cs = 11%nat ->
  exists s', Basic.clicks Basic.init cs = Some s' /\
             record (ofBasic s') 0 = cs !! 10%nat /\
             (forall i, (0 < i < 10)%nat -> record (ofBasic s') i = cs !! i) /\
             (forall i, (10 <= i)%nat -> record (ofBasic s') i = None).
Proof.
  intros Hcs.
  destruct (puts_wrap 10 ltac:(lia) cs Hcs (replicate 10 sentinel) (replicate 10 0))
    as (r' & Hputs & Hrec); [apply length_replicate .. |].
  pose proof (basic_clicks_puts cs Basic.init) as Hview.
  change (puts Basic.MAX_CLICKS (ofBasic Basic.init) cs)
    with (puts (Z.of_nat 10)
            (MkRegistry (replicate 10 sentinel) (replicate 10 0) 0) cs) in Hview.
  rewrite Hputs in Hview.
  destruct (fmap_Some_inv _ _ _ Hview) as (s' & Hs' & <-).
  exists s'. split; [exact Hs' | exact Hrec].
Qed.

Lemma enhanced_wrap (p : Enhanced.RippleParams) (cs : list Click) :
  length cs = 17%nat ->
  exists s', Enhanced.run (Enhanced.initWith p) (Enhanced.Insert <$> cs) = Some s' /\
             record (ofEnhanced s') 0 = cs !! 16%nat /\
             (forall i, (0 < i < 16)%nat -> record (ofEnhanced s') i = cs !! i) /\
             (forall i, (16 <= i)%nat -> record (ofEnhanced s') i = None).
Proof.
  intros Hcs.
  destruct (puts_wrap 16 ltac:(lia) cs Hcs (replicate 16 sentinel) (replicate 16 0))
    as (r' & Hputs & Hrec); [apply length_replicate .. |].
  pose proof (enhanced_inserts_puts cs (Enhanced.initWith p)) as Hview.
  change (puts Enhanced.MAX_CLICKS (ofEnhanced (Enhanced.initWith p)) cs)
    with (puts (Z.of_nat 16)
            (MkRegistry (replicate 16 sentinel) (replicate 16 0) 0) cs) in Hview.
  rewrite Hputs in Hview.
  destruct (fmap_Some_inv _ _ _ Hview) as (s' & Hs' & <-).
  exists s'. split; [exact Hs' | exact Hrec].
Qed.

(** C1 (as amended).  From the initial registry (cursor 0, all slots
    empty), [capacity + 1] insertions succeed and leave, in both variants:
    the record of insertion #(capacity+1) in slot 0; the record of
    insertion #k in slot k-1 for every k from 2 to capacity (so
    insertion #2 is in slot 1); and the record of insertion #1 in no slot,
    unless a later insertion wrote the same record. *)
Theorem fifo_wraparound
    (cs10 cs16 : list Click) (p : Enhanced.RippleParams) :
  length cs10 = 11%nat ->
  length cs16 = 17%nat ->
  (exists s', Basic.clicks Basic.init cs10 = Some s' /\
      record (ofBasic s') 0 = cs10 !! 10%nat /\
      (forall i, (0 < i < 10)%nat -> record (ofBasic s') i = cs10 !! i) /\
      (forall c1, cs10 !! 0%nat = Some c1 ->
                  (forall k, (0 < k)%nat -> cs10 !! k <> Some c1) ->
                  forall i, record (ofBasic s') i <> Some c1)) /\
  (exists s', Enhanced.run (Enhanced.initWith p) (Enhanced.Insert <$> cs16)
              = Some s' /\
      record (ofEnhanced s') 0 = cs16 !! 16%nat /\
      (forall i, (0 < i < 16)%nat -> record (ofEnhanced s') i = cs16 !! i) /\
      (forall c1, cs16 !! 0%nat = Some c1 ->
                  (forall k, (0 < k)%nat -> cs16 !! k <> Some c1) ->
                  forall i, record (ofEnhanced s') i <> Some c1)).
Proof.
  intros H10 H16. split.
  - destruct (basic_wrap cs10 H10) as (s' & Hrun & H0 & Hmid & Hout).
    exists s'. repeat split; try assumption.
    intros c1 _ Hlater. apply (wrap_first_gone 10 ltac:(lia) cs10); assumption.
  - destruct (enhanced_wrap p cs16 H16) as (s' & Hrun & H0 & Hmid & Hout).
    exists s'. repeat split; try assumption.
    intros c1 _ Hlater. apply (wrap_first_gone 16 ltac:(lia) cs16); assumption.
Qed.

Lemma fifo_wraparound_witness :
  length Sample.eleven = 11%nat /\
  length Sample.seventeen = 17%nat /\
  (exists s', Basic.clicks Basic.init Sample.eleven = Some s' /\
      record (ofBasic s') 0 = Some (Sample.at_ 11) /\
      record (ofBasic s') 1 = Some (Sample.at_ 2)) /\
  (exists s', Enhanced.run (Enhanced.initWith Sample.params)
                (Enhanced.Insert <$> Sample.seventeen) = Some s' /\
      record (ofEnhanced s') 0 = Some (Sample.at_ 17) /\
      record (ofEnhanced s') 1 = Some (Sample.at_ 2)).
Proof.
  split; [reflexivity |]. split; [reflexivity |].
  destruct (fifo_wraparound Sample.eleven Sample.seventeen Sample.params
              eq_refl eq_refl)
    as [(s & Hs & Hs0 & Hsi & _) (e & He & He0 & Hei & _)].
  split.
  - exists s. split; [exact Hs |]. split; [exact Hs0 |].
    apply (Hsi 1%nat). lia.
  - exists e. split; [exact He |]. split; [exact He0 |].
    apply (Hei 1%nat). lia.
Defined.

(** C1 as stated fails: after eleven insertions into the ten slots of the
    basic variant, slot 0 holds the record of insertion #11, not that
    of insertion #2 (which is in slot 1). *)
Lemma fifo_slot0_counterexample :
  exists s', Basic.clicks Basic.init Sample.eleven = Some s' /\
             record (ofBasic s') 0 = Some (Sample.at_ 11) /\
             record (ofBasic s') 0 <> Sample.eleven !! 1%nat /\
             record (ofBasic s') 1 = Sample.eleven !! 1%nat.
Proof.
  destruct (basic_wrap Sample.eleven eq_refl) as (s & Hs & Hs0 & Hsi & _).
  exists s. split; [exact Hs |]. split; [exact Hs0 |]. split.
  - rewrite Hs0. cbn [Sample.eleven lookup list_lookup]. unfold Sample.at_.
    intros [= H _ _]. lra.
  - apply Hsi. lia.
Qed.

End Fifo.

(** ** Clearing and the frame of an insertion *)

Section ClearAndFrame.

Lemma const_fmap_replicate {A B : Type} (b : B) (l : list A) :
  (fun _ => b) <$> l = replicate (length l) b.
Proof. induction l as [| a l IH]; cbn; [reflexivity | f_equal; exact IH]. Qed.

(** C3 (as amended).  Clearing is a total function in both variants.  It
    sets every slot position to the empty sentinel and every spawn time
    to 0, and touches no other uniform; in the elaborated variant it also
    resets the write cursor and the active count to 0, while the basic
    variant leaves the write cursor where it was. *)
Theorem clear_resets (b : Basic.State) (e : Enhanced.State) :
  (Basic.uniforms (Basic.clearRipples b) =
     Basic.MkUniforms
       (Basic.uResolution (Basic.uniforms b))
       (replicate (length (Basic.uClickPos (Basic.uniforms b))) sentinel)
       (replicate (length (Basic.uClickTimes (Basic.uniforms b))) 0)
       (Basic.uTime (Basic.uniforms b)) /\
   Basic.clickIndex (Basic.clearRipples b) = Basic.clickIndex b) /\
  (Enhanced.uniforms (Enhanced.clearAllRipples e) =
     Enhanced.withClicks (Enhanced.uniforms e)
       (replicate (length (Enhanced.uClickPos (Enhanced.uniforms e))) sentinel)
       (replicate (length (Enhanced.uClickTimes (Enhanced.uniforms e))) 0) /\
   Enhanced.params (Enhanced.clearAllRipples e) = Enhanced.params e /\
   Enhanced.clickIndex (Enhanced.clearAllRipples e) = 0%Z /\
   Enhanced.activeRipples (Enhanced.clearAllRipples e) = 0%Z).
Proof.
  unfold Basic.clearRipples, Enhanced.clearAllRipples.
  basic_fields. enhanced_fields.
  rewrite !const_fmap_replicate. repeat split; reflexivity.
Qed.

(** C3 as stated fails for the basic variant: after three clicks the
    cursor is 3, and [clearRipples] leaves it at 3. *)
Lemma clear_cursor_counterexample :
  Basic.clicks Basic.init Sample.three = Some Sample.basicThree /\
  Basic.clickIndex Sample.basicThree = 3%Z /\
  Basic.clickIndex (Basic.clearRipples Sample.basicThree) = 3%Z /\
  Basic.clickIndex (Basic.clearRipples Sample.basicThree) <> 0%Z.
Proof.
  split; [reflexivity |]. cbn [Basic.clearRipples Basic.clickIndex Sample.basicThree].
  repeat split; try reflexivity. discriminate.
Qed.

Lemma js_get_Some_lt {A : Type} (l : list A) (i : Z) (a : A) :
  js_get l i = Some a -> (0 <= i)%Z /\ l !! Z.to_nat i = Some a.
Proof.
  unfold js_get. destruct (Z.ltb_spec i 0) as [Hneg | Hpos]; [discriminate |].
  intros Hget. split; [lia | exact Hget].
Qed.

Lemma basic_addRipple_Some (s s' : Basic.State) (x y : R) :
  Basic.addRipple s x y = Some s' ->
  s' = Basic.MkState
         (Basic.MkUniforms (Basic.uResolution (Basic.uniforms s))
            (<[Z.to_nat (Basic.clickIndex s) := Vec2 x y]>
               (Basic.uClickPos (Basic.uniforms s)))
            (<[Z.to_nat (Basic.clickIndex s) := Basic.uTime (Basic.uniforms s)]>
               (Basic.uClickTimes (Basic.uniforms s)))
            (Basic.uTime (Basic.uniforms s)))
         (Z.rem (Basic.clickIndex s + 1) Basic.MAX_CLICKS).
Proof.
  unfold Basic.addRipple. destruct (js_get _ _); [| discriminate].
  intros [= <-]. reflexivity.
Qed.

Lemma enhanced_addRipple_Some (s s' : Enhanced.State) (x y : R) :
  Enhanced.addRipple s x y = Some s' ->
  s' = Enhanced.MkState
         (Enhanced.withClicks (Enhanced.uniforms s)
            (<[Z.to_nat (Enhanced.clickIndex s) := Vec2 x y]>
               (Enhanced.uClickPos (Enhanced.uniforms s)))
            (<[Z.to_nat (Enhanced.clickIndex s) := Enhanced.uTime (Enhanced.uniforms s)]>
               (Enhanced.uClickTimes (Enhanced.uniforms s))))
         (Enhanced.params s)
         (Z.rem (Enhanced.clickIndex s + 1) Enhanced.MAX_CLICKS)
         (if (Enhanced.activeRipples s >=? Enhanced.maxRipples (Enhanced.params s))%Z
          then Enhanced.activeRipples s - 1 + 1
          else Enhanced.activeRipples s + 1)%Z.
Proof.
  unfold Enhanced.addRipple, Enhanced.evict.
  destruct (_ >=? _)%Z.
  - destruct (js_get _ _) as [a |] eqn:Hget; [| discriminate].
    enhanced_fields.
    rewrite (js_get_insert _ _ a sentinel Hget).
    intros [= <-]. rewrite list_insert_insert_eq. reflexivity.
  - destruct (js_get _ _); [| discriminate].
    intros [= <-]. destruct (Enhanced.uniforms s); reflexivity.
Qed.

(** C10.  An insertion writes the position and the spawn time of the slot
    under the write cursor, the cursor, and (elaborated variant) the
    active count.  Every other slot keeps its position and spawn time,
    the arrays keep their length, and resolution, clock, style uniforms
    and parameters are those of the state before. *)
Theorem insert_frame
    (b b' : Basic.State) (e e' : Enhanced.State) (x y u v : R) :
  Basic.addRipple b x y = Some b' ->
  Enhanced.addRipple e u v = Some e' ->
  ((forall j, j <> Z.to_nat (Basic.clickIndex b) ->
      Basic.uClickPos (Basic.uniforms b') !! j =
        Basic.uClickPos (Basic.uniforms b) !! j /\
      Basic.uClickTimes (Basic.uniforms b') !! j =
        Basic.uClickTimes (Basic.uniforms b) !! j) /\
   length (Basic.uClickPos (Basic.uniforms b')) =
     length (Basic.uClickPos (Basic.uniforms b)) /\
   length (Basic.uClickTimes (Basic.uniforms b')) =
     length (Basic.uClickTimes (Basic.uniforms b)) /\
   Basic.uResolution (Basic.uniforms b') = Basic.uResolution (Basic.uniforms b) /\
   Basic.uTime (Basic.uniforms b') = Basic.uTime (Basic.uniforms b)) /\
  ((forall j, j <> Z.to_nat (Enhanced.clickIndex e) ->
      Enhanced.uClickPos (Enhanced.uniforms e') !! j =
        Enhanced.uClickPos (Enhanced.uniforms e) !! j /\
      Enhanced.uClickTimes (Enhanced.uniforms e') !! j =
        Enhanced.uClickTimes (Enhanced.uniforms e) !! j) /\
   length (Enhanced.uClickPos (Enhanced.uniforms e')) =
     length (Enhanced.uClickPos (Enhanced.uniforms e)) /\
   length (Enhanced.uClickTimes (Enhanced.uniforms e')) =
     length (Enhanced.uClickTimes (Enhanced.uniforms e)) /\
   Enhanced.uniforms e' =
     Enhanced.withClicks (Enhanced.uniforms e)
       (Enhanced.uClickPos (Enhanced.uniforms e'))
       (Enhanced.uClickTimes (Enhanced.uniforms e')) /\
   Enhanced.params e' = Enhanced.params e).
Proof.
  intros Hb He.
  rewrite (basic_addRipple_Some _ _ _ _ Hb), (enhanced_addRipple_Some _ _ _ _ He).
  basic_fields. enhanced_fields.
  rewrite !length_insert.
  repeat split; try reflexivity;
    apply list_lookup_insert_ne; congruence.
Qed.

Lemma insert_frame_witness :
  Basic.addRipple Basic.init 5 7 = Some Sample.basicOne /\
  Enhanced.addRipple (Enhanced.initWith Sample.params) 5 7 = Some Sample.enhancedOne /\
  Basic.uClickPos (Basic.uniforms Sample.basicOne) !! 1%nat =
    Basic.uClickPos (Basic.uniforms Basic.init) !! 1%nat /\
  Enhanced.params Sample.enhancedOne = Sample.params.
Proof.
  assert (Hb : Basic.addRipple Basic.init 5 7 = Some Sample.basicOne)
    by reflexivity.
  assert (He : Enhanced.addRipple (Enhanced.initWith Sample.params) 5 7
               = Some Sample.enhancedOne) by reflexivity.
  destruct (insert_frame _ _ _ _ _ _ _ _ Hb He)
    as [(Hslots & _) (_ & _ & _ & _ & Hparams)].
  split; [exact Hb |]. split; [exact He |].
  split; [apply (Hslots 1%nat); discriminate | exact Hparams].
Defined.

End ClearAndFrame.

(** ** The active-ripple counter *)

Section Counter.

Import Enhanced.

Lemma countActive_app (l1 l2 : list vec2) :
  countActive (l1 ++ l2) = (countActive l1 + countActive l2)%nat.
Proof. induction l1 as [| p l1 IH]; cbn [countActive app]; lia. Qed.

Lemma countActive_all (l : list vec2) :
  Forall (fun p => isEmpty p = false) l -> countActive l = length l.
Proof.
  induction 1 as [| p l Hp _ IH]; cbn [countActive length]; [reflexivity |].
  rewrite Hp, IH. reflexivity.
Qed.

Lemma countActive_none (l : list vec2) :
  Forall (fun p => isEmpty p = true) l -> countActive l = 0%nat.
Proof.
  induction 1 as [| p l Hp _ IH]; cbn [countActive]; [reflexivity |].
  rewrite Hp, IH. reflexivity.
Qed.

Lemma tracked_count (s : State) :
  tracked s -> activeRipples s = nonEmptySlots s.
Proof.
  intros ((Hps & _ & Hc) & [(Ha & Hfull & Hfree) | (Ha & Hall)]);
    unfold nonEmptySlots.
  - rewrite <- (take_drop (Z.to_nat (clickIndex s)) (uClickPos (uniforms s))).
    rewrite countActive_app, (countActive_all _ Hfull), (countActive_none _ Hfree).
    rewrite length_take, Hps, Ha. unfold MAX_CLICKS in *. lia.
  - rewrite (countActive_all _ Hall), Hps, Ha. reflexivity.
Qed.

Lemma wf_init (p : RippleParams) : wf (initWith p).
Proof.
  unfold wf, initWith; cbn [uniforms uClickPos uClickTimes clickIndex].
  rewrite !length_replicate. unfold MAX_CLICKS. repeat split; lia.
Qed.

Lemma wf_clear (s : State) : wf s -> wf (clearAllRipples s).
Proof.
  intros (Hps & Hts & Hc). unfold wf, clearAllRipples.
  cbn [uniforms withClicks uClickPos uClickTimes clickIndex].
  rewrite !length_fmap. unfold MAX_CLICKS in *. repeat split; lia.
Qed.

Lemma addRipple_total (s : State) (x y : R) :
  wf s -> exists s', addRipple s x y = Some s' /\ wf s'.
Proof.
  intros (Hps & Hts & Hc).
  destruct (js_get_Some (uClickPos (uniforms s)) (clickIndex s)) as [a Ha].
  { rewrite Hps. unfold MAX_CLICKS in *. lia. }
  assert (Hsome : exists s', addRipple s x y = Some s').
  { unfold addRipple, evict. destruct (_ >=? _)%Z.
    - rewrite Ha.
      cbn [uniforms withClicks uClickPos clickIndex].
      rewrite (js_get_insert _ _ a sentinel Ha). eauto.
    - rewrite Ha. eauto. }
  destruct Hsome as (s' & Hs'). exists s'. split; [exact Hs' |].
  rewrite (enhanced_addRipple_Some _ _ _ _ Hs').
  unfold wf. cbn [uniforms withClicks uClickPos uClickTimes clickIndex].
  rewrite !length_insert.
  pose proof (Z.rem_bound_pos (clickIndex s + 1) MAX_CLICKS) as Hrem.
  unfold MAX_CLICKS in *. repeat split; lia.
Qed.

Lemma tracked_clear (s : State) : wf s -> tracked (clearAllRipples s).
Proof.
  intros Hwf. split; [apply wf_clear, Hwf |]. left.
  unfold clearAllRipples.
  cbn [uniforms withClicks uClickPos clickIndex activeRipples].
  change (Z.to_nat 0) with 0%nat. rewrite take_0, drop_0.
  repeat split; [constructor |].
  apply Forall_fmap, Forall_true. intros p. apply isEmpty_sentinel.
Qed.

Lemma tracked_animate (s : State) (t : R) : tracked s -> tracked (animate s t).
Proof. intros H. exact H. Qed.

Lemma tracked_addRipple (s s' : State) (x y : R) :
  tracked s -> maxRipples (params s) = MAX_CLICKS ->
  isEmpty (Vec2 x y) = false ->
  addRipple s x y = Some s' -> tracked s'.
Proof.
  intros (Hwf & Hcases) Hmax Hxy Hs'.
  destruct (addRipple_total s x y Hwf) as (s2 & Hs2 & Hwf2).
  rewrite Hs' in Hs2. injection Hs2 as Heq. subst s2.
  split; [exact Hwf2 |].
  rewrite (enhanced_addRipple_Some _ _ _ _ Hs').
  cbn [uniforms withClicks uClickPos clickIndex activeRipples params].
  destruct Hwf as (Hps & _ & Hc). rewrite Hmax. unfold MAX_CLICKS in *.
  set (c := clickIndex s) in *. set (ps := uClickPos (uniforms s)) in *.
  destruct Hcases as [(Ha & Hfull & Hfree) | (Ha & Hall)].
  - rewrite Ha. destruct (Z.geb_spec c 16) as [Hge | Hlt]; [lia |].
    assert (Hnew : Forall (fun p => isEmpty p = false)
                     (take (S (Z.to_nat c)) (<[Z.to_nat c := Vec2 x y]> ps))).
    { rewrite take_S_insert by lia. apply Forall_app. split; [exact Hfull |].
      constructor; [exact Hxy | constructor]. }
    assert (Hrest : Forall (fun p => isEmpty p = true)
                      (drop (S (Z.to_nat c)) (<[Z.to_nat c := Vec2 x y]> ps))).
    { rewrite drop_insert_lt by lia.
      rewrite <- (Nat.add_1_r (Z.to_nat c)), <- drop_drop.
      apply Forall_drop, Hfree. }
    destruct (Z.eq_dec (c + 1)%Z 16%Z) as [Heq | Hne].
    + right. split; [lia |].
      rewrite <- (take_ge (<[Z.to_nat c := Vec2 x y]> ps) (S (Z.to_nat c)));
        [exact Hnew | rewrite length_insert; lia].
    + left. rewrite Z.rem_small by lia.
      replace (Z.to_nat (c + 1)) with (S (Z.to_nat c)) by lia.
      repeat split; assumption.
  - right. rewrite Ha. change (16 >=? 16)%Z with true.
    split; [lia |]. apply Forall_insert; assumption.
Qed.

Lemma apply_params (s s' : State) (o : Op) :
  apply s o = Some s' -> params s' = params s.
Proof.
  destruct o as [k |]; cbn [apply].
  - unfold click. intros H. rewrite (enhanced_addRipple_Some _ _ _ _ H). reflexivity.
  - intros [= <-]. reflexivity.
Qed.

(** One operation on a well-formed state: it succeeds, and the counter
    stays within the capacity when [maxRipples] does. *)
Lemma apply_bounded (s : State) (o : Op) :
  wf s -> (maxRipples (params s) <= MAX_CLICKS)%Z ->
  (0 <= activeRipples s <= MAX_CLICKS)%Z ->
  exists s', apply s o = Some s' /\ wf s' /\
             (0 <= activeRipples s' <= MAX_CLICKS)%Z.
Proof.
  intros Hwf Hmax Hact. destruct o as [k |]; cbn [apply].
  - unfold click.
    destruct (addRipple_total (animate s (clickTime k))
                (vx (clickPos k)) (vy (clickPos k)) Hwf) as (s' & Hs' & Hwf').
    exists s'. split; [exact Hs' |]. split; [exact Hwf' |].
    rewrite (enhanced_addRipple_Some _ _ _ _ Hs').
    cbn [activeRipples animate params].
    destruct (Z.geb_spec (activeRipples s) (maxRipples (params s))); lia.
  - exists (clearAllRipples s). split; [reflexivity |].
    split; [apply wf_clear, Hwf |].
    cbn [clearAllRipples activeRipples]. unfold MAX_CLICKS. lia.
Qed.

Lemma run_bounded (os : list Op) :
  forall s, wf s -> (maxRipples (params s) <= MAX_CLICKS)%Z ->
            (0 <= activeRipples s <= MAX_CLICKS)%Z ->
            exists s', run s os = Some s' /\ params s' = params s /\
                       (0 <= activeRipples s' <= MAX_CLICKS)%Z.
Proof.
  induction os as [| o os IH]; intros s Hwf Hmax Hact; cbn [run].
  - exists s. auto.
  - destruct (apply_bounded s o Hwf Hmax Hact) as (s1 & Hs1 & Hwf1 & Hact1).
    rewrite Hs1. pose proof (apply_params _ _ _ Hs1) as Hp.
    destruct (IH s1 Hwf1) as (s' & Hs' & Hp' & Hact'); [rewrite Hp; exact Hmax | exact Hact1 |].
    exists s'. split; [exact Hs' |]. split; [congruence | exact Hact'].
Qed.

Lemma run_tracked (os : list Op) :
  forall s s', tracked s -> maxRipples (params s) = MAX_CLICKS ->
               Forall opNonEmpty os -> run s os = Some s' -> tracked s'.
Proof.
  induction os as [| o os IH]; intros s s' Htr Hmax Hos; cbn [run].
  - intros [= <-]. exact Htr.
  - destruct (apply s o) as [s1 |] eqn:Hs1; [| discriminate].
    inversion Hos as [| o' os' Ho Hos']; subst o' os'.
    apply IH; [| rewrite (apply_params _ _ _ Hs1); exact Hmax | exact Hos'].
    destruct o as [k |]; cbn [apply opNonEmpty] in *.
    + unfold click in Hs1.
      eapply tracked_addRipple; [apply (tracked_animate s (clickTime k) Htr) | exact Hmax | | exact Hs1].
      rewrite vec2_eta. exact Ho.
    + injection Hs1 as <-. apply tracked_clear, Htr.
Qed.

(** C4 (as amended).  In the elaborated variant, every sequence of
    insert and clear operations from the initial state succeeds; with
    [maxRipples] at most the capacity the active count stays within
    [0, capacity]; and with [maxRipples] equal to the capacity (the value
    the class gives it) and every inserted position non-empty, the active
    count equals the number of slots whose position is not empty. *)
Theorem active_count_tracks (p : RippleParams) (os : list Op) :
  (maxRipples p <= MAX_CLICKS)%Z ->
  exists s', run (initWith p) os = Some s' /\
             (0 <= activeRipples s' <= MAX_CLICKS)%Z /\
             (maxRipples p = MAX_CLICKS -> Forall opNonEmpty os ->
              activeRipples s' = nonEmptySlots s').
Proof.
  intros Hmax.
  destruct (run_bounded os (initWith p) (wf_init p) Hmax) as (s' & Hs' & _ & Hact).
  { cbn [initWith activeRipples]. unfold MAX_CLICKS. lia. }
  exists s'. split; [exact Hs' |]. split; [exact Hact |].
  intros Heq Hos. apply tracked_count.
  apply (run_tracked os (initWith p) s'); [| exact Heq | exact Hos | exact Hs'].
  apply (tracked_clear (initWith p) (wf_init p)).
Qed.

Lemma isEmpty_at (x : R) : 0 <= x -> isEmpty (clickPos (Sample.at_ x)) = false.
Proof. intros H. apply isEmpty_false_iff. cbn [Sample.at_ clickPos vx vy]. lra. Qed.

Lemma active_count_tracks_witness :
  (maxRipples Sample.params <= MAX_CLICKS)%Z /\
  exists s', run (initWith Sample.params)
               [Insert (Sample.at_ 1); Clear; Insert (Sample.at_ 2);
                Insert (Sample.at_ 3)] = Some s' /\
             (0 <= activeRipples s' <= MAX_CLICKS)%Z /\
             activeRipples s' = nonEmptySlots s'.
Proof.
  split; [exact (Z.le_refl 16) |].
  destruct (active_count_tracks Sample.params
              [Insert (Sample.at_ 1); Clear; Insert (Sample.at_ 2);
               Insert (Sample.at_ 3)] (Z.le_refl 16))
    as (s' & Hrun & Hrange & Hcount).
  exists s'. split; [exact Hrun |]. split; [exact Hrange |].
  apply Hcount; [reflexivity |].
  repeat constructor; apply isEmpty_at; lra.
Defined.

(** C4 as stated fails below the capacity: with [maxRipples = 2] the
    third insertion empties the (already empty) slot 2, decrements the
    counter and fills the slot, so three slots are non-empty while the
    counter shows 2. *)
Lemma active_count_capped_counterexample :
  (maxRipples Sample.capped <= MAX_CLICKS)%Z /\
  Forall opNonEmpty (Insert <$> Sample.three) /\
  run (initWith Sample.capped) (Insert <$> Sample.three)
    = Some Sample.cappedThree /\
  activeRipples Sample.cappedThree = 2%Z /\
  nonEmptySlots Sample.cappedThree = 3%Z.
Proof.
  split; [discriminate |]. split.
  { repeat constructor; apply isEmpty_at; lra. }
  split; [reflexivity |]. split; [reflexivity |].
  unfold nonEmptySlots, Sample.cappedThree.
  cbn [uniforms uClickPos withClicks withTime countActive replicate].
  rewrite !(proj2 (isEmpty_false_iff _)) by (cbn [vx vy]; lra).
  rewrite !isEmpty_sentinel. reflexivity.
Qed.

End Counter.

(** ** The dither threshold *)

Section DitherRange.

(** [Bayer2] takes the four values 0, 1/4, 1/2 and 3/4 only. *)
Lemma Bayer2_quarters (a : vec2) :
  exists r : Z, (0 <= r <= 3)%Z /\ Bayer2 a = IZR r / 4.
Proof.
  unfold Bayer2, vfloor, floor; cbn [vx vy].
  set (X := Int_part (vx a)). set (Y := Int_part (vy a)).
  set (n := (2 * X + 3 * (Y * Y))%Z).
  exists (n mod 4)%Z.
  assert (Hr : (0 <= n mod 4 < 4)%Z) by (apply Z.mod_pos_bound; lia).
  split; [lia |].
  assert (Hn : IZR n = 4 * IZR (n / 4) + IZR (n mod 4)).
  { rewrite <- mult_IZR, <- plus_IZR. f_equal. apply Z.div_mod. lia. }
  assert (Hn' : IZR n = 2 * IZR X + 3 * (IZR Y * IZR Y)).
  { unfold n. rewrite plus_IZR, !mult_IZR. reflexivity. }
  replace (IZR X / 2 + IZR Y * IZR Y * 0.75)
    with (IZR (n / 4) + IZR (n mod 4) / 4) by lra.
  apply fract_shift.
  destruct Hr as [Hr0 Hr4]. apply IZR_le in Hr0. apply IZR_lt in Hr4. lra.
Qed.

Lemma Bayer2_range (a : vec2) : 0 <= Bayer2 a <= 3 / 4.
Proof.
  destruct (Bayer2_quarters a) as (r & [Hr0 Hr3] & ->).
  apply IZR_le in Hr0. apply IZR_le in Hr3. lra.
Qed.

Lemma Bayer4_range (a : vec2) : 0 <= Bayer4 a <= 15 / 16.
Proof.
  unfold Bayer4.
  pose proof (Bayer2_range a). pose proof (Bayer2_range (vscale a 0.5)). lra.
Qed.

Lemma Bayer8_range (a : vec2) : 0 <= Bayer8 a <= 63 / 64.
Proof.
  unfold Bayer8.
  pose proof (Bayer2_range a). pose proof (Bayer4_range (vscale a 0.5)). lra.
Qed.

Lemma Bayer16_range (a : vec2) : 0 <= Bayer16 a <= 255 / 256.
Proof.
  unfold Bayer16.
  pose proof (Bayer2_range a). pose proof (Bayer8_range (vscale a 0.5)). lra.
Qed.

Lemma bayer_bound_basic (u : Basic.Uniforms) (gl_FragCoord : vec2) :
  -0.5 <= Basic.bayerValue u gl_FragCoord < 0.5.
Proof.
  unfold Basic.bayerValue.
  pose proof (Bayer8_range
    (vdivs (Basic.fragCoord (Basic.frag u gl_FragCoord)) Basic.PIXEL_SIZE)).
  lra.
Qed.

(** C7.  For every coordinate the thresholds [Bayer2], [Bayer4], [Bayer8]
    and [Bayer16] lie in [0, 1); so does the pattern the elaborated shader
    selects, whatever the intensity; after the subtraction of 0.5 the
    dither value of either shader lies in [-0.5, 0.5). *)
Theorem bayer_threshold_range
    (a gl_FragCoord : vec2) (bu : Basic.Uniforms)
    (eu : Enhanced.Uniforms) (f : Enhanced.Frag) (maxIntensity : R) :
  (0 <= Bayer2 a < 1) /\ (0 <= Bayer4 a < 1) /\
  (0 <= Bayer8 a < 1) /\ (0 <= Bayer16 a < 1) /\
  (-0.5 <= Basic.bayerValue bu gl_FragCoord < 0.5) /\
  (0 <= Enhanced.ditherPattern eu f maxIntensity < 1) /\
  (-0.5 <= Enhanced.ditherPattern eu f maxIntensity - 0.5 < 0.5).
Proof.
  pose proof (Bayer2_range a). pose proof (Bayer4_range a).
  pose proof (Bayer8_range a). pose proof (Bayer16_range a).
  assert (Hpat : 0 <= Enhanced.ditherPattern eu f maxIntensity < 1).
  { unfold Enhanced.ditherPattern.
    set (c := vdivs (Enhanced.fragCoord f) (Enhanced.uPixelSize eu)).
    pose proof (Bayer4_range c). pose proof (Bayer8_range c).
    pose proof (Bayer16_range c). pose proof (fract_bounds
      (sin (dot (vscale c 0.01) (Vec2 127.1 311.7)) * 43758.5453123 +
       sin (dot (vscale c 0.01) (Vec2 269.5 183.3)) * 43758.5453123)).
    unfold Enhanced.blueNoise.
    destruct (ltb 0.8 maxIntensity); [lra |].
    destruct (ltb 0.6 maxIntensity); [lra |].
    destruct (ltb 0.3 maxIntensity); lra. }
  unfold Basic.bayerValue.
  pose proof (Bayer8_range
    (vdivs (Basic.fragCoord (Basic.frag bu gl_FragCoord)) Basic.PIXEL_SIZE)).
  repeat split; lra.
Qed.

End DitherRange.

(** ** Combination by maximum *)

Section MaxCombination.

Lemma foldl_Rmax_lower (l : list R) : forall a, a <= foldl Rmax a l.
Proof.
  induction l as [| c l IH]; intros a; cbn [foldl]; [lra |].
  apply Rle_trans with (Rmax a c); [apply Rmax_l | apply IH].
Qed.

Lemma foldl_Rmax_upper (l : list R) :
  forall a c, In c l -> c <= foldl Rmax a l.
Proof.
  induction l as [| d l IH]; intros a c Hin; cbn [foldl]; [destruct Hin |].
  destruct Hin as [-> | Hin].
  - apply Rle_trans with (Rmax a c); [apply Rmax_r | apply foldl_Rmax_lower].
  - apply IH, Hin.
Qed.

Lemma foldl_Rmax_attained (l : list R) :
  forall a, foldl Rmax a l = a \/ In (foldl Rmax a l) l.
Proof.
  induction l as [| d l IH]; intros a; cbn [foldl]; [left; reflexivity |].
  destruct (IH (Rmax a d)) as [Heq | Hin].
  - rewrite Heq. unfold Rmax. destruct (Rle_dec a d); [right; left |]; auto.
  - right. right. exact Hin.
Qed.

(** The maximum of a non-empty list of positive numbers, computed from 0,
    is one of them. *)
Lemma foldl_Rmax_positive (l : list R) :
  Forall (fun c => 0 < c) l -> l <> [] -> In (foldl Rmax 0 l) l.
Proof.
  intros Hpos Hne.
  destruct (foldl_Rmax_attained l 0) as [Heq | Hin]; [| exact Hin].
  destruct l as [| c l]; [contradiction |].
  pose proof (foldl_Rmax_upper (c :: l) 0 c (or_introl eq_refl)) as Hc.
  inversion Hpos; subst. lra.
Qed.

Lemma basic_loop_fold (u : Basic.Uniforms) (f : Basic.Frag) (ps : list vec2) :
  forall ts feed,
    Basic.clickLoop u f ps ts feed = foldl Rmax feed (Basic.contributions u f ps ts).
Proof.
  induction ps as [| pos ps IH]; intros [| t0 ts] feed;
    cbn [Basic.clickLoop Basic.contributions foldl]; try reflexivity.
  destruct (isEmpty pos); cbn [foldl]; apply IH.
Qed.

Lemma enhanced_loop_fold (u : Enhanced.Uniforms) (f : Enhanced.Frag) (ps : list vec2) :
  forall ts a,
    Enhanced.clickLoop u f ps ts (a, a) =
    (foldl Rmax a (Enhanced.finalWaves u f ps ts),
     foldl Rmax a (Enhanced.finalWaves u f ps ts)).
Proof.
  induction ps as [| pos ps IH]; intros [| t0 ts] a;
    cbn [Enhanced.clickLoop Enhanced.finalWaves foldl fst snd]; try reflexivity.
  destruct (isEmpty pos); cbn [foldl]; apply IH.
Qed.

Lemma basic_contribution_pos (u : Basic.Uniforms) (f : Basic.Frag)
    (pos : vec2) (t0 : R) : 0 < Basic.contribution u f pos t0.
Proof.
  unfold Basic.contribution, Basic.ring, Basic.atten. auto with ripple.
Qed.

Lemma calculateWave_pos (pos center : vec2) (time waveSpeed thickness : R) :
  0 < Enhanced.calculateWave pos center time waveSpeed thickness.
Proof.
  unfold Enhanced.calculateWave.
  apply Rmult_lt_0_compat; [apply exp_pos |].
  match goal with |- context [sin ?x] => pose proof (SIN_bound x) end. lra.
Qed.

Lemma finalWave_pos (u : Enhanced.Uniforms) (f : Enhanced.Frag)
    (pos : vec2) (t0 : R) : 0 < Enhanced.finalWave u f pos t0.
Proof.
  pose proof calculateWave_pos as Hwave.
  unfold Enhanced.finalWave, Enhanced.timeAttenuation, Enhanced.distanceAttenuation.
  auto with ripple.
Qed.

Lemma basic_contributions_pos (u : Basic.Uniforms) (f : Basic.Frag) (ps : list vec2) :
  forall ts, Forall (fun c => 0 < c) (Basic.contributions u f ps ts).
Proof.
  induction ps as [| pos ps IH]; intros [| t0 ts]; cbn [Basic.contributions];
    try constructor.
  destruct (isEmpty pos); [apply IH |].
  constructor; [apply basic_contribution_pos | apply IH].
Qed.

Lemma finalWaves_pos (u : Enhanced.Uniforms) (f : Enhanced.Frag) (ps : list vec2) :
  forall ts, Forall (fun c => 0 < c) (Enhanced.finalWaves u f ps ts).
Proof.
  induction ps as [| pos ps IH]; intros [| t0 ts]; cbn [Enhanced.finalWaves];
    try constructor.
  destruct (isEmpty pos); [apply IH |].
  constructor; [apply finalWave_pos | apply IH].
Qed.

Lemma Rmax_idem (c : R) : Rmax c c = c.
Proof. apply Rmax_left. lra. Qed.

Lemma basic_feed_fold (u : Basic.Uniforms) (px : vec2) :
  Basic.feedOf u px = foldl Rmax 0 (Basic.contributionsOf u px).
Proof. apply basic_loop_fold. Qed.

Lemma enhanced_waves_fold (u : Enhanced.Uniforms) (px : vec2) :
  Enhanced.waves u px =
  (foldl Rmax 0 (Enhanced.finalWavesOf u px),
   foldl Rmax 0 (Enhanced.finalWavesOf u px)).
Proof. apply enhanced_loop_fold. Qed.

(** C5.  At every pixel and for every content of the uniforms, the
    aggregate intensity ([feed], resp. [totalWave] and [maxIntensity]) is
    the maximum of the contributions of the non-empty slots: it bounds
    each of them, it is one of them when there is one, and it is 0 when
    there is none.  It is not their sum: two non-empty slots that both
    contribute [c] give [c]; with [c = 0.4] that is 0.4, not 0.8. *)
Theorem intensity_is_max
    (bu : Basic.Uniforms) (eu : Enhanced.Uniforms) (px : vec2) :
  ((forall c, In c (Basic.contributionsOf bu px) -> c <= Basic.feedOf bu px) /\
   (Basic.contributionsOf bu px <> [] ->
      In (Basic.feedOf bu px) (Basic.contributionsOf bu px)) /\
   (Basic.contributionsOf bu px = [] -> Basic.feedOf bu px = 0) /\
   (forall c, Basic.contributionsOf bu px = [c; c] -> Basic.feedOf bu px = c) /\
   (Basic.contributionsOf bu px = [0.4; 0.4] ->
      Basic.feedOf bu px = 0.4 /\ Basic.feedOf bu px <> 0.8)) /\
  ((forall c, In c (Enhanced.finalWavesOf eu px) -> c <= Enhanced.totalWave eu px) /\
   (Enhanced.finalWavesOf eu px <> [] ->
      In (Enhanced.totalWave eu px) (Enhanced.finalWavesOf eu px)) /\
   (Enhanced.finalWavesOf eu px = [] -> Enhanced.totalWave eu px = 0) /\
   (forall c, Enhanced.finalWavesOf eu px = [c; c] -> Enhanced.totalWave eu px = c) /\
   (Enhanced.finalWavesOf eu px = [0.4; 0.4] ->
      Enhanced.totalWave eu px = 0.4 /\ Enhanced.totalWave eu px <> 0.8) /\
   snd (Enhanced.waves eu px) = Enhanced.totalWave eu px).
Proof.
  unfold Enhanced.totalWave.
  rewrite basic_feed_fold, enhanced_waves_fold. cbn [fst snd].
  pose proof (basic_contributions_pos bu (Basic.frag bu px)
                (Basic.uClickPos bu) (Basic.uClickTimes bu)) as Hb.
  pose proof (finalWaves_pos eu (Enhanced.frag eu px)
                (Enhanced.uClickPos eu) (Enhanced.uClickTimes eu)) as He.
  fold (Basic.contributionsOf bu px) in Hb.
  fold (Enhanced.finalWavesOf eu px) in He.
  set (cs := Basic.contributionsOf bu px) in *.
  set (ws := Enhanced.finalWavesOf eu px) in *.
  assert (Htwo : forall (l : list R) (c : R),
             Forall (fun c => 0 < c) l -> l = [c; c] -> foldl Rmax 0 l = c).
  { intros l c Hl ->. cbn [foldl]. inversion Hl; subst.
    rewrite (Rmax_right 0 c) by lra. apply Rmax_idem. }
  split; [| split; [| split; [| split; [| split; [| split]]]]];
    try reflexivity.
  - repeat split.
    + intros c Hc. apply foldl_Rmax_upper, Hc.
    + apply foldl_Rmax_positive, Hb.
    + intros ->. reflexivity.
    + intros c Hc. apply (Htwo cs c Hb Hc).
    + rewrite (Htwo cs 0.4 Hb H). reflexivity.
    + rewrite (Htwo cs 0.4 Hb H). lra.
  - intros c Hc. apply foldl_Rmax_upper, Hc.
  - apply foldl_Rmax_positive, He.
  - intros ->. reflexivity.
  - intros c Hc. apply (Htwo ws c He Hc).
  - intros H. rewrite (Htwo ws 0.4 He H). split; [reflexivity | lra].
Qed.

End MaxCombination.

(** ** A ripple at its spawn instant, sampled at its centre *)

Section SpawnCentre.

Lemma floor_unit (x : R) : 0 <= x < 1 -> floor x = 0.
Proof.
  intros H. replace x with (IZR 0 + x) by lra. apply floor_shift, H.
Qed.

Lemma vec2_ext (a b : vec2) : vx a = vx b -> vy a = vy b -> a = b.
Proof. destruct a, b; cbn. intros -> ->. reflexivity. Qed.

Lemma distance_zero (a b : vec2) : a = b -> distance a b = 0.
Proof. intros ->. apply distance_self. Qed.

Lemma basic_ring_0 : Basic.ring 0 0 = 1.
Proof.
  unfold Basic.ring, pow2, Basic.speed, Basic.thickness.
  replace (- ((0 - 0.30 * 0) / 0.10 * ((0 - 0.30 * 0) / 0.10))) with 0 by lra.
  apply exp_0.
Qed.

Lemma basic_atten_0 : Basic.atten 0 0 = 1.
Proof.
  unfold Basic.atten, Basic.dampT, Basic.dampR.
  replace (- (1) * 0) with 0 by lra. rewrite exp_0. lra.
Qed.

Lemma basic_contribution_spawn_centre
    (u : Basic.Uniforms) (f : Basic.Frag) (pos : vec2) (t0 : R) :
  Rmax (Basic.uTime u - t0) 0 = 0 ->
  distance (Basic.uv f) (Basic.clickUV u f pos) = 0 ->
  Basic.contribution u f pos t0 = 1.
Proof.
  intros Ht Hr. unfold Basic.contribution. rewrite Ht, Hr.
  rewrite basic_ring_0, basic_atten_0. lra.
Qed.

Lemma gaussian_0 (speed thickness : R) :
  exp (- pow2 ((0 - speed * 0) / thickness)) = 1.
Proof.
  unfold pow2, Rdiv. rewrite Rmult_0_r, Rminus_0_r, !Rmult_0_l, Ropp_0.
  apply exp_0.
Qed.

Lemma calculateWave_spawn_centre (pos center : vec2) (speed thickness : R) :
  distance pos center = 0 ->
  Enhanced.calculateWave pos center 0 speed thickness = 0.7.
Proof.
  intros Hr. unfold Enhanced.calculateWave. rewrite Hr, gaussian_0.
  replace (6.28318 * (0 - speed * 0) / thickness * 2) with 0.
  2:{ unfold Rdiv. rewrite Rmult_0_r, Rminus_0_r, Rmult_0_r, !Rmult_0_l.
      reflexivity. }
  rewrite sin_0. lra.
Qed.

Lemma enhanced_attenuation_0 (u : Enhanced.Uniforms) :
  Enhanced.timeAttenuation u 0 = 1 /\ Enhanced.distanceAttenuation u 0 = 1.
Proof.
  unfold Enhanced.timeAttenuation, Enhanced.distanceAttenuation.
  rewrite !Rmult_0_r. split; apply exp_0.
Qed.

Lemma finalWave_spawn_centre
    (u : Enhanced.Uniforms) (f : Enhanced.Frag) (pos : vec2) (t0 : R) :
  Rmax (Enhanced.uTime u - t0) 0 = 0 ->
  distance (Enhanced.uv f) (Enhanced.clickUV u f pos) = 0 ->
  Enhanced.finalWave u f pos t0 = 0.7.
Proof.
  intros Ht Hr. unfold Enhanced.finalWave. rewrite Ht.
  rewrite (calculateWave_spawn_centre _ _ _ _ Hr), Hr.
  destruct (enhanced_attenuation_0 u) as [-> ->]. lra.
Qed.

(** C6 (as amended).  For a record with [timeSinceSpawn = 0] sampled at
    [radialDistance = 0], the Gaussian ring term is [exp 0 = 1] and both
    attenuation factors are [exp 0 = 1] in both variants.  The
    contribution is 1 in the basic variant; in the elaborated variant the
    interference factor [(1 + 0.3 * sin 0) * 0.7] makes the wave, and with
    it the contribution, 0.7. *)
Theorem spawn_centre_contribution
    (bu : Basic.Uniforms) (eu : Enhanced.Uniforms)
    (bpx epx bpos epos : vec2) (bt0 et0 : R) :
  Rmax (Basic.uTime bu - bt0) 0 = 0 ->
  distance (Basic.uv (Basic.frag bu bpx))
           (Basic.clickUV bu (Basic.frag bu bpx) bpos) = 0 ->
  Rmax (Enhanced.uTime eu - et0) 0 = 0 ->
  distance (Enhanced.uv (Enhanced.frag eu epx))
           (Enhanced.clickUV eu (Enhanced.frag eu epx) epos) = 0 ->
  Enhanced.uWaveThickness eu <> 0 ->
  (Basic.ring 0 0 = 1 /\ Basic.atten 0 0 = 1 /\
   Basic.contribution bu (Basic.frag bu bpx) bpos bt0 = 1) /\
  (exp (- pow2 ((0 - Enhanced.uWaveSpeed eu * 0) / Enhanced.uWaveThickness eu)) = 1 /\
   Enhanced.timeAttenuation eu 0 = 1 /\
   Enhanced.distanceAttenuation eu 0 = 1 /\
   Enhanced.finalWave eu (Enhanced.frag eu epx) epos et0 = 0.7).
Proof.
  intros Hbt Hbr Het Her _.
  split; [split; [| split] | split; [| split; [| split]]].
  - apply basic_ring_0.
  - apply basic_atten_0.
  - apply basic_contribution_spawn_centre; assumption.
  - apply gaussian_0.
  - apply enhanced_attenuation_0.
  - apply enhanced_attenuation_0.
  - apply finalWave_spawn_centre; assumption.
Qed.

(** The centre fragment of the sample frames and the click [onCentre]
    have the same normalised coordinate. *)
Lemma basic_centre_distance :
  distance (Basic.uv (Basic.frag Sample.basicScreen Sample.centre))
           (Basic.clickUV Sample.basicScreen
              (Basic.frag Sample.basicScreen Sample.centre) Sample.onCentre) = 0.
Proof.
  apply distance_zero.
  unfold Basic.clickUV, Basic.frag, Sample.basicScreen, Sample.centre,
    Sample.onCentre, Basic.PIXEL_SIZE, vmul, vdiv, vdivs, vsubs, vsub, vscale, vfloor.
  cbn [Basic.uv Basic.cellPixelSize Basic.aspectRatio Basic.uResolution vx vy].
  rewrite !floor_unit by lra.
  apply vec2_ext; cbn [vx vy]; lra.
Qed.

Lemma enhanced_centre_distance :
  distance (Enhanced.uv (Enhanced.frag Sample.enhancedScreen Sample.centre))
           (Enhanced.clickUV Sample.enhancedScreen
              (Enhanced.frag Sample.enhancedScreen Sample.centre)
              Sample.onCentre) = 0.
Proof.
  apply distance_zero.
  unfold Enhanced.clickUV, Enhanced.frag, Sample.enhancedScreen, Sample.centre,
    Sample.onCentre, Enhanced.CELL_PIXEL_SIZE,
    vmul, vdiv, vdivs, vsubs, vsub, vscale, vfloor.
  cbn [Enhanced.uv Enhanced.cellPixelSize Enhanced.aspectRatio
       Enhanced.uResolution Enhanced.uPixelSize Enhanced.withClicks
       Enhanced.withResolution Enhanced.initWith Enhanced.uniforms
       Sample.params Enhanced.defaultParams Enhanced.pixelSize vx vy].
  rewrite !floor_unit by lra.
  apply vec2_ext; cbn [vx vy]; lra.
Qed.

Lemma Rmax_0_0 : Rmax (0 - 0) 0 = 0.
Proof. rewrite Rminus_0_r. apply Rmax_idem. Qed.

Lemma spawn_centre_contribution_witness :
  Rmax (Basic.uTime Sample.basicScreen - 0) 0 = 0 /\
  Rmax (Enhanced.uTime Sample.enhancedScreen - 0) 0 = 0 /\
  Enhanced.uWaveThickness Sample.enhancedScreen <> 0 /\
  Basic.contribution Sample.basicScreen
    (Basic.frag Sample.basicScreen Sample.centre) Sample.onCentre 0 = 1 /\
  Enhanced.finalWave Sample.enhancedScreen
    (Enhanced.frag Sample.enhancedScreen Sample.centre) Sample.onCentre 0 = 0.7.
Proof.
  assert (Hthick : Enhanced.uWaveThickness Sample.enhancedScreen <> 0).
  { cbn. lra. }
  destruct (spawn_centre_contribution
              Sample.basicScreen Sample.enhancedScreen
              Sample.centre Sample.centre Sample.onCentre Sample.onCentre 0 0
              Rmax_0_0 basic_centre_distance
              Rmax_0_0 enhanced_centre_distance Hthick)
    as [(_ & _ & Hb) (_ & _ & _ & He)].
  split; [exact Rmax_0_0 |]. split; [exact Rmax_0_0 |].
  split; [exact Hthick |]. split; [exact Hb | exact He].
Defined.

(** C6 as stated fails for the elaborated variant: at the spawn instant
    and at the centre, the contribution of the ripple is 0.7, at distance
    0.3 from 1. *)
Lemma spawn_centre_counterexample :
  Rmax (Enhanced.uTime Sample.enhancedScreen - 0) 0 = 0 /\
  distance (Enhanced.uv (Enhanced.frag Sample.enhancedScreen Sample.centre))
           (Enhanced.clickUV Sample.enhancedScreen
              (Enhanced.frag Sample.enhancedScreen Sample.centre)
              Sample.onCentre) = 0 /\
  Enhanced.finalWave Sample.enhancedScreen
    (Enhanced.frag Sample.enhancedScreen Sample.centre) Sample.onCentre 0 = 0.7 /\
  Rabs (Enhanced.finalWave Sample.enhancedScreen
          (Enhanced.frag Sample.enhancedScreen Sample.centre) Sample.onCentre 0
        - 1) = 0.3.
Proof.
  pose proof (finalWave_spawn_centre Sample.enhancedScreen
                (Enhanced.frag Sample.enhancedScreen Sample.centre)
                Sample.onCentre 0 Rmax_0_0 enhanced_centre_distance) as Hw.
  split; [exact Rmax_0_0 |]. split; [exact enhanced_centre_distance |].
  split; [exact Hw |]. rewrite Hw.
  unfold Rabs. destruct (Rcase_abs (0.7 - 1)); lra.
Qed.

End SpawnCentre.

(** ** Two overlapping ripples of equal strength *)

Section Overlap.

Lemma tstar_spec :
  0 <= Sample.tstar /\
  9 * (Sample.tstar * Sample.tstar) + Sample.tstar = ln (5 / 2).
Proof.
  unfold Sample.tstar.
  assert (HL : 0 < ln (5 / 2)).
  { rewrite <- ln_1. apply ln_increasing; lra. }
  set (L := ln (5 / 2)) in *.
  assert (Hs2 : sqrt (1 + 36 * L) * sqrt (1 + 36 * L) = 1 + 36 * L).
  { apply sqrt_sqrt. lra. }
  assert (Hs1 : 1 <= sqrt (1 + 36 * L)).
  { rewrite <- sqrt_1 at 1. apply sqrt_le_1_alt. lra. }
  set (s := sqrt (1 + 36 * L)) in *.
  split; [lra |]. nra.
Qed.

Lemma twin_distance :
  distance (Basic.uv (Basic.frag Sample.twin Sample.centre))
           (Basic.clickUV Sample.twin
              (Basic.frag Sample.twin Sample.centre) Sample.onCentre) = 0.
Proof. exact basic_centre_distance. Qed.

Lemma twin_contribution :
  Basic.contribution Sample.twin (Basic.frag Sample.twin Sample.centre)
    Sample.onCentre 0 = 0.4.
Proof.
  destruct tstar_spec as [Ht0 Heq].
  unfold Basic.contribution. rewrite twin_distance.
  change (Basic.uTime Sample.twin) with Sample.tstar.
  rewrite Rminus_0_r, Rmax_left by exact Ht0.
  unfold Basic.ring, Basic.atten, pow2, Basic.speed, Basic.thickness,
    Basic.dampT, Basic.dampR.
  set (t := Sample.tstar) in *.
  rewrite <- !exp_plus.
  replace (- ((0 - 0.30 * t) / 0.10 * ((0 - 0.30 * t) / 0.10)) +
           (- (1) * t + - (1) * 0))
    with (- (9 * (t * t) + t)) by nra.
  rewrite Heq, exp_Ropp, exp_ln by lra. lra.
Qed.

Lemma twin_contributions :
  Basic.contributionsOf Sample.twin Sample.centre = [0.4; 0.4].
Proof.
  unfold Basic.contributionsOf.
  change (Basic.uClickPos Sample.twin)
    with (Sample.onCentre :: Sample.onCentre :: replicate 8 sentinel).
  change (Basic.uClickTimes Sample.twin) with (replicate 10 0).
  cbn [replicate Basic.contributions].
  rewrite !isEmpty_sentinel.
  rewrite (proj2 (isEmpty_false_iff Sample.onCentre))
    by (cbn [Sample.onCentre vx vy]; lra).
  rewrite twin_contribution. reflexivity.
Qed.

(** Two non-empty slots that each contribute 0.4 at a fragment: the
    intensity there is 0.4 and not 0.8. *)
Lemma intensity_is_max_witness :
  Basic.contributionsOf Sample.twin Sample.centre = [0.4; 0.4] /\
  Basic.feedOf Sample.twin Sample.centre = 0.4 /\
  Basic.feedOf Sample.twin Sample.centre <> 0.8.
Proof.
  destruct (intensity_is_max Sample.twin Sample.enhancedScreen Sample.centre)
    as [(_ & _ & _ & _ & Hb) _].
  split; [exact twin_contributions | exact (Hb twin_contributions)].
Defined.

End Overlap.

(** ** Decay in time *)

Section Decay.

Lemma exp_le_1 (x : R) : x <= 0 -> exp x <= 1.
Proof.
  intros [Hlt | ->]; [| rewrite exp_0; lra].
  rewrite <- exp_0. left. apply exp_increasing, Hlt.
Qed.

Lemma exp_decay_strict (k t1 t2 : R) :
  0 < k -> t1 < t2 -> exp (- k * t2) < exp (- k * t1).
Proof. intros Hk Ht. apply exp_increasing. nra. Qed.

(** [exp (- x)] is below [1 / x]. *)
Lemma exp_neg_lt_inv (x : R) : 0 < x -> exp (- x) < / x.
Proof.
  intros Hx. rewrite exp_Ropp.
  apply Rinv_lt_contravar.
  - apply Rmult_lt_0_compat; [exact Hx | apply exp_pos].
  - assert (Hne : x <> 0) by lra. pose proof (exp_ineq1 x Hne). lra.
Qed.

(** A bounded factor times [exp (- k t)] is eventually below any
    positive bound. *)
Lemma decay_below (k C eps t : R) :
  0 < k -> 0 < C -> 0 < eps -> C / (k * eps) < t ->
  C * exp (- k * t) < eps.
Proof.
  intros Hk HC Heps Ht.
  assert (Hpos : 0 < C / (k * eps)).
  { apply Rdiv_lt_0_compat; [exact HC | apply Rmult_lt_0_compat; assumption]. }
  assert (Hkt : 0 < k * t) by (apply Rmult_lt_0_compat; lra).
  replace (- k * t) with (- (k * t)) by ring.
  apply Rlt_trans with (C * / (k * t)).
  - apply Rmult_lt_compat_l; [exact HC | apply exp_neg_lt_inv, Hkt].
  - (* C / (k t) < eps, from C / (k eps) < t *)
    apply (Rmult_lt_reg_r (k * t)); [exact Hkt |].
    rewrite Rmult_assoc, Rinv_l by lra. rewrite Rmult_1_r.
    apply (Rmult_lt_compat_r (k * eps)) in Ht;
      [| apply Rmult_lt_0_compat; assumption].
    unfold Rdiv in Ht. rewrite Rmult_assoc, Rinv_l in Ht by nra.
    lra.
Qed.

Lemma basic_contribution_bound
    (u : Basic.Uniforms) (f : Basic.Frag) (pos : vec2) (t0 : R) :
  0 < Basic.contribution u f pos t0 <=
      exp (- Basic.dampT * Rmax (Basic.uTime u - t0) 0).
Proof.
  split; [apply basic_contribution_pos |].
  unfold Basic.contribution, Basic.ring, Basic.atten.
  set (r := distance (Basic.uv f) (Basic.clickUV u f pos)).
  set (t := Rmax (Basic.uTime u - t0) 0).
  set (q := (r - Basic.speed * t) / Basic.thickness).
  assert (Hr : 0 <= r) by apply distance_nonneg.
  assert (Hring : exp (- pow2 q) <= 1).
  { apply exp_le_1. unfold pow2. pose proof (Rle_0_sqr q) as Hs.
    unfold Rsqr in Hs. lra. }
  assert (Hd : exp (- Basic.dampR * r) <= 1).
  { apply exp_le_1. unfold Basic.dampR. lra. }
  pose proof (exp_pos (- pow2 q)) as Hg0.
  pose proof (exp_pos (- Basic.dampR * r)) as Hd0.
  pose proof (exp_pos (- Basic.dampT * t)) as Ht0.
  set (g := exp (- pow2 q)) in *.
  set (d := exp (- Basic.dampR * r)) in *.
  set (e := exp (- Basic.dampT * t)) in *.
  assert (Hed : e * d <= e) by nra.
  assert (Hed0 : 0 < e * d) by (apply Rmult_lt_0_compat; assumption).
  nra.
Qed.

Lemma calculateWave_le_1 (pos center : vec2) (time waveSpeed thickness : R) :
  Enhanced.calculateWave pos center time waveSpeed thickness <= 1.
Proof.
  unfold Enhanced.calculateWave.
  set (q := (distance pos center - waveSpeed * time) / thickness).
  assert (Hg : exp (- pow2 q) <= 1).
  { apply exp_le_1. unfold pow2. pose proof (Rle_0_sqr q) as Hs.
    unfold Rsqr in Hs. lra. }
  pose proof (exp_pos (- pow2 q)).
  match goal with |- context [sin ?x] => pose proof (SIN_bound x) end.
  nra.
Qed.

Lemma finalWave_bound
    (u : Enhanced.Uniforms) (f : Enhanced.Frag) (pos : vec2) (t0 : R) :
  0 < Enhanced.finalWave u f pos t0 <=
      Enhanced.distanceAttenuation u
        (distance (Enhanced.uv f) (Enhanced.clickUV u f pos)) *
      exp (- Enhanced.uTimeDecay u * Rmax (Enhanced.uTime u - t0) 0).
Proof.
  split; [apply finalWave_pos |].
  unfold Enhanced.finalWave, Enhanced.timeAttenuation.
  set (r := distance (Enhanced.uv f) (Enhanced.clickUV u f pos)).
  set (t := Rmax (Enhanced.uTime u - t0) 0).
  pose proof (calculateWave_le_1 (Enhanced.uv f) (Enhanced.clickUV u f pos) t
                (Enhanced.uWaveSpeed u) (Enhanced.uWaveThickness u)) as Hw.
  pose proof (calculateWave_pos (Enhanced.uv f) (Enhanced.clickUV u f pos) t
                (Enhanced.uWaveSpeed u) (Enhanced.uWaveThickness u)) as Hw0.
  assert (Hd : 0 < Enhanced.distanceAttenuation u r) by apply exp_pos.
  pose proof (exp_pos (- Enhanced.uTimeDecay u * t)) as He.
  set (w := Enhanced.calculateWave _ _ _ _ _) in *.
  set (d := Enhanced.distanceAttenuation u r) in *.
  set (e := exp _) in *.
  assert (0 < e * d) by (apply Rmult_lt_0_compat; assumption).
  nra.
Qed.

(** C8.  The time term of the attenuation, [exp (- rate * t)], decreases
    strictly with the time since spawn (at every time, hence also once
    the wave front has passed the sample point): in the basic variant,
    where the rate is 1, and in the elaborated variant when [uTimeDecay]
    is positive.  For a fixed record and a fixed fragment the
    contribution tends to 0 as the clock grows. *)
Theorem time_decay
    (bu : Basic.Uniforms) (eu : Enhanced.Uniforms)
    (px bpos epos : vec2) (bt0 et0 : R) :
  0 < Enhanced.uTimeDecay eu ->
  (forall r t1 t2, t1 < t2 ->
     exp (- Basic.dampT * t2) < exp (- Basic.dampT * t1) /\
     Basic.atten r t2 < Basic.atten r t1) /\
  (forall t1 t2, t1 < t2 ->
     Enhanced.timeAttenuation eu t2 < Enhanced.timeAttenuation eu t1) /\
  (forall eps, 0 < eps -> exists T, forall time, T < time ->
     Rabs (Basic.contribution (Basic.withTime bu time)
             (Basic.frag (Basic.withTime bu time) px) bpos bt0) < eps) /\
  (forall eps, 0 < eps -> exists T, forall time, T < time ->
     Rabs (Enhanced.finalWave (Enhanced.withTime eu time)
             (Enhanced.frag (Enhanced.withTime eu time) px) epos et0) < eps).
Proof.
  intros Hk. split; [| split; [| split]].
  - intros r t1 t2 Ht.
    assert (Hs : exp (- Basic.dampT * t2) < exp (- Basic.dampT * t1)).
    { apply exp_decay_strict; [unfold Basic.dampT; lra | exact Ht]. }
    split; [exact Hs |]. unfold Basic.atten.
    apply Rmult_lt_compat_r; [apply exp_pos | exact Hs].
  - intros t1 t2 Ht. unfold Enhanced.timeAttenuation.
    apply exp_decay_strict; assumption.
  - intros eps Heps. exists (bt0 + 1 / (1 * eps)). intros time Htime.
    pose proof (basic_contribution_bound (Basic.withTime bu time)
                  (Basic.frag (Basic.withTime bu time) px) bpos bt0) as [Hpos Hle].
    cbn [Basic.withTime Basic.uTime] in Hle.
    assert (Hq : 0 < 1 / (1 * eps)).
    { apply Rdiv_lt_0_compat; lra. }
    rewrite Rmax_left in Hle by lra.
    pose proof (decay_below 1 1 eps (time - bt0)) as Hd.
    rewrite Rabs_pos_eq by lra.
    eapply Rle_lt_trans; [exact Hle |].
    unfold Basic.dampT. rewrite <- (Rmult_1_l (exp _)). apply Hd; lra.
  - intros eps Heps.
    set (C := Enhanced.distanceAttenuation eu
                (distance (Enhanced.uv (Enhanced.frag eu px))
                          (Enhanced.clickUV eu (Enhanced.frag eu px) epos))).
    assert (HC : 0 < C) by apply exp_pos.
    exists (et0 + C / (Enhanced.uTimeDecay eu * eps)). intros time Htime.
    pose proof (finalWave_bound (Enhanced.withTime eu time)
                  (Enhanced.frag (Enhanced.withTime eu time) px) epos et0)
      as [Hpos Hle].
    change (Enhanced.distanceAttenuation (Enhanced.withTime eu time)
              (distance (Enhanced.uv (Enhanced.frag (Enhanced.withTime eu time) px))
                 (Enhanced.clickUV (Enhanced.withTime eu time)
                    (Enhanced.frag (Enhanced.withTime eu time) px) epos)))
      with C in Hle.
    cbn [Enhanced.withTime Enhanced.uTime Enhanced.uTimeDecay] in Hle.
    assert (Hq : 0 < C / (Enhanced.uTimeDecay eu * eps)).
    { apply Rdiv_lt_0_compat; [exact HC | apply Rmult_lt_0_compat; assumption]. }
    rewrite Rmax_left in Hle by lra.
    rewrite Rabs_pos_eq by lra.
    eapply Rle_lt_trans; [exact Hle |].
    apply decay_below; try assumption. lra.
Qed.

Lemma time_decay_witness :
  0 < Enhanced.uTimeDecay Sample.enhancedScreen /\
  Enhanced.timeAttenuation Sample.enhancedScreen 2 <
    Enhanced.timeAttenuation Sample.enhancedScreen 1 /\
  Basic.atten 0 2 < Basic.atten 0 1.
Proof.
  assert (Hk : 0 < Enhanced.uTimeDecay Sample.enhancedScreen).
  { cbn. lra. }
  destruct (time_decay Sample.basicScreen Sample.enhancedScreen
              Sample.centre Sample.onCentre Sample.onCentre 0 0 Hk)
    as (Hb & He & _).
  split; [exact Hk |]. split.
  - apply He. lra.
  - apply (Hb 0 1 2). lra.
Defined.

End Decay.

(** ** Inserted records are active *)

Section Active.

Lemma basic_contributions_In (u : Basic.Uniforms) (f : Basic.Frag) (ps : list vec2) :
  forall ts i p t,
    ps !! i = Some p -> ts !! i = Some t -> isEmpty p = false ->
    In (Basic.contribution u f p t) (Basic.contributions u f ps ts).
Proof.
  induction ps as [| q ps IH]; intros [| t1 ts] [| i] p t Hp Ht Hne;
    try discriminate; cbn [Basic.contributions].
  - injection Hp as ->. injection Ht as ->. rewrite Hne. left. reflexivity.
  - cbn in Hp, Ht. destruct (isEmpty q); [| right]; eapply IH; eassumption.
Qed.

Lemma finalWaves_In (u : Enhanced.Uniforms) (f : Enhanced.Frag) (ps : list vec2) :
  forall ts i p t,
    ps !! i = Some p -> ts !! i = Some t -> isEmpty p = false ->
    In (Enhanced.finalWave u f p t) (Enhanced.finalWaves u f ps ts).
Proof.
  induction ps as [| q ps IH]; intros [| t1 ts] [| i] p t Hp Ht Hne;
    try discriminate; cbn [Enhanced.finalWaves].
  - injection Hp as ->. injection Ht as ->. rewrite Hne. left. reflexivity.
  - cbn in Hp, Ht. destruct (isEmpty q); [| right]; eapply IH; eassumption.
Qed.

Lemma basic_addRipple_total (s : Basic.State) (x y : R) :
  Basic.wf s -> exists s', Basic.addRipple s x y = Some s'.
Proof.
  intros (Hps & _ & Hc).
  destruct (js_get_Some (Basic.uClickPos (Basic.uniforms s)) (Basic.clickIndex s))
    as [a Ha].
  { rewrite Hps. unfold Basic.MAX_CLICKS in *. lia. }
  unfold Basic.addRipple. rewrite Ha. eauto.
Qed.

Lemma js_get_insert_lt {A : Type} (l : list A) (i : Z) (x : A) :
  (0 <= i < Z.of_nat (length l))%Z -> js_get (<[Z.to_nat i := x]> l) i = Some x.
Proof.
  intros H. destruct (js_get_Some l i H) as [a Ha].
  apply (js_get_insert l i a x Ha).
Qed.

(** C9.  The empty sentinel is a position with both coordinates negative:
    that is the test of both shaders.  An insertion into a well-formed
    registry succeeds for every position, whatever the resolution: nothing
    is checked against the frame, and the slot under the cursor then
    holds that position with the clock reading.  If the position is not
    an empty sentinel (at least one coordinate is not negative, the other
    may be), then at every later clock reading and every fragment the
    loop does not skip the slot: the record's contribution is among those
    combined, and bounds the intensity from below. *)
Theorem nonempty_insert_is_active
    (b : Basic.State) (e : Enhanced.State) (x y : R) :
  Basic.wf b -> Enhanced.wf e ->
  (exists b', Basic.addRipple b x y = Some b' /\
     js_get (Basic.uClickPos (Basic.uniforms b')) (Basic.clickIndex b)
       = Some (Vec2 x y) /\
     js_get (Basic.uClickTimes (Basic.uniforms b')) (Basic.clickIndex b)
       = Some (Basic.uTime (Basic.uniforms b)) /\
     (isEmpty (Vec2 x y) = false ->
      forall time px,
       In (Basic.contribution (Basic.withTime (Basic.uniforms b') time)
             (Basic.frag (Basic.withTime (Basic.uniforms b') time) px)
             (Vec2 x y) (Basic.uTime (Basic.uniforms b)))
          (Basic.contributionsOf (Basic.withTime (Basic.uniforms b') time) px) /\
       Basic.contribution (Basic.withTime (Basic.uniforms b') time)
             (Basic.frag (Basic.withTime (Basic.uniforms b') time) px)
             (Vec2 x y) (Basic.uTime (Basic.uniforms b))
         <= Basic.feedOf (Basic.withTime (Basic.uniforms b') time) px)) /\
  (exists e', Enhanced.addRipple e x y = Some e' /\
     js_get (Enhanced.uClickPos (Enhanced.uniforms e')) (Enhanced.clickIndex e)
       = Some (Vec2 x y) /\
     js_get (Enhanced.uClickTimes (Enhanced.uniforms e')) (Enhanced.clickIndex e)
       = Some (Enhanced.uTime (Enhanced.uniforms e)) /\
     (isEmpty (Vec2 x y) = false ->
      forall time px,
       In (Enhanced.finalWave (Enhanced.withTime (Enhanced.uniforms e') time)
             (Enhanced.frag (Enhanced.withTime (Enhanced.uniforms e') time) px)
             (Vec2 x y) (Enhanced.uTime (Enhanced.uniforms e)))
          (Enhanced.finalWavesOf (Enhanced.withTime (Enhanced.uniforms e') time) px) /\
       Enhanced.finalWave (Enhanced.withTime (Enhanced.uniforms e') time)
             (Enhanced.frag (Enhanced.withTime (Enhanced.uniforms e') time) px)
             (Vec2 x y) (Enhanced.uTime (Enhanced.uniforms e))
         <= Enhanced.totalWave (Enhanced.withTime (Enhanced.uniforms e') time) px)).
Proof.
  intros Hb He. split.
  - destruct (basic_addRipple_total b x y Hb) as (b' & Hb').
    exists b'. split; [exact Hb' |].
    rewrite (basic_addRipple_Some _ _ _ _ Hb').
    destruct Hb as (Hps & Hts & Hc). unfold Basic.MAX_CLICKS in *.
    basic_fields.
    assert (Hp : js_get (<[Z.to_nat (Basic.clickIndex b) := Vec2 x y]>
                           (Basic.uClickPos (Basic.uniforms b)))
                        (Basic.clickIndex b) = Some (Vec2 x y)).
    { apply js_get_insert_lt. lia. }
    assert (Ht : js_get (<[Z.to_nat (Basic.clickIndex b) := Basic.uTime (Basic.uniforms b)]>
                           (Basic.uClickTimes (Basic.uniforms b)))
                        (Basic.clickIndex b) = Some (Basic.uTime (Basic.uniforms b))).
    { apply js_get_insert_lt. lia. }
    split; [exact Hp |]. split; [exact Ht |].
    intros Hxy time px.
    apply js_get_Some_lt in Hp as [_ Hp]. apply js_get_Some_lt in Ht as [_ Ht].
    match goal with |- In ?c ?l /\ _ => assert (Hin : In c l) end.
    { unfold Basic.contributionsOf.
      basic_fields.
      eapply basic_contributions_In; eassumption. }
    split; [exact Hin |].
    rewrite basic_feed_fold. apply foldl_Rmax_upper, Hin.
  - destruct (addRipple_total e x y He) as (e' & He' & _).
    exists e'. split; [exact He' |].
    rewrite (enhanced_addRipple_Some _ _ _ _ He').
    destruct He as (Hps & Hts & Hc). unfold Enhanced.MAX_CLICKS in *.
    enhanced_fields.
    assert (Hp : js_get (<[Z.to_nat (Enhanced.clickIndex e) := Vec2 x y]>
                           (Enhanced.uClickPos (Enhanced.uniforms e)))
                        (Enhanced.clickIndex e) = Some (Vec2 x y)).
    { apply js_get_insert_lt. lia. }
    assert (Ht : js_get (<[Z.to_nat (Enhanced.clickIndex e) := Enhanced.uTime (Enhanced.uniforms e)]>
                           (Enhanced.uClickTimes (Enhanced.uniforms e)))
                        (Enhanced.clickIndex e) = Some (Enhanced.uTime (Enhanced.uniforms e))).
    { apply js_get_insert_lt. lia. }
    split; [exact Hp |]. split; [exact Ht |].
    intros Hxy time px.
    apply js_get_Some_lt in Hp as [_ Hp]. apply js_get_Some_lt in Ht as [_ Ht].
    match goal with |- In ?c ?l /\ _ => assert (Hin : In c l) end.
    { unfold Enhanced.finalWavesOf.
      enhanced_fields.
      eapply finalWaves_In; eassumption. }
    split; [exact Hin |].
    unfold Enhanced.totalWave. rewrite enhanced_waves_fold. cbn [fst].
    apply foldl_Rmax_upper, Hin.
Qed.

Lemma basic_wf_init : Basic.wf (Basic.resize Basic.init 800 600).
Proof. repeat split; unfold Basic.MAX_CLICKS; cbn [Basic.clickIndex Basic.resize Basic.init]; lia. Qed.

(** A click left of and above an 800 x 600 frame: one coordinate is
    negative, the other beyond the frame.  It is stored and, not being an
    empty sentinel, it is one of the contributions at the centre fragment
    ten seconds later. *)
Lemma nonempty_insert_is_active_witness :
  Basic.wf (Basic.resize Basic.init 800 600) /\
  Enhanced.wf (Enhanced.resize (Enhanced.initWith Sample.params) 800 600) /\
  isEmpty (Vec2 (-5) 700) = false /\
  (exists b', Basic.addRipple (Basic.resize Basic.init 800 600) (-5) 700 = Some b' /\
     js_get (Basic.uClickPos (Basic.uniforms b')) 0 = Some (Vec2 (-5) 700) /\
     Basic.contribution (Basic.withTime (Basic.uniforms b') 10)
       (Basic.frag (Basic.withTime (Basic.uniforms b') 10) Sample.centre)
       (Vec2 (-5) 700) 0
     <= Basic.feedOf (Basic.withTime (Basic.uniforms b') 10) Sample.centre) /\
  (exists e', Enhanced.addRipple
                (Enhanced.resize (Enhanced.initWith Sample.params) 800 600)
                (-5) 700 = Some e' /\
     js_get (Enhanced.uClickPos (Enhanced.uniforms e')) 0 = Some (Vec2 (-5) 700) /\
     Enhanced.finalWave (Enhanced.withTime (Enhanced.uniforms e') 10)
       (Enhanced.frag (Enhanced.withTime (Enhanced.uniforms e') 10) Sample.centre)
       (Vec2 (-5) 700) 0
     <= Enhanced.totalWave (Enhanced.withTime (Enhanced.uniforms e') 10)
          Sample.centre).
Proof.
  assert (Hb : Basic.wf (Basic.resize Basic.init 800 600)) by exact basic_wf_init.
  assert (He : Enhanced.wf (Enhanced.resize (Enhanced.initWith Sample.params) 800 600))
    by exact (wf_init Sample.params).
  assert (Hxy : isEmpty (Vec2 (-5) 700) = false).
  { apply isEmpty_false_iff. cbn [vx vy]. lra. }
  destruct (nonempty_insert_is_active _ _ (-5) 700 Hb He)
    as [(b' & Hb' & Hbp & _ & Hba) (e' & He' & Hep & _ & Hea)].
  split; [exact Hb |]. split; [exact He |]. split; [exact Hxy |].
  split; [exists b' | exists e']; (split; [assumption |]); (split; [assumption |]).
  - exact (proj2 (Hba Hxy 10 Sample.centre)).
  - exact (proj2 (Hea Hxy 10 Sample.centre)).
Defined.

(** A position with both coordinates negative is stored like any other,
    but it is an empty sentinel for the shader, whatever its values: a
    click at [(-5, -5)] is skipped at every clock reading and every
    fragment. *)
Lemma both_negative_is_skipped :
  Basic.addRipple (Basic.resize Basic.init 800 600) (-5) (-5)
    = Some Sample.belowLeft /\
  js_get (Basic.uClickPos (Basic.uniforms Sample.belowLeft)) 0
    = Some (Vec2 (-5) (-5)) /\
  isEmpty (Vec2 (-5) (-5)) = true /\
  (forall time px,
     Basic.contributionsOf
       (Basic.withTime (Basic.uniforms Sample.belowLeft) time) px = [] /\
     Basic.feedOf
       (Basic.withTime (Basic.uniforms Sample.belowLeft) time) px = 0).
Proof.
  assert (Hneg : isEmpty (Vec2 (-5) (-5)) = true).
  { apply isEmpty_true_iff. cbn [vx vy]. lra. }
  split; [reflexivity |]. split; [reflexivity |].
  split; [exact Hneg |].
  intros time px.
  assert (Hcs : Basic.contributionsOf
                  (Basic.withTime (Basic.uniforms Sample.belowLeft) time) px = []).
  { unfold Basic.contributionsOf.
    cbn [Basic.withTime Basic.uniforms Sample.belowLeft Basic.uClickPos
         Basic.uClickTimes replicate Basic.contributions].
    rewrite Hneg, !isEmpty_sentinel. reflexivity. }
  split; [exact Hcs |]. rewrite basic_feed_fold, Hcs. reflexivity.
Qed.

End Active.

(** ** The cleared registry *)

Section Cleared.











(** *** A fragment of the cleared page that is not background *)








Lemma smoothstep_range (e0 e1 x : R) : 0 <= smoothstep e0 e1 x <= 1.
Proof.
  unfold smoothstep, clamp.
  set (t := Rmin (Rmax ((x - e0) / (e1 - e0)) 0) 1).
  assert (Ht : 0 <= t <= 1).
  { unfold t. split; [| apply Rmin_r].
    apply Rmin_glb; [apply Rmax_r | lra]. }
  split.
  - apply Rmult_le_pos; [apply Rmult_le_pos |]; lra.
  - assert (Hc : 0 <= (1 - t) * (1 - t) * (1 + 2 * t)).
    { apply Rmult_le_pos; [apply Rmult_le_pos |]; lra. }
    replace (t * t * (3 - 2 * t))
      with (1 - (1 - t) * (1 - t) * (1 + 2 * t)) by ring.
    lra.
Qed.







End Cleared.

(** * Further properties

    The listeners around the controllers, the registry over arbitrary
    click sequences, and the rest of the two shaders. *)

(** ** From the pointer to the framebuffer *)

Section PointerToFramebuffer.

Lemma scale_within (a w W : R) :
  0 < w -> 0 <= W -> 0 <= a <= w -> 0 <= a * W / w <= W.
Proof.
  intros Hw HW [Ha0 Ha1]. unfold Rdiv.
  assert (Hq : 0 < / w) by (apply Rinv_0_lt_compat; exact Hw).
  assert (Hwq : w * / w = 1) by (apply Rinv_r; lra).
  split.
  - apply Rmult_le_pos; [apply Rmult_le_pos; assumption | lra].
  - replace W with (w * W * / w) at 2 by (rewrite (Rmult_comm w W), Rmult_assoc, Hwq; ring).
    apply Rmult_le_compat_r; [lra |].
    apply Rmult_le_compat_r; assumption.
Qed.

Lemma toFramebuffer_inside (c : Dom.Canvas) (clientX clientY : R) :
  Dom.laidOut c -> Dom.over c clientX clientY ->
  0 <= vx (Dom.toFramebuffer c clientX clientY) <= Dom.bufferWidth c /\
  0 <= vy (Dom.toFramebuffer c clientX clientY) <= Dom.bufferHeight c /\
  isEmpty (Dom.toFramebuffer c clientX clientY) = false.
Proof.
  intros (Hw & Hh & HW & HH) ([Hx0 Hx1] & [Hy0 Hy1]).
  assert (Hx : 0 <= vx (Dom.toFramebuffer c clientX clientY) <= Dom.bufferWidth c).
  { cbn [Dom.toFramebuffer vx]. apply scale_within; try assumption. lra. }
  assert (Hy : 0 <= vy (Dom.toFramebuffer c clientX clientY) <= Dom.bufferHeight c).
  { cbn [Dom.toFramebuffer vy]. apply scale_within; try assumption. lra. }
  split; [exact Hx |]. split; [exact Hy |].
  apply isEmpty_false_iff. left. apply Hx.
Qed.


End PointerToFramebuffer.



(** ** Spawn times as the typed array holds them *)

Section StoredTimes.

Lemma nearestEven_cases (y : R) :
  (Float32.nearestEven y = Int_part y /\ y - IZR (Int_part y) <= 0.5) \/
  (Float32.nearestEven y = (Int_part y + 1)%Z /\ 0.5 <= y - IZR (Int_part y)).
Proof.
  unfold Float32.nearestEven.
  destruct (Rlt_dec (y - IZR (Int_part y)) 0.5) as [Hlt | Hge].
  - rewrite ltb_true by exact Hlt. left. split; [reflexivity | lra].
  - rewrite ltb_false by lra.
    destruct (Rlt_dec 0.5 (y - IZR (Int_part y))) as [Hgt | Hle].
    + rewrite ltb_true by exact Hgt. right. split; [reflexivity | lra].
    + rewrite ltb_false by lra.
      destruct (Z.even (Int_part y)); [left | right]; split;
        try reflexivity; lra.
Qed.

Lemma nearestEven_IZR (n : Z) : Float32.nearestEven (IZR n) = n.
Proof.
  unfold Float32.nearestEven.
  replace (Int_part (IZR n)) with n by (apply Int_part_spec; lra).
  rewrite ltb_true by lra. reflexivity.
Qed.

Lemma Int_part_le (y1 y2 : R) : y1 <= y2 -> (Int_part y1 <= Int_part y2)%Z.
Proof.
  intros H.
  destruct (base_Int_part y1) as [L1 U1]. destruct (base_Int_part y2) as [L2 U2].
  assert (Hlt : (Int_part y1 < Int_part y2 + 1)%Z).
  { apply lt_IZR. rewrite plus_IZR. lra. }
  lia.
Qed.

(** Rounding to the nearest integer keeps the order. *)
Lemma nearestEven_mono (y1 y2 : R) :
  y1 <= y2 -> (Float32.nearestEven y1 <= Float32.nearestEven y2)%Z.
Proof.
  intros H.
  pose proof (Int_part_le y1 y2 H) as Hn.
  destruct (Z.eq_dec (Int_part y1) (Int_part y2)) as [Heq | Hne].
  - unfold Float32.nearestEven. rewrite Heq.
    set (n := Int_part y2).
    assert (Hf : y1 - IZR n <= y2 - IZR n) by lra.
    destruct (Rlt_dec (y2 - IZR n) 0.5) as [H2 | H2].
    + rewrite (ltb_true (y1 - IZR n)) by lra.
      rewrite (ltb_true (y2 - IZR n)) by exact H2. lia.
    + rewrite (ltb_false (y2 - IZR n)) by lra.
      destruct (Rlt_dec 0.5 (y2 - IZR n)) as [H2' | H2'].
      * rewrite (ltb_true 0.5 (y2 - IZR n)) by exact H2'.
        destruct (ltb (y1 - IZR n) 0.5); [lia |].
        destruct (ltb 0.5 (y1 - IZR n)); [lia |].
        destruct (Z.even n); lia.
      * rewrite (ltb_false 0.5 (y2 - IZR n)) by lra.
        rewrite (ltb_false 0.5 (y1 - IZR n)) by lra.
        destruct (ltb (y1 - IZR n) 0.5); destruct (Z.even n); lia.
  - assert (Hlt : (Int_part y1 + 1 <= Int_part y2)%Z) by lia.
    destruct (nearestEven_cases y1) as [[-> _] | [-> _]];
      destruct (nearestEven_cases y2) as [[-> _] | [-> _]]; lia.
Qed.

Lemma powerRZ_2_pos (z : Z) : 0 < powerRZ 2 z.
Proof. apply powerRZ_lt. lra. Qed.

Lemma powerRZ_2_ge_1 (d : Z) : (0 <= d)%Z -> 1 <= powerRZ 2 d.
Proof.
  intros Hd. destruct d as [| p | p]; cbn [powerRZ]; [lra | | lia].
  apply pow_R1_Rle. lra.
Qed.

Lemma powerRZ_2_le (a b : Z) : (a <= b)%Z -> powerRZ 2 a <= powerRZ 2 b.
Proof.
  intros H. replace b with (a + (b - a))%Z by lia.
  rewrite powerRZ_add by lra.
  pose proof (powerRZ_2_pos a). pose proof (powerRZ_2_ge_1 (b - a) ltac:(lia)).
  nra.
Qed.

Lemma ln_2_pos : 0 < ln 2.
Proof. rewrite <- ln_1. apply ln_increasing; lra. Qed.

(** [2 ^ z <= x] exactly when [z <= log2 x]. *)
Lemma powerRZ_2_le_iff (z : Z) (x : R) :
  0 < x -> (powerRZ 2 z <= x <-> IZR z <= ln x / ln 2).
Proof.
  intros Hx. pose proof ln_2_pos as H2.
  rewrite powerRZ_Rpower by lra. unfold Rpower.
  assert (Hq : ln x = ln x / ln 2 * ln 2) by (field; lra).
  split; intros H.
  - assert (Hl : IZR z * ln 2 <= ln x).
    { destruct (Rle_lt_dec (IZR z * ln 2) (ln x)) as [Hle | Hgt]; [exact Hle |].
      apply exp_increasing in Hgt. rewrite exp_ln in Hgt by exact Hx. lra. }
    apply (Rmult_le_reg_r (ln 2)); [exact H2 | lra].
  - assert (Hl : IZR z * ln 2 <= ln x).
    { rewrite Hq. apply Rmult_le_compat_r; lra. }
    destruct Hl as [Hlt | Heq].
    + apply exp_increasing in Hlt. rewrite exp_ln in Hlt by exact Hx. lra.
    + rewrite Heq, exp_ln by exact Hx. lra.
Qed.

(** A positive number is below the top of its binade, and at or above
    its bottom unless it is subnormal. *)
Lemma exponent_spec (x : R) :
  0 < x ->
  x < powerRZ 2 (Float32.exponent x + 1) /\
  ((-126 < Float32.exponent x)%Z -> powerRZ 2 (Float32.exponent x) <= x).
Proof.
  intros Hx. unfold Float32.exponent. rewrite (Rabs_right x) by lra.
  set (l := ln x / ln 2).
  destruct (base_Int_part l) as [Hl Hu].
  split.
  - destruct (Rle_lt_dec (powerRZ 2 (Z.max (Int_part l) (-126) + 1)) x)
      as [Hle | Hlt]; [| exact Hlt].
    apply powerRZ_2_le_iff in Hle; [| exact Hx]. fold l in Hle.
    assert (Hm : IZR (Int_part l + 1) <= IZR (Z.max (Int_part l) (-126) + 1)).
    { apply IZR_le. lia. }
    rewrite plus_IZR in Hm. lra.
  - intros Hsub. replace (Z.max (Int_part l) (-126)) with (Int_part l) by lia.
    apply powerRZ_2_le_iff; [exact Hx | exact Hl].
Qed.

Lemma exponent_mono (x y : R) :
  0 < x -> x <= y -> (Float32.exponent x <= Float32.exponent y)%Z.
Proof.
  intros Hx Hxy. unfold Float32.exponent.
  rewrite !Rabs_right by lra.
  assert (Hln : ln x <= ln y).
  { destruct Hxy as [Hlt | ->]; [left; apply ln_increasing; assumption | lra]. }
  pose proof ln_2_pos as H2.
  assert (Hq : ln x / ln 2 <= ln y / ln 2).
  { unfold Rdiv. apply Rmult_le_compat_r; [| exact Hln].
    left. apply Rinv_0_lt_compat, H2. }
  pose proof (Int_part_le _ _ Hq). lia.
Qed.

Lemma ulp_pos (x : R) : 0 < Float32.ulp x.
Proof. apply powerRZ_2_pos. Qed.

Lemma fround_0 : Float32.fround 0 = 0.
Proof.
  unfold Float32.fround. unfold Rdiv. rewrite Rmult_0_l.
  rewrite (nearestEven_IZR 0). lra.
Qed.

Lemma fround_nonneg (x : R) : 0 <= x -> 0 <= Float32.fround x.
Proof.
  intros Hx. unfold Float32.fround. pose proof (ulp_pos x) as Hu.
  apply Rmult_le_pos; [| lra].
  apply IZR_le. rewrite <- (nearestEven_IZR 0).
  apply nearestEven_mono. apply Rmult_le_pos; [exact Hx |].
  left. apply Rinv_0_lt_compat, Hu.
Qed.

(** A positive number rounds to a number of its binade, the top
    included. *)
Lemma fround_binade (x : R) :
  0 < x ->
  Float32.fround x <= powerRZ 2 (Float32.exponent x + 1) /\
  ((-126 < Float32.exponent x)%Z ->
   powerRZ 2 (Float32.exponent x) <= Float32.fround x).
Proof.
  intros Hx. destruct (exponent_spec x Hx) as [Htop Hbot].
  unfold Float32.fround, Float32.ulp in *.
  set (e := Float32.exponent x) in *.
  pose proof (powerRZ_2_pos (e - 23)) as Hu.
  assert (Hinv : 0 < / powerRZ 2 (e - 23)) by (apply Rinv_0_lt_compat, Hu).
  assert (Hcancel : powerRZ 2 (e - 23) * / powerRZ 2 (e - 23) = 1)
    by (apply Rinv_r; lra).
  split.
  - assert (H24 : powerRZ 2 (e + 1) = IZR (2 ^ 24) * powerRZ 2 (e - 23)).
    { replace (e + 1)%Z with (24 + (e - 23))%Z by lia.
      rewrite powerRZ_add by lra. f_equal.
      change (2 ^ 24)%Z with 16777216%Z.
      change 24%Z with (Z.of_nat 24). rewrite <- pow_powerRZ. simpl. lra. }
    rewrite H24. apply Rmult_le_compat_r; [lra |].
    apply IZR_le. rewrite <- (nearestEven_IZR (2 ^ 24)).
    apply nearestEven_mono.
    apply (Rmult_le_reg_r (powerRZ 2 (e - 23))); [exact Hu |].
    unfold Rdiv. rewrite Rmult_assoc, (Rmult_comm (/ _)), Hcancel. lra.
  - intros Hsub. specialize (Hbot Hsub).
    assert (H23 : powerRZ 2 e = IZR (2 ^ 23) * powerRZ 2 (e - 23)).
    { replace e with (23 + (e - 23))%Z at 1 by lia.
      rewrite powerRZ_add by lra. f_equal.
      change (2 ^ 23)%Z with 8388608%Z.
      change 23%Z with (Z.of_nat 23) at 1. rewrite <- pow_powerRZ. simpl. lra. }
    rewrite H23. apply Rmult_le_compat_r; [lra |].
    apply IZR_le. rewrite <- (nearestEven_IZR (2 ^ 23)).
    apply nearestEven_mono.
    apply (Rmult_le_reg_r (powerRZ 2 (e - 23))); [exact Hu |].
    unfold Rdiv. rewrite Rmult_assoc, (Rmult_comm (/ _)), Hcancel. lra.
Qed.

(** Rounding to binary32 keeps the order of clock readings. *)
Lemma fround_mono (x y : R) :
  0 <= x -> x <= y -> Float32.fround x <= Float32.fround y.
Proof.
  intros H0 Hxy.
  destruct H0 as [Hx | <-];
    [| rewrite fround_0; apply fround_nonneg; exact Hxy].
  pose proof (exponent_mono x y Hx Hxy) as He.
  destruct (Z.eq_dec (Float32.exponent x) (Float32.exponent y)) as [Heq | Hne].
  - unfold Float32.fround, Float32.ulp. rewrite Heq.
    pose proof (powerRZ_2_pos (Float32.exponent y - 23)) as Hu.
    apply Rmult_le_compat_r; [lra |].
    apply IZR_le, nearestEven_mono.
    unfold Rdiv. apply Rmult_le_compat_r; [| exact Hxy].
    left. apply Rinv_0_lt_compat, Hu.
  - destruct (fround_binade x Hx) as [Htop _].
    destruct (fround_binade y ltac:(lra)) as [_ Hbot].
    assert (Hex : (-126 <= Float32.exponent x)%Z)
      by (unfold Float32.exponent; lia).
    specialize (Hbot ltac:(lia)).
    pose proof (powerRZ_2_le (Float32.exponent x + 1) (Float32.exponent y)
                  ltac:(lia)).
    lra.
Qed.

(** The clock reading 0.1 is not a binary32 number: the array holds the
    next one above it, 13421773 / 2 ^ 27 (about 0.10000000149). *)
Lemma fround_tenth :
  Float32.fround 0.1 = 13421773 / 134217728 /\ 0.1 < Float32.fround 0.1.
Proof.
  assert (He : Float32.exponent 0.1 = (-4)%Z).
  { unfold Float32.exponent. rewrite (Rabs_right 0.1) by lra.
    assert (Hi : Int_part (ln 0.1 / ln 2) = (-4)%Z).
    { symmetry. apply Int_part_spec.
      assert (Hlo : IZR (-4) <= ln 0.1 / ln 2).
      { apply powerRZ_2_le_iff; [lra |]. cbn [powerRZ]. simpl. lra. }
      assert (Hhi : ln 0.1 / ln 2 < IZR (-3)).
      { destruct (Rle_lt_dec (IZR (-3)) (ln 0.1 / ln 2)) as [Hle | Hlt];
          [| exact Hlt].
        apply powerRZ_2_le_iff in Hle; [| lra].
        cbn [powerRZ] in Hle. simpl in Hle. lra. }
      lra. }
    rewrite Hi. reflexivity. }
  assert (Hu : Float32.ulp 0.1 = / 134217728).
  { unfold Float32.ulp. rewrite He. change (-4 - 23)%Z with (-27)%Z.
    cbn [powerRZ]. f_equal. simpl. lra. }
  assert (Hr : Float32.fround 0.1 = 13421773 / 134217728).
  { unfold Float32.fround. rewrite Hu.
    replace (0.1 / / 134217728) with 13421772.8 by lra.
    assert (Hn : Float32.nearestEven 13421772.8 = 13421773%Z).
    { unfold Float32.nearestEven.
      replace (Int_part 13421772.8) with 13421772%Z
        by (apply Int_part_spec; lra).
      rewrite ltb_false by lra. rewrite ltb_true by lra. reflexivity. }
    rewrite Hn. lra. }
  split; [exact Hr | rewrite Hr; lra].
Qed.

End StoredTimes.

(** ** The basic page over any sequence of events *)

Section BasicEvents.

Lemma basic_wf_addRipple (s s' : Basic.State) (x y : R) :
  Basic.wf s -> Basic.addRipple s x y = Some s' -> Basic.wf s'.
Proof.
  intros (Hps & Hts & Hc) Hs'. rewrite (basic_addRipple_Some _ _ _ _ Hs').
  unfold Basic.wf. basic_fields. rewrite !length_insert.
  pose proof (Z.rem_bound_pos (Basic.clickIndex s + 1) Basic.MAX_CLICKS) as Hrem.
  unfold Basic.MAX_CLICKS in *. repeat split; lia.
Qed.

Lemma basic_handle_wf (s : Basic.State) (ev : BasicPage.Event) :
  Basic.wf s -> exists s', BasicPage.handle s ev = Some s' /\ Basic.wf s'.
Proof.
  intros Hwf. destruct ev as [c x y | w h | t |]; cbn [BasicPage.handle].
  - unfold BasicPage.pointerdown.
    destruct (basic_addRipple_total s
                (vx (Dom.toFramebuffer c x y)) (vy (Dom.toFramebuffer c x y)) Hwf)
      as (s' & Hs').
    exists s'. split; [exact Hs' | eapply basic_wf_addRipple; eassumption].
  - eexists. split; [reflexivity | exact Hwf].
  - eexists. split; [reflexivity | exact Hwf].
  - eexists. split; [reflexivity |].
    destruct Hwf as (Hps & Hts & Hc). unfold Basic.wf, Basic.clearRipples.
    basic_fields. rewrite !length_fmap. auto.
Qed.

Lemma basic_init_wf : Basic.wf Basic.init.
Proof.
  unfold Basic.wf, Basic.init, Basic.MAX_CLICKS. basic_fields.
  rewrite !length_replicate. repeat split; lia.
Qed.

Lemma basic_handleAll_wf (evs : list BasicPage.Event) :
  forall s, Basic.wf s ->
    exists s', BasicPage.handleAll s evs = Some s' /\ Basic.wf s'.
Proof.
  induction evs as [| ev evs IH]; intros s Hwf; cbn [BasicPage.handleAll].
  - exists s. auto.
  - destruct (basic_handle_wf s ev Hwf) as (s1 & Hs1 & Hwf1).
    rewrite Hs1. apply IH, Hwf1.
Qed.

(** X2.  From the initial state, no sequence of pointer, resize, frame
    and clear events makes the basic controller fail: [addRipple] always
    finds the [Vector2] under the cursor, both arrays keep their ten
    entries, and the cursor stays in [0, 10). *)
Theorem basic_events_never_fail (evs : list BasicPage.Event) :
  exists s', BasicPage.handleAll Basic.init evs = Some s' /\
             length (Basic.uClickPos (Basic.uniforms s')) = 10%nat /\
             length (Basic.uClickTimes (Basic.uniforms s')) = 10%nat /\
             (0 <= Basic.clickIndex s' < 10)%Z.
Proof.
  destruct (basic_handleAll_wf evs Basic.init basic_init_wf)
    as (s' & Hs' & Hwf).
  exists s'. split; [exact Hs' | exact Hwf].
Qed.

(** Every spawn time is a clock reading of the past. *)
Lemma basic_handle_past (s s' : Basic.State) (ev : BasicPage.Event) (t : R) :
  BasicPage.handle s ev = Some s' ->
  0 <= Basic.uTime (Basic.uniforms s) ->
  Forall (fun t0 => 0 <= t0 <= Basic.uTime (Basic.uniforms s))
         (Basic.uClickTimes (Basic.uniforms s)) ->
  BasicPage.clockMonotone (Basic.uTime (Basic.uniforms s)) [ev] ->
  0 <= Basic.uTime (Basic.uniforms s') /\
  Forall (fun t0 => 0 <= t0 <= Basic.uTime (Basic.uniforms s'))
         (Basic.uClickTimes (Basic.uniforms s')).
Proof.
  intros Hs' H0 Hall Hmono.
  destruct ev as [c x y | w h | t' |]; cbn [BasicPage.handle] in Hs'.
  - unfold BasicPage.pointerdown in Hs'.
    rewrite (basic_addRipple_Some _ _ _ _ Hs'). basic_fields.
    split; [exact H0 |]. apply Forall_insert; [exact Hall | lra].
  - injection Hs' as <-. unfold Basic.resize. basic_fields. auto.
  - injection Hs' as <-. unfold Basic.animate. basic_fields.
    cbn [BasicPage.clockMonotone] in Hmono. destruct Hmono as [Hle _].
    split; [lra |].
    eapply Forall_impl; [exact Hall |]. cbn. intros t0 Ht0. lra.
  - injection Hs' as <-. unfold Basic.clearRipples. basic_fields.
    split; [exact H0 |]. apply Forall_fmap, Forall_true. intros t0. cbn. lra.
Qed.

Lemma clockMonotone_cons (t : R) (ev : BasicPage.Event) (evs : list BasicPage.Event) :
  BasicPage.clockMonotone t (ev :: evs) ->
  BasicPage.clockMonotone t [ev] /\
  forall s s', BasicPage.handle s ev = Some s' ->
               Basic.uTime (Basic.uniforms s) = t ->
               BasicPage.clockMonotone (Basic.uTime (Basic.uniforms s')) evs.
Proof.
  destruct ev as [c x y | w h | t' |]; cbn [BasicPage.clockMonotone BasicPage.handle].
  - intros H. split; [exact I |]. intros s s' Hs' <-.
    unfold BasicPage.pointerdown in Hs'.
    rewrite (basic_addRipple_Some _ _ _ _ Hs'). exact H.
  - intros H. split; [exact I |]. intros s s' [= <-] <-. exact H.
  - intros [Hle H]. split; [auto |]. intros s s' [= <-] _. exact H.
  - intros H. split; [exact I |]. intros s s' [= <-] <-. exact H.
Qed.

(** The numbers written into [uClickTimes] are clock readings of the
    past. *)
Lemma basic_written_past (evs : list BasicPage.Event) :
  forall s s',
    BasicPage.handleAll s evs = Some s' ->
    0 <= Basic.uTime (Basic.uniforms s) ->
    Forall (fun t0 => 0 <= t0 <= Basic.uTime (Basic.uniforms s))
           (Basic.uClickTimes (Basic.uniforms s)) ->
    BasicPage.clockMonotone (Basic.uTime (Basic.uniforms s)) evs ->
    Forall (fun t0 => 0 <= t0 <= Basic.uTime (Basic.uniforms s'))
           (Basic.uClickTimes (Basic.uniforms s')).
Proof.
  induction evs as [| ev evs IH]; intros s s' Hrun H0 Hall Hm;
    cbn [BasicPage.handleAll] in Hrun.
  - injection Hrun as <-. exact Hall.
  - destruct (BasicPage.handle s ev) as [s1 |] eqn:Hs1; [| discriminate].
    destruct (clockMonotone_cons _ _ _ Hm) as [Hm1 Hm2].
    destruct (basic_handle_past s s1 ev 0 Hs1 H0 Hall Hm1) as [H1 Hall1].
    apply (IH s1 s' Hrun H1 Hall1). apply (Hm2 s s1 Hs1 eq_refl).
Qed.

(** X3.  While the clock readings of the frames never go back, every
    spawn time that the [Float32Array] holds lies between 0 and the
    binary32 value of the current clock reading, which is the [uTime] the
    shader is given: no slot is spawned in the shader's future, and the
    lower bound in [max(uTime - uClickTimes[i], 0.0)] is never the one
    taken.  (The held value may exceed the clock reading itself, as at
    reading 0.1.) *)
Theorem spawn_times_in_the_past (evs : list BasicPage.Event) :
  BasicPage.clockMonotone 0 evs ->
  exists s', BasicPage.handleAll Basic.init evs = Some s' /\
             Forall (fun t0 =>
                       0 <= t0 <= Float32.fround (Basic.uTime (Basic.uniforms s')) /\
                       Rmax (Float32.fround (Basic.uTime (Basic.uniforms s')) - t0) 0
                         = Float32.fround (Basic.uTime (Basic.uniforms s')) - t0)
                    (Float32.held (Basic.uClickTimes (Basic.uniforms s'))).
Proof.
  intros Hmono.
  destruct (basic_handleAll_wf evs Basic.init basic_init_wf) as (s' & Hs' & _).
  exists s'. split; [exact Hs' |].
  unfold Float32.held. apply Forall_fmap.
  eapply Forall_impl.
  - apply (basic_written_past evs Basic.init s' Hs').
    + cbn [Basic.init Basic.uniforms Basic.uTime]. lra.
    + cbn [Basic.init Basic.uniforms Basic.uTime Basic.uClickTimes].
      apply Forall_replicate. lra.
    + exact Hmono.
  - cbn. intros t0 [Ht0 Hle].
    pose proof (fround_nonneg t0 Ht0) as Hlo.
    pose proof (fround_mono t0 _ Ht0 Hle) as Hhi.
    split; [split; assumption |]. apply Rmax_left. lra.
Qed.

End BasicEvents.

Lemma spawn_times_in_the_past_witness :
  BasicPage.clockMonotone 0 Sample.basicSession /\
  exists s', BasicPage.handleAll Basic.init Sample.basicSession = Some s' /\
             Forall (fun t0 =>
                       0 <= t0 <= Float32.fround (Basic.uTime (Basic.uniforms s')) /\
                       Rmax (Float32.fround (Basic.uTime (Basic.uniforms s')) - t0) 0
                         = Float32.fround (Basic.uTime (Basic.uniforms s')) - t0)
                    (Float32.held (Basic.uClickTimes (Basic.uniforms s'))).
Proof.
  assert (Hmono : BasicPage.clockMonotone 0 Sample.basicSession).
  { unfold Sample.basicSession. cbn [BasicPage.clockMonotone].
    repeat split; lra. }
  split; [exact Hmono |].
  exact (spawn_times_in_the_past Sample.basicSession Hmono).
Defined.


(** ** The elaborated page over any sequence of events *)

Section EnhancedEvents.

Import Enhanced.

Variable hex : string -> vec3.

Lemma mirrored_init (p : RippleParams) : EnhancedPage.mirrored (initWith p).
Proof. repeat split. Qed.

Lemma addRipple_keeps (s s' : State) (x y : R) :
  addRipple s x y = Some s' ->
  params s' = params s /\
  (EnhancedPage.mirrored s -> EnhancedPage.mirrored s').
Proof.
  intros Hs'. rewrite (enhanced_addRipple_Some _ _ _ _ Hs').
  split; [reflexivity |]. intros H. exact H.
Qed.

Lemma touchstart_keeps (c : Dom.Canvas) (touches : list (R * R)) :
  forall s, wf s ->
    exists s', EnhancedPage.touchstart s c touches = Some s' /\ wf s' /\
               params s' = params s /\
               (EnhancedPage.mirrored s -> EnhancedPage.mirrored s').
Proof.
  induction touches as [| t touches IH]; intros s Hwf; cbn [EnhancedPage.touchstart].
  - exists s. auto.
  - unfold EnhancedPage.handleTouch.
    destruct (addRipple_total s
                (vx (Dom.toFramebuffer c (fst t) (snd t)))
                (vy (Dom.toFramebuffer c (fst t) (snd t))) Hwf)
      as (s1 & Hs1 & Hwf1).
    rewrite Hs1. destruct (addRipple_keeps _ _ _ _ Hs1) as [Hp1 Hm1].
    destruct (IH s1 Hwf1) as (s' & Hs' & Hwf' & Hp' & Hm').
    exists s'. split; [exact Hs' |]. split; [exact Hwf' |].
    split; [congruence | auto].
Qed.

(** One event on a well-formed state: it succeeds, and keeps the state
    well-formed, [maxRipples] and the mirroring. *)
Lemma enhanced_handle_keeps (s : State) (ev : EnhancedPage.Event) :
  wf s ->
  exists s', EnhancedPage.handle hex s ev = Some s' /\ wf s' /\
             maxRipples (params s') = maxRipples (params s) /\
             (EnhancedPage.mirrored s -> EnhancedPage.mirrored s').
Proof.
  intros Hwf.
  destruct ev as [c x y | c touches | | | c r1 r2 | w h | t | name];
    cbn [EnhancedPage.handle].
  - unfold EnhancedPage.handlePointerEvent.
    destruct (addRipple_total s
                (vx (Dom.toFramebuffer c x y)) (vy (Dom.toFramebuffer c x y)) Hwf)
      as (s' & Hs' & Hwf').
    destruct (addRipple_keeps _ _ _ _ Hs') as [Hp Hm].
    exists s'. rewrite Hp. auto.
  - destruct (touchstart_keeps c touches s Hwf) as (s' & Hs' & Hwf' & Hp & Hm).
    exists s'. rewrite Hp. auto.
  - exists s. auto.
  - exists (clearAllRipples s). split; [reflexivity |].
    split; [apply wf_clear, Hwf |]. split; [reflexivity |]. intros H. exact H.
  - unfold EnhancedPage.addRandomRipple.
    destruct (addRipple_total s (r1 * Dom.bufferWidth c) (r2 * Dom.bufferHeight c) Hwf)
      as (s' & Hs' & Hwf').
    destruct (addRipple_keeps _ _ _ _ Hs') as [Hp Hm].
    exists s'. rewrite Hp. auto.
  - exists (resize s w h). split; [reflexivity |].
    split; [exact Hwf |]. split; [reflexivity |]. intros H. exact H.
  - exists (animate s t). split; [reflexivity |].
    split; [exact Hwf |]. split; [reflexivity |]. intros H. exact H.
  - exists (EnhancedPage.preset hex s name). split; [reflexivity |].
    split; [exact Hwf |]. split; [reflexivity |].
    intros (_ & _ & _ & H4 & _ & H6 & H7 & H8 & _ & H10).
    repeat split; assumption.
Qed.

(** X4.  From the initial state, no sequence of pointer, touch, key,
    resize, frame and preset events makes the elaborated controller fail;
    both arrays keep their sixteen entries and the cursor stays in
    [0, 16).  The ten style uniforms always hold what the parameters say,
    and no event changes [maxRipples]. *)
Theorem enhanced_events_never_fail
    (p : RippleParams) (evs : list EnhancedPage.Event) :
  exists s', EnhancedPage.handleAll hex (initWith p) evs = Some s' /\
             length (uClickPos (uniforms s')) = 16%nat /\
             length (uClickTimes (uniforms s')) = 16%nat /\
             (0 <= clickIndex s' < 16)%Z /\
             EnhancedPage.mirrored s' /\
             maxRipples (params s') = maxRipples p.
Proof.
  assert (Hgen : forall s, wf s ->
            exists s', EnhancedPage.handleAll hex s evs = Some s' /\ wf s' /\
                       maxRipples (params s') = maxRipples (params s) /\
                       (EnhancedPage.mirrored s -> EnhancedPage.mirrored s')).
  { induction evs as [| ev evs IH]; intros s Hwf; cbn [EnhancedPage.handleAll].
    - exists s. auto.
    - destruct (enhanced_handle_keeps s ev Hwf) as (s1 & Hs1 & Hwf1 & Hp1 & Hm1).
      rewrite Hs1. destruct (IH s1 Hwf1) as (s' & Hs' & Hwf' & Hp' & Hm').
      exists s'. split; [exact Hs' |]. split; [exact Hwf' |].
      split; [congruence | auto]. }
  destruct (Hgen (initWith p) (wf_init p)) as (s' & Hs' & Hwf & Hp & Hm).
  exists s'. split; [exact Hs' |].
  destruct Hwf as (Hps & Hts & Hc).
  split; [exact Hps |]. split; [exact Hts |]. split; [exact Hc |].
  split; [apply Hm, mirrored_init | exact Hp].
Qed.

(** Events that aim at the canvas only insert non-empty positions. *)
Lemma touchstart_tracked (c : Dom.Canvas) (touches : list (R * R)) :
  Dom.laidOut c ->
  Forall (fun t => Dom.over c (fst t) (snd t)) touches ->
  forall s s', tracked s -> maxRipples (params s) = MAX_CLICKS ->
               EnhancedPage.touchstart s c touches = Some s' ->
               tracked s' /\ params s' = params s.
Proof.
  intros Hc Hall. induction Hall as [| t touches Ht _ IH];
    intros s s' Htr Hmax; cbn [EnhancedPage.touchstart].
  - intros [= <-]. auto.
  - unfold EnhancedPage.handleTouch.
    destruct (addRipple _ _ _) as [s1 |] eqn:Hs1; [| discriminate].
    intros Hs'.
    assert (Htr1 : tracked s1).
    { eapply tracked_addRipple; [exact Htr | exact Hmax | | exact Hs1].
      rewrite vec2_eta. apply toFramebuffer_inside; assumption. }
    destruct (addRipple_keeps _ _ _ _ Hs1) as [Hp1 _].
    destruct (IH s1 s' Htr1) as [Htr' Hp']; [congruence | exact Hs' |].
    split; [exact Htr' | congruence].
Qed.

Lemma tracked_range (s : State) :
  tracked s -> (0 <= activeRipples s <= MAX_CLICKS)%Z.
Proof.
  intros ((_ & _ & Hc) & [(Ha & _) | (Ha & _)]); rewrite Ha;
    unfold MAX_CLICKS in *; lia.
Qed.

Lemma enhanced_handle_tracked (s s' : State) (ev : EnhancedPage.Event) :
  tracked s -> maxRipples (params s) = MAX_CLICKS ->
  EnhancedPage.onCanvas ev ->
  EnhancedPage.handle hex s ev = Some s' ->
  tracked s' /\ maxRipples (params s') = MAX_CLICKS.
Proof.
  intros Htr Hmax Hev.
  destruct ev as [c x y | c touches | | | c r1 r2 | w h | t | name];
    cbn [EnhancedPage.handle EnhancedPage.onCanvas] in *.
  - unfold EnhancedPage.handlePointerEvent. intros Hs'.
    destruct Hev as [Hc Hover].
    destruct (addRipple_keeps _ _ _ _ Hs') as [Hp _]. rewrite Hp.
    split; [| exact Hmax].
    eapply tracked_addRipple; [exact Htr | exact Hmax | | exact Hs'].
    rewrite vec2_eta. apply toFramebuffer_inside; assumption.
  - intros Hs'. destruct Hev as [Hc Hall].
    destruct (touchstart_tracked c touches Hc Hall s s' Htr Hmax Hs') as [Htr' Hp].
    rewrite Hp. auto.
  - intros [= <-]. auto.
  - intros [= <-]. split; [apply tracked_clear, Htr | exact Hmax].
  - unfold EnhancedPage.addRandomRipple. intros Hs'.
    destruct Hev as ((_ & _ & HW & _) & Hr1 & _).
    destruct (addRipple_keeps _ _ _ _ Hs') as [Hp _]. rewrite Hp.
    split; [| exact Hmax].
    eapply tracked_addRipple; [exact Htr | exact Hmax | | exact Hs'].
    apply isEmpty_false_iff. left. cbn [vx]. nra.
  - intros [= <-]. split; [exact Htr | exact Hmax].
  - intros [= <-]. split; [exact Htr | exact Hmax].
  - intros [= <-]. split; [exact Htr | exact Hmax].
Qed.

(** X5.  With [maxRipples] equal to the capacity, as the class has it,
    and events that aim at the canvas (pointers and touches over it,
    [Math.random()] in [0, 1)), the counter shown to the user is exact
    after every sequence of events: it equals the number of slots the
    shader does not skip, and lies in [0, 16]. *)
Theorem counter_exact_on_canvas
    (p : RippleParams) (evs : list EnhancedPage.Event) :
  maxRipples p = MAX_CLICKS ->
  Forall EnhancedPage.onCanvas evs ->
  exists s', EnhancedPage.handleAll hex (initWith p) evs = Some s' /\
             activeRipples s' = nonEmptySlots s' /\
             (0 <= activeRipples s' <= 16)%Z.
Proof.
  intros Hmax Hevs.
  assert (Hgen : forall s s', tracked s -> maxRipples (params s) = MAX_CLICKS ->
            EnhancedPage.handleAll hex s evs = Some s' -> tracked s').
  { induction Hevs as [| ev evs Hev _ IH]; intros s s' Htr Hm;
      cbn [EnhancedPage.handleAll].
    - intros [= <-]. exact Htr.
    - destruct (EnhancedPage.handle hex s ev) as [s1 |] eqn:Hs1; [| discriminate].
      destruct (enhanced_handle_tracked s s1 ev Htr Hm Hev Hs1) as [Htr1 Hm1].
      apply IH; assumption. }
  assert (Hsome : exists s', EnhancedPage.handleAll hex (initWith p) evs = Some s').
  { clear Hgen Hevs.
    assert (Hall : forall s, wf s ->
              exists s', EnhancedPage.handleAll hex s evs = Some s').
    { induction evs as [| ev evs IH]; intros s Hwf; cbn [EnhancedPage.handleAll].
      - eauto.
      - destruct (enhanced_handle_keeps s ev Hwf) as (s1 & Hs1 & Hwf1 & _).
        rewrite Hs1. apply IH, Hwf1. }
    apply Hall, wf_init. }
  destruct Hsome as (s' & Hs'). exists s'. split; [exact Hs' |].
  assert (Htr : tracked s').
  { apply (Hgen (initWith p) s'); [| exact Hmax | exact Hs'].
    apply (tracked_clear (initWith p) (wf_init p)). }
  split; [apply tracked_count, Htr | apply (tracked_range s' Htr)].
Qed.

End EnhancedEvents.

Lemma canvas_laidOut : Dom.laidOut Sample.canvas.
Proof.
  unfold Dom.laidOut, Sample.canvas.
  cbn [Dom.rect Dom.rectWidth Dom.rectHeight Dom.bufferWidth Dom.bufferHeight].
  lra.
Qed.

Lemma canvas_over (x y : R) :
  10 <= x <= 410 -> 20 <= y <= 320 -> Dom.over Sample.canvas x y.
Proof.
  intros Hx Hy. unfold Dom.over, Sample.canvas.
  cbn [Dom.rect Dom.rectLeft Dom.rectTop Dom.rectWidth Dom.rectHeight]. lra.
Qed.

Lemma enhancedSession_onCanvas : Forall EnhancedPage.onCanvas Sample.enhancedSession.
Proof.
  unfold Sample.enhancedSession.
  repeat (apply Forall_cons_2; [cbn [EnhancedPage.onCanvas] |]);
    try apply Forall_nil_2; try exact I.
  - split; [apply canvas_laidOut | apply canvas_over; lra].
  - split; [apply canvas_laidOut |].
    repeat (apply Forall_cons_2; [cbn [fst snd]; apply canvas_over; lra |]).
    apply Forall_nil_2.
  - split; [apply canvas_laidOut | lra].
  - split; [apply canvas_laidOut | apply canvas_over; lra].
Qed.

Lemma counter_exact_on_canvas_witness :
  Enhanced.maxRipples Sample.params = Enhanced.MAX_CLICKS /\
  Forall EnhancedPage.onCanvas Sample.enhancedSession /\
  exists s', EnhancedPage.handleAll (fun _ => Vec3 0 0 0)
               (Enhanced.initWith Sample.params) Sample.enhancedSession
               = Some s' /\
             Enhanced.activeRipples s' = Enhanced.nonEmptySlots s' /\
             (0 <= Enhanced.activeRipples s' <= 16)%Z.
Proof.
  split; [reflexivity |]. split; [exact enhancedSession_onCanvas |].
  exact (counter_exact_on_canvas (fun _ => Vec3 0 0 0) Sample.params
           Sample.enhancedSession eq_refl enhancedSession_onCanvas).
Defined.


(** ** The registry over any number of insertions *)

Section Recent.

Import Ring.

Variable N : nat.
Hypothesis N_pos : (0 < N)%nat.

Lemma mod_apart (c m n : nat) :
  (m < n)%nat -> (n < m + N)%nat -> ((c + m) mod N <> (c + n) mod N)%nat.
Proof.
  intros Hmn HnN Heq.
  pose proof (Nat.div_mod_eq (c + m) N) as Hm.
  pose proof (Nat.div_mod_eq (c + n) N) as Hn.
  rewrite Heq in Hm.
  assert (Hq : ((c + m) / N < (c + n) / N)%nat) by nia.
  nia.
Qed.

Lemma cursor_step (a : nat) :
  Z.rem (Z.of_nat (a mod N) + 1) (Z.of_nat N) = Z.of_nat ((a + 1) mod N).
Proof.
  rewrite Z.rem_mod_nonneg by lia.
  rewrite <- (Nat2Z.inj_add _ 1), <- Nat2Z.inj_mod.
  f_equal. apply Nat.Div0.add_mod_idemp_l.
Qed.

(** After any insertions into [N] slots, every one of the last [N]
    insertions is in the slot its index points at, counted from the
    cursor at the start. *)
Lemma puts_recent (ps : list vec2) (ts : list R) (c : nat) :
  length ps = N -> length ts = N -> (c < N)%nat ->
  forall cs, exists r',
    puts (Z.of_nat N) (MkRegistry ps ts (Z.of_nat c)) cs = Some r' /\
    length (slotPos r') = N /\ length (slotTime r') = N /\
    writeCursor r' = Z.of_nat ((c + length cs) mod N) /\
    forall m, (m < length cs)%nat -> (length cs <= m + N)%nat ->
              record r' ((c + m) mod N) = cs !! m.
Proof.
  intros Hps Hts Hc cs. induction cs as [| k cs IH] using rev_ind.
  - exists (MkRegistry ps ts (Z.of_nat c)). cbn [puts slotPos slotTime writeCursor length].
    rewrite Nat.add_0_r, Nat.mod_small by lia.
    repeat split; try assumption. intros m Hm. lia.
  - destruct IH as (r & Hr & Hlp & Hlt & Hcur & Hrec).
    rewrite puts_app, Hr. cbn [puts]. unfold put. rewrite Hcur.
    set (i := ((c + length cs) mod N)%nat) in *.
    assert (Hi : (i < N)%nat) by (apply Nat.mod_upper_bound; lia).
    destruct (js_get_Some (slotPos r) (Z.of_nat i)) as [a Ha]; [lia |].
    rewrite Ha, Nat2Z.id. eexists. split; [reflexivity |].
    cbn [slotPos slotTime writeCursor]. rewrite !length_insert, length_app.
    cbn [length]. split; [exact Hlp |]. split; [exact Hlt |]. split.
    + unfold i. rewrite cursor_step. f_equal. f_equal. lia.
    + intros m Hm HmN. unfold record; cbn [slotPos slotTime].
      destruct (Nat.eq_dec m (length cs)) as [-> | Hne].
      * fold i. rewrite !list_lookup_insert_eq by lia.
        rewrite click_eta, lookup_app_r, Nat.sub_diag by lia. reflexivity.
      * assert (Hapart : i <> ((c + m) mod N)%nat).
        { intros Heq. apply (mod_apart c m (length cs)); [lia | lia |].
          symmetry. exact Heq. }
        rewrite !list_lookup_insert_ne by exact Hapart.
        rewrite lookup_app_l by lia.
        apply Hrec; lia.
Qed.

End Recent.

Section RecentClicks.

Import Ring.

(** X6.  Strict FIFO over any number of insertions, in both variants and
    from any well-formed state (after a clear as well): all insertions
    succeed, the cursor advances by their number modulo the capacity, and
    each of the last [capacity] insertions is held, with its clock
    reading, by the slot its number (counted from 0) lies past the
    starting cursor, modulo the capacity; the registry holds the most
    recent insertions and nothing overwrites them out of turn. *)
Theorem registry_holds_most_recent
    (b : Basic.State) (e : Enhanced.State) (cs : list Click) :
  Basic.wf b -> Enhanced.wf e ->
  (exists b', Basic.clicks b cs = Some b' /\
      Basic.clickIndex b' =
        Z.of_nat ((Z.to_nat (Basic.clickIndex b) + length cs) mod 10) /\
      forall m, (m < length cs)%nat -> (length cs <= m + 10)%nat ->
        record (ofBasic b') ((Z.to_nat (Basic.clickIndex b) + m) mod 10)
          = cs !! m) /\
  (exists e', Enhanced.run e (Enhanced.Insert <$> cs) = Some e' /\
      Enhanced.clickIndex e' =
        Z.of_nat ((Z.to_nat (Enhanced.clickIndex e) + length cs) mod 16) /\
      forall m, (m < length cs)%nat -> (length cs <= m + 16)%nat ->
        record (ofEnhanced e') ((Z.to_nat (Enhanced.clickIndex e) + m) mod 16)
          = cs !! m).
Proof.
  intros (Hbp & Hbt & Hbc) (Hep & Het & Hec).
  unfold Basic.MAX_CLICKS, Enhanced.MAX_CLICKS in *. split.
  - destruct (puts_recent 10 ltac:(lia)
                (Basic.uClickPos (Basic.uniforms b))
                (Basic.uClickTimes (Basic.uniforms b))
                (Z.to_nat (Basic.clickIndex b)) Hbp Hbt ltac:(lia) cs)
      as (r' & Hputs & _ & _ & Hcur & Hrec).
    pose proof (basic_clicks_puts cs b) as Hview.
    assert (Hstart : ofBasic b =
              MkRegistry (Basic.uClickPos (Basic.uniforms b))
                (Basic.uClickTimes (Basic.uniforms b))
                (Z.of_nat (Z.to_nat (Basic.clickIndex b)))).
    { unfold ofBasic. rewrite Z2Nat.id by lia. reflexivity. }
    rewrite Hstart in Hview.
    change Basic.MAX_CLICKS with (Z.of_nat 10) in Hview.
    rewrite Hputs in Hview.
    destruct (fmap_Some_inv _ _ _ Hview) as (b' & Hb' & <-).
    exists b'. split; [exact Hb' |]. split; [exact Hcur | exact Hrec].
  - destruct (puts_recent 16 ltac:(lia)
                (Enhanced.uClickPos (Enhanced.uniforms e))
                (Enhanced.uClickTimes (Enhanced.uniforms e))
                (Z.to_nat (Enhanced.clickIndex e)) Hep Het ltac:(lia) cs)
      as (r' & Hputs & _ & _ & Hcur & Hrec).
    pose proof (enhanced_inserts_puts cs e) as Hview.
    assert (Hstart : ofEnhanced e =
              MkRegistry (Enhanced.uClickPos (Enhanced.uniforms e))
                (Enhanced.uClickTimes (Enhanced.uniforms e))
                (Z.of_nat (Z.to_nat (Enhanced.clickIndex e)))).
    { unfold ofEnhanced. rewrite Z2Nat.id by lia. reflexivity. }
    rewrite Hstart in Hview.
    change Enhanced.MAX_CLICKS with (Z.of_nat 16) in Hview.
    rewrite Hputs in Hview.
    destruct (fmap_Some_inv _ _ _ Hview) as (e' & He' & <-).
    exists e'. split; [exact He' |]. split; [exact Hcur | exact Hrec].
Qed.

(** X7.  The bookkeeping of the elaborated [addRipple] does not change
    what is stored: two states with the same slots, spawn times and
    cursor, whatever their counters and parameters, have the same slots,
    spawn times and cursor after the same click, and these are the ones
    the basic controller would have with sixteen slots. *)
Theorem eviction_is_plain_overwrite
    (e1 e2 : Enhanced.State) (k : Click) :
  ofEnhanced e1 = ofEnhanced e2 ->
  ofEnhanced <$> Enhanced.click e1 k = ofEnhanced <$> Enhanced.click e2 k /\
  ofEnhanced <$> Enhanced.click e1 k = put 16 (ofEnhanced e1) k.
Proof.
  intros Hview. rewrite !enhanced_click_put, Hview. split; reflexivity.
Qed.

End RecentClicks.

Lemma registry_holds_most_recent_witness :
  Basic.wf (Basic.resize Basic.init 800 600) /\
  Enhanced.wf (Enhanced.initWith Sample.params) /\
  exists b', Basic.clicks (Basic.resize Basic.init 800 600) Sample.eleven
               = Some b' /\
             Ring.record (Ring.ofBasic b')
               ((Z.to_nat (Basic.clickIndex (Basic.resize Basic.init 800 600))
                 + 10) mod 10)
               = Sample.eleven !! 10%nat.
Proof.
  split; [exact basic_wf_init |]. split; [apply wf_init |].
  destruct (registry_holds_most_recent (Basic.resize Basic.init 800 600)
              (Enhanced.initWith Sample.params) Sample.eleven
              basic_wf_init (wf_init Sample.params))
    as [(b' & Hb & _ & Hm) _].
  exists b'. split; [exact Hb |].
  apply Hm; unfold Sample.eleven; cbn [length]; lia.
Defined.

Lemma eviction_is_plain_overwrite_witness :
  Ring.ofEnhanced (Enhanced.initWith Sample.params)
    = Ring.ofEnhanced (Enhanced.initWith Sample.capped) /\
  Ring.ofEnhanced <$> Enhanced.click (Enhanced.initWith Sample.params)
                        (Sample.at_ 1)
    = Ring.ofEnhanced <$> Enhanced.click (Enhanced.initWith Sample.capped)
                            (Sample.at_ 1).
Proof.
  split; [reflexivity |].
  exact (proj1 (eviction_is_plain_overwrite (Enhanced.initWith Sample.params)
                  (Enhanced.initWith Sample.capped) (Sample.at_ 1) eq_refl)).
Defined.


(** ** Pixelation *)

Section Pixelation.

Lemma basic_loop_same_cell (u : Basic.Uniforms) (f1 f2 : Basic.Frag) :
  Basic.uv f1 = Basic.uv f2 ->
  Basic.cellPixelSize f1 = Basic.cellPixelSize f2 ->
  Basic.aspectRatio f1 = Basic.aspectRatio f2 ->
  forall ps ts feed,
    Basic.clickLoop u f1 ps ts feed = Basic.clickLoop u f2 ps ts feed.
Proof.
  intros Huv Hcell Hasp ps.
  induction ps as [| pos ps IH]; intros [| t0 ts] feed;
    cbn [Basic.clickLoop]; try reflexivity.
  unfold Basic.contribution, Basic.clickUV. rewrite Huv, Hcell, Hasp.
  destruct (isEmpty pos); apply IH.
Qed.

Lemma enhanced_loop_same_cell (u : Enhanced.Uniforms) (f1 f2 : Enhanced.Frag) :
  Enhanced.uv f1 = Enhanced.uv f2 ->
  Enhanced.cellPixelSize f1 = Enhanced.cellPixelSize f2 ->
  Enhanced.aspectRatio f1 = Enhanced.aspectRatio f2 ->
  forall ps ts acc,
    Enhanced.clickLoop u f1 ps ts acc = Enhanced.clickLoop u f2 ps ts acc.
Proof.
  intros Huv Hcell Hasp ps.
  induction ps as [| pos ps IH]; intros [| t0 ts] acc;
    cbn [Enhanced.clickLoop]; try reflexivity.
  unfold Enhanced.finalWave, Enhanced.clickUV. rewrite Huv, Hcell, Hasp.
  destruct (isEmpty pos); apply IH.
Qed.

(** X8.  The intensity is sampled once per cell of [8 * pixelSize]
    framebuffer pixels: two fragments whose centred coordinates fall in
    the same cell have the same intensity, in both shaders, whatever the
    registry holds. *)
Theorem same_cell_same_intensity
    (bu : Basic.Uniforms) (eu : Enhanced.Uniforms) (p1 p2 q1 q2 : vec2) :
  vfloor (vdivs (Basic.fragCoord (Basic.frag bu p1)) (8 * Basic.PIXEL_SIZE))
    = vfloor (vdivs (Basic.fragCoord (Basic.frag bu p2)) (8 * Basic.PIXEL_SIZE)) ->
  vfloor (vdivs (Enhanced.fragCoord (Enhanced.frag eu q1))
                (Enhanced.CELL_PIXEL_SIZE * Enhanced.uPixelSize eu))
    = vfloor (vdivs (Enhanced.fragCoord (Enhanced.frag eu q2))
                    (Enhanced.CELL_PIXEL_SIZE * Enhanced.uPixelSize eu)) ->
  Basic.feedOf bu p1 = Basic.feedOf bu p2 /\
  Enhanced.waves eu q1 = Enhanced.waves eu q2.
Proof.
  intros Hb He. split.
  - unfold Basic.feedOf. apply basic_loop_same_cell; try reflexivity.
    unfold Basic.frag in *. cbn [Basic.uv Basic.fragCoord] in *.
    rewrite Hb. reflexivity.
  - unfold Enhanced.waves. apply enhanced_loop_same_cell; try reflexivity.
    unfold Enhanced.frag in *. cbn [Enhanced.uv Enhanced.fragCoord] in *.
    rewrite He. reflexivity.
Qed.

Lemma floor_cell (z c : R) :
  0 < c -> z - c < floor (z / c) * c <= z.
Proof.
  intros Hc. unfold floor.
  destruct (base_Int_part (z / c)) as [Hle Hgt].
  assert (Hz : z / c * c = z) by (field; lra).
  split.
  - rewrite <- Hz at 1. nra.
  - rewrite <- Hz at 2. apply Rmult_le_compat_r; lra.
Qed.

(** The offset between a click and the sampling point of a fragment's
    cell, in one axis of normalised space: [F] and [G] are the centred
    coordinates of the fragment and of the click. *)
Lemma axis_offset (F G c res k : R) :
  0 < c -> 0 < res -> 0 < k ->
  Rabs (floor (F / c) * c / res * k - (G - c * 0.5) / res * k)
    <= (c * 0.5 + Rabs (F - G)) / res * k.
Proof.
  intros Hc Hres Hk. destruct (floor_cell F c Hc) as [Hlo Hhi].
  set (g := floor (F / c) * c) in *.
  replace (g / res * k - (G - c * 0.5) / res * k)
    with ((g - F + c * 0.5 + (F - G)) * (/ res * k)) by (unfold Rdiv; ring).
  replace ((c * 0.5 + Rabs (F - G)) / res * k)
    with ((c * 0.5 + Rabs (F - G)) * (/ res * k)) by (unfold Rdiv; ring).
  assert (Hm : 0 < / res * k).
  { apply Rmult_lt_0_compat; [apply Rinv_0_lt_compat |]; assumption. }
  rewrite Rabs_mult, (Rabs_pos_eq (/ res * k)) by lra.
  apply Rmult_le_compat_r; [lra |].
  eapply Rle_trans; [apply Rabs_triang |].
  apply Rplus_le_compat_r. apply Rabs_le. lra.
Qed.

(** X9.  The half-cell correction in the click position centres each
    click on the sampling grid.  For a fragment and a click, the sampling
    point of the fragment's cell and the normalised position of the click
    differ, in each axis, by at most half a cell plus the distance in
    that axis between the fragment and the click, over the height of the
    frame.  For a click inside the pixel of the fragment that is half a
    cell and half a pixel; with the click at the fragment's centre, half
    a cell.  (For a frame of positive size and, in the elaborated
    shader, a positive pixel size.) *)
Theorem click_within_half_cell
    (bu : Basic.Uniforms) (eu : Enhanced.Uniforms) (px pos : vec2) :
  0 < vx (Basic.uResolution bu) -> 0 < vy (Basic.uResolution bu) ->
  0 < vx (Enhanced.uResolution eu) -> 0 < vy (Enhanced.uResolution eu) ->
  0 < Enhanced.uPixelSize eu ->
  (Rabs (vx (Basic.uv (Basic.frag bu px))
         - vx (Basic.clickUV bu (Basic.frag bu px) pos))
     <= (16 + Rabs (vx px - vx pos)) / vy (Basic.uResolution bu) /\
   Rabs (vy (Basic.uv (Basic.frag bu px))
         - vy (Basic.clickUV bu (Basic.frag bu px) pos))
     <= (16 + Rabs (vy px - vy pos)) / vy (Basic.uResolution bu)) /\
  (Rabs (vx (Enhanced.uv (Enhanced.frag eu px))
         - vx (Enhanced.clickUV eu (Enhanced.frag eu px) pos))
     <= (4 * Enhanced.uPixelSize eu + Rabs (vx px - vx pos))
        / vy (Enhanced.uResolution eu) /\
   Rabs (vy (Enhanced.uv (Enhanced.frag eu px))
         - vy (Enhanced.clickUV eu (Enhanced.frag eu px) pos))
     <= (4 * Enhanced.uPixelSize eu + Rabs (vy px - vy pos))
        / vy (Enhanced.uResolution eu)).
Proof.
  intros Hbx Hby Hex Hey Hps.
  unfold Basic.clickUV, Basic.frag, Enhanced.clickUV, Enhanced.frag,
    Basic.PIXEL_SIZE, Enhanced.CELL_PIXEL_SIZE,
    vmul, vdiv, vdivs, vsubs, vsub, vscale, vfloor.
  cbn [Basic.uv Basic.cellPixelSize Basic.aspectRatio
       Enhanced.uv Enhanced.cellPixelSize Enhanced.aspectRatio vx vy].
  set (bw := vx (Basic.uResolution bu)) in *.
  set (bh := vy (Basic.uResolution bu)) in *.
  set (ew := vx (Enhanced.uResolution eu)) in *.
  set (eh := vy (Enhanced.uResolution eu)) in *.
  set (ps := Enhanced.uPixelSize eu) in *.
  assert (Hkb : 0 < bw / bh) by (apply Rdiv_lt_0_compat; assumption).
  assert (Hke : 0 < ew / eh) by (apply Rdiv_lt_0_compat; assumption).
  assert (Hcancel : forall x w h, 0 < w -> x / w * (w / h) = x / h).
  { intros x w h Hw. unfold Rdiv.
    rewrite (Rmult_assoc x), <- (Rmult_assoc (/ w)), Rinv_l by lra.
    rewrite Rmult_1_l. reflexivity. }
  assert (Hshift : forall a b m, a - m - (b - m) = a - b) by (intros; ring).
  repeat split.
  - eapply Rle_trans; [apply (axis_offset _ _ (8 * 4) bw (bw / bh)); lra |].
    rewrite Hcancel by exact Hbx. rewrite Hshift.
    replace (8 * 4 * 0.5) with 16 by lra. lra.
  - eapply Rle_trans; [apply (axis_offset _ _ (8 * 4) bh 1); lra |].
    rewrite Hshift. replace (8 * 4 * 0.5) with 16 by lra. lra.
  - eapply Rle_trans; [apply (axis_offset _ _ (8.0 * ps) ew (ew / eh)); lra |].
    rewrite Hcancel by exact Hex. rewrite Hshift.
    replace (8.0 * ps * 0.5) with (4 * ps) by lra. lra.
  - eapply Rle_trans; [apply (axis_offset _ _ (8.0 * ps) eh 1); lra |].
    rewrite Hshift. replace (8.0 * ps * 0.5) with (4 * ps) by lra. lra.
Qed.

End Pixelation.

Lemma basic_centre_cell :
  vfloor (vdivs (Basic.fragCoord (Basic.frag Sample.basicScreen Sample.centre))
                (8 * Basic.PIXEL_SIZE))
    = vfloor (vdivs (Basic.fragCoord
                       (Basic.frag Sample.basicScreen Sample.inCentreCell))
                    (8 * Basic.PIXEL_SIZE)).
Proof.
  unfold Basic.frag, Sample.basicScreen, Sample.centre, Sample.inCentreCell,
    Basic.PIXEL_SIZE, vdivs, vsub, vscale, vfloor.
  cbn [Basic.fragCoord Basic.uResolution vx vy].
  rewrite !floor_unit by lra. reflexivity.
Qed.

Lemma enhanced_centre_cell :
  vfloor (vdivs (Enhanced.fragCoord
                   (Enhanced.frag Sample.enhancedScreen Sample.centre))
                (Enhanced.CELL_PIXEL_SIZE
                 * Enhanced.uPixelSize Sample.enhancedScreen))
    = vfloor (vdivs (Enhanced.fragCoord
                       (Enhanced.frag Sample.enhancedScreen Sample.inCentreCell))
                    (Enhanced.CELL_PIXEL_SIZE
                     * Enhanced.uPixelSize Sample.enhancedScreen)).
Proof.
  unfold Enhanced.frag, Sample.enhancedScreen, Sample.centre,
    Sample.inCentreCell, Enhanced.CELL_PIXEL_SIZE, vdivs, vsub, vscale, vfloor.
  cbn [Enhanced.fragCoord Enhanced.uResolution Enhanced.uPixelSize
       Enhanced.withClicks Enhanced.withResolution Enhanced.initWith
       Enhanced.uniforms Sample.params Enhanced.defaultParams
       Enhanced.pixelSize vx vy].
  rewrite !floor_unit by lra. reflexivity.
Qed.

Lemma same_cell_same_intensity_witness :
  vfloor (vdivs (Basic.fragCoord (Basic.frag Sample.basicScreen Sample.centre))
                (8 * Basic.PIXEL_SIZE))
    = vfloor (vdivs (Basic.fragCoord
                       (Basic.frag Sample.basicScreen Sample.inCentreCell))
                    (8 * Basic.PIXEL_SIZE)) /\
  vfloor (vdivs (Enhanced.fragCoord
                   (Enhanced.frag Sample.enhancedScreen Sample.centre))
                (Enhanced.CELL_PIXEL_SIZE
                 * Enhanced.uPixelSize Sample.enhancedScreen))
    = vfloor (vdivs (Enhanced.fragCoord
                       (Enhanced.frag Sample.enhancedScreen Sample.inCentreCell))
                    (Enhanced.CELL_PIXEL_SIZE
                     * Enhanced.uPixelSize Sample.enhancedScreen)) /\
  Basic.feedOf Sample.basicScreen Sample.centre
    = Basic.feedOf Sample.basicScreen Sample.inCentreCell /\
  Enhanced.waves Sample.enhancedScreen Sample.centre
    = Enhanced.waves Sample.enhancedScreen Sample.inCentreCell.
Proof.
  split; [exact basic_centre_cell |]. split; [exact enhanced_centre_cell |].
  exact (same_cell_same_intensity Sample.basicScreen Sample.enhancedScreen
           Sample.centre Sample.inCentreCell Sample.centre Sample.inCentreCell
           basic_centre_cell enhanced_centre_cell).
Defined.

Lemma basicScreen_resolution :
  0 < vx (Basic.uResolution Sample.basicScreen) /\
  0 < vy (Basic.uResolution Sample.basicScreen).
Proof.
  unfold Sample.basicScreen; cbn [Basic.uResolution vx vy]. lra.
Qed.

Lemma enhancedScreen_resolution :
  0 < vx (Enhanced.uResolution Sample.enhancedScreen) /\
  0 < vy (Enhanced.uResolution Sample.enhancedScreen) /\
  0 < Enhanced.uPixelSize Sample.enhancedScreen.
Proof.
  unfold Sample.enhancedScreen.
  cbn [Enhanced.uResolution Enhanced.uPixelSize Enhanced.withClicks
       Enhanced.withResolution Enhanced.initWith Enhanced.uniforms
       Sample.params Enhanced.defaultParams Enhanced.pixelSize vx vy].
  lra.
Qed.

(** A click at [(400.2, 300.2)], inside the pixel of the centre fragment
    of an 800 x 600 frame. *)
Lemma click_within_half_cell_witness :
  (0 < vx (Basic.uResolution Sample.basicScreen) /\
   0 < vy (Basic.uResolution Sample.basicScreen)) /\
  (0 < vx (Enhanced.uResolution Sample.enhancedScreen) /\
   0 < vy (Enhanced.uResolution Sample.enhancedScreen) /\
   0 < Enhanced.uPixelSize Sample.enhancedScreen) /\
  Rabs (vx (Basic.uv (Basic.frag Sample.basicScreen Sample.centre))
        - vx (Basic.clickUV Sample.basicScreen
                (Basic.frag Sample.basicScreen Sample.centre)
                (Vec2 400.2 300.2)))
    <= (16 + Rabs (vx Sample.centre - vx (Vec2 400.2 300.2)))
       / vy (Basic.uResolution Sample.basicScreen) /\
  Rabs (vx (Enhanced.uv (Enhanced.frag Sample.enhancedScreen Sample.centre))
        - vx (Enhanced.clickUV Sample.enhancedScreen
                (Enhanced.frag Sample.enhancedScreen Sample.centre)
                (Vec2 400.2 300.2)))
    <= (4 * Enhanced.uPixelSize Sample.enhancedScreen
        + Rabs (vx Sample.centre - vx (Vec2 400.2 300.2)))
       / vy (Enhanced.uResolution Sample.enhancedScreen).
Proof.
  split; [exact basicScreen_resolution |].
  split; [exact enhancedScreen_resolution |].
  destruct (click_within_half_cell Sample.basicScreen
              Sample.enhancedScreen Sample.centre (Vec2 400.2 300.2)
              (proj1 basicScreen_resolution) (proj2 basicScreen_resolution)
              (proj1 enhancedScreen_resolution)
              (proj1 (proj2 enhancedScreen_resolution))
              (proj2 (proj2 enhancedScreen_resolution)))
    as [[Hb _] [He _]].
  split; [exact Hb | exact He].
Defined.


(** ** Bounds on the intensity and the one-bit output *)

Section Output.

Lemma foldl_Rmax_le (l : list R) (b : R) :
  Forall (fun c => c <= b) l -> forall a, a <= b -> foldl Rmax a l <= b.
Proof.
  induction 1 as [| c l Hc _ IH]; intros a Ha; cbn [foldl]; [exact Ha |].
  apply IH. apply Rmax_lub; assumption.
Qed.

Lemma foldl_Rmax_lt (l : list R) (b : R) :
  Forall (fun c => c < b) l -> forall a, a < b -> foldl Rmax a l < b.
Proof.
  induction 1 as [| c l Hc _ IH]; intros a Ha; cbn [foldl]; [exact Ha |].
  apply IH. apply Rmax_lub_lt; assumption.
Qed.

Lemma basic_contribution_le_1 (u : Basic.Uniforms) (f : Basic.Frag)
    (pos : vec2) (t0 : R) : Basic.contribution u f pos t0 <= 1.
Proof.
  destruct (basic_contribution_bound u f pos t0) as [_ Hle].
  eapply Rle_trans; [exact Hle |]. apply exp_le_1.
  pose proof (Rmax_r (Basic.uTime u - t0) 0). unfold Basic.dampT. lra.
Qed.

Lemma basic_contributions_le_1 (u : Basic.Uniforms) (f : Basic.Frag) (ps : list vec2) :
  forall ts, Forall (fun c => c <= 1) (Basic.contributions u f ps ts).
Proof.
  induction ps as [| pos ps IH]; intros [| t0 ts]; cbn [Basic.contributions];
    try constructor.
  destruct (isEmpty pos); [apply IH |].
  constructor; [apply basic_contribution_le_1 | apply IH].
Qed.

Lemma calculateWave_le (pos center : vec2) (time waveSpeed thickness : R) :
  Enhanced.calculateWave pos center time waveSpeed thickness <= 0.91.
Proof.
  unfold Enhanced.calculateWave.
  set (q := (distance pos center - waveSpeed * time) / thickness).
  assert (Hg : exp (- pow2 q) <= 1).
  { apply exp_le_1. unfold pow2. pose proof (Rle_0_sqr q) as Hs.
    unfold Rsqr in Hs. lra. }
  pose proof (exp_pos (- pow2 q)).
  match goal with |- context [sin ?x] => pose proof (SIN_bound x) end.
  nra.
Qed.

Lemma finalWave_le (u : Enhanced.Uniforms) (f : Enhanced.Frag)
    (pos : vec2) (t0 : R) :
  0 <= Enhanced.uTimeDecay u -> 0 <= Enhanced.uDistanceDecay u ->
  Enhanced.finalWave u f pos t0 <= 0.91.
Proof.
  intros Hk Hd. unfold Enhanced.finalWave.
  set (r := distance (Enhanced.uv f) (Enhanced.clickUV u f pos)).
  set (t := Rmax (Enhanced.uTime u - t0) 0).
  pose proof (calculateWave_le (Enhanced.uv f) (Enhanced.clickUV u f pos) t
                (Enhanced.uWaveSpeed u) (Enhanced.uWaveThickness u)) as Hw.
  pose proof (calculateWave_pos (Enhanced.uv f) (Enhanced.clickUV u f pos) t
                (Enhanced.uWaveSpeed u) (Enhanced.uWaveThickness u)) as Hw0.
  assert (Ht : 0 <= t) by apply Rmax_r.
  assert (Hr : 0 <= r) by apply distance_nonneg.
  assert (Hta : 0 < Enhanced.timeAttenuation u t <= 1).
  { unfold Enhanced.timeAttenuation. split; [apply exp_pos | apply exp_le_1; nra]. }
  assert (Hda : 0 < Enhanced.distanceAttenuation u r <= 1).
  { unfold Enhanced.distanceAttenuation. split; [apply exp_pos | apply exp_le_1; nra]. }
  set (w := Enhanced.calculateWave _ _ _ _ _) in *.
  set (a := Enhanced.timeAttenuation u t) in *.
  set (d := Enhanced.distanceAttenuation u r) in *.
  assert (Hwa : w * a <= 0.91) by nra.
  assert (Hwa0 : 0 < w * a) by (apply Rmult_lt_0_compat; lra).
  nra.
Qed.

Lemma finalWaves_le (u : Enhanced.Uniforms) (f : Enhanced.Frag) (ps : list vec2) :
  0 <= Enhanced.uTimeDecay u -> 0 <= Enhanced.uDistanceDecay u ->
  forall ts, Forall (fun c => c <= 0.91) (Enhanced.finalWaves u f ps ts).
Proof.
  intros Hk Hd.
  induction ps as [| pos ps IH]; intros [| t0 ts]; cbn [Enhanced.finalWaves];
    try constructor.
  destruct (isEmpty pos); [apply IH |].
  constructor; [apply finalWave_le; assumption | apply IH].
Qed.

(** X10.  Overlapping ripples never saturate: whatever the registry
    holds, the intensity of the basic shader lies in [0, 1], and that of
    the elaborated shader in [0, 0.91] when the two decay rates are not
    negative. *)
Theorem intensity_is_bounded
    (bu : Basic.Uniforms) (eu : Enhanced.Uniforms) (px : vec2) :
  0 <= Enhanced.uTimeDecay eu -> 0 <= Enhanced.uDistanceDecay eu ->
  0 <= Basic.feedOf bu px <= 1 /\
  0 <= Enhanced.totalWave eu px <= 0.91.
Proof.
  intros Hk Hd. unfold Enhanced.totalWave.
  rewrite basic_feed_fold, enhanced_waves_fold. cbn [fst].
  split; split; try apply foldl_Rmax_lower.
  - apply foldl_Rmax_le; [apply basic_contributions_le_1 | lra].
  - apply foldl_Rmax_le; [apply finalWaves_le; assumption | lra].
Qed.

Lemma basic_main_cases (u : Basic.Uniforms) (px : vec2) :
  (Basic.feedOf u px + Basic.bayerValue u px < 0.5 /\
   Basic.main u px = Basic.background) \/
  (0.5 <= Basic.feedOf u px + Basic.bayerValue u px /\
   Basic.main u px = Basic.foreground).
Proof.
  unfold Basic.main, step.
  destruct (Rlt_dec (Basic.feedOf u px + Basic.bayerValue u px) 0.5) as [Hlt | Hge].
  - left. rewrite ltb_true by exact Hlt. auto.
  - right. rewrite ltb_false by lra. split; [lra | reflexivity].
Qed.

Lemma background_not_foreground : Basic.background <> Basic.foreground.
Proof. unfold Basic.background, Basic.foreground. intros [= H]. lra. Qed.

(** X11.  The basic shader is a one-bit dither: every fragment is either
    the background or the foreground colour, and it is the foreground
    colour exactly when the intensity plus the recentred threshold
    reaches 0.5.  An intensity of 1 or more lights every fragment, an
    intensity below 1/64 lights none. *)
Theorem basic_output_is_one_bit (u : Basic.Uniforms) (px : vec2) :
  (Basic.main u px = Basic.background \/ Basic.main u px = Basic.foreground) /\
  (Basic.main u px = Basic.foreground <->
     0.5 <= Basic.feedOf u px + Basic.bayerValue u px) /\
  (1 <= Basic.feedOf u px -> Basic.main u px = Basic.foreground) /\
  (Basic.feedOf u px < 1 / 64 -> Basic.main u px = Basic.background).
Proof.
  pose proof (bayer_bound_basic u px) as [Hlo _].
  assert (Hhi : Basic.bayerValue u px <= 63 / 64 - 0.5).
  { unfold Basic.bayerValue.
    pose proof (Bayer8_range
      (vdivs (Basic.fragCoord (Basic.frag u px)) Basic.PIXEL_SIZE)). lra. }
  destruct (basic_main_cases u px) as [[Hlt Hm] | [Hge Hm]]; rewrite Hm.
  - split; [auto |]. split; [| split].
    + split; [intros H; destruct (background_not_foreground H) | lra].
    + intros H1. lra.
    + reflexivity.
  - split; [auto |]. split; [| split].
    + split; [intros _; exact Hge | reflexivity].
    + reflexivity.
    + intros H. lra.
Qed.

(** X12.  A ripple lights the cell it was made in at the instant it is
    spawned: if a non-empty slot has time since spawn 0 and its centre is
    at the sampling point of the fragment's cell, the basic shader
    outputs the foreground colour at that fragment, whatever the dither
    threshold there and whatever the other slots hold. *)
Theorem fresh_ripple_lights_its_cell
    (u : Basic.Uniforms) (px pos : vec2) (t0 : R) (i : nat) :
  Basic.uClickPos u !! i = Some pos ->
  Basic.uClickTimes u !! i = Some t0 ->
  isEmpty pos = false ->
  Rmax (Basic.uTime u - t0) 0 = 0 ->
  distance (Basic.uv (Basic.frag u px))
           (Basic.clickUV u (Basic.frag u px) pos) = 0 ->
  Basic.feedOf u px = 1 /\ Basic.main u px = Basic.foreground.
Proof.
  intros Hp Ht Hne Hage Hdist.
  assert (Hc : Basic.contribution u (Basic.frag u px) pos t0 = 1).
  { apply basic_contribution_spawn_centre; assumption. }
  assert (Hfeed : Basic.feedOf u px = 1).
  { apply Rle_antisym.
    - rewrite basic_feed_fold.
      apply foldl_Rmax_le; [apply basic_contributions_le_1 | lra].
    - rewrite <- Hc, basic_feed_fold. apply foldl_Rmax_upper.
      unfold Basic.contributionsOf.
      eapply basic_contributions_In; eassumption. }
  split; [exact Hfeed |].
  pose proof (bayer_bound_basic u px) as [Hlo _].
  destruct (basic_main_cases u px) as [[Hlt _] | [_ Hm]]; [lra | exact Hm].
Qed.

Lemma basic_contributions_old (u : Basic.Uniforms) (f : Basic.Frag) (b : R)
    (ps : list vec2) :
  forall ts,
    (forall i pos t0, ps !! i = Some pos -> ts !! i = Some t0 ->
                      isEmpty pos = false ->
                      Basic.contribution u f pos t0 < b) ->
    Forall (fun c => c < b) (Basic.contributions u f ps ts).
Proof.
  induction ps as [| pos ps IH]; intros [| t0 ts] Hold;
    cbn [Basic.contributions]; try constructor.
  destruct (isEmpty pos) eqn:Hpos.
  - apply IH. intros i p t Hp Ht. apply (Hold (S i) p t Hp Ht).
  - constructor.
    + apply (Hold 0%nat pos t0); [reflexivity | reflexivity | exact Hpos].
    + apply IH. intros i p t Hp Ht. apply (Hold (S i) p t Hp Ht).
Qed.

(** X13.  Old ripples are invisible in the basic shader: when every
    non-empty slot was spawned more than [ln 64] (about 4.16) seconds
    before the clock reading, every fragment of the frame is background,
    wherever the ripples are. *)
Theorem old_ripples_are_invisible (u : Basic.Uniforms) :
  (forall i pos t0,
     Basic.uClickPos u !! i = Some pos -> Basic.uClickTimes u !! i = Some t0 ->
     isEmpty pos = false -> ln 64 < Basic.uTime u - t0) ->
  forall px, Basic.feedOf u px < 1 / 64 /\ Basic.main u px = Basic.background.
Proof.
  intros Hold px.
  assert (Hfeed : Basic.feedOf u px < 1 / 64).
  { rewrite basic_feed_fold. apply foldl_Rmax_lt; [| lra].
    unfold Basic.contributionsOf. apply basic_contributions_old.
    intros i pos t0 Hp Ht Hne.
    destruct (basic_contribution_bound u (Basic.frag u px) pos t0) as [_ Hle].
    eapply Rle_lt_trans; [exact Hle |].
    pose proof (Hold i pos t0 Hp Ht Hne) as Hage.
    assert (Hln : 0 < ln 64).
    { rewrite <- ln_1. apply ln_increasing; lra. }
    rewrite Rmax_left by lra. unfold Basic.dampT.
    replace (1 / 64) with (exp (- ln 64)).
    2:{ rewrite exp_Ropp, exp_ln by lra. lra. }
    apply exp_increasing. lra. }
  split; [exact Hfeed |].
  pose proof (bayer_bound_basic u px) as [Hlo _].
  assert (Hhi : Basic.bayerValue u px <= 63 / 64 - 0.5).
  { unfold Basic.bayerValue.
    pose proof (Bayer8_range
      (vdivs (Basic.fragCoord (Basic.frag u px)) Basic.PIXEL_SIZE)). lra. }
  destruct (basic_main_cases u px) as [[_ Hm] | [Hge _]]; [exact Hm | lra].
Qed.

(** X14.  Behind the wave front a ripple only fades: for a fixed slot and
    fragment of the basic shader, once the front has passed the sample
    point ([speed * timeSinceSpawn >= distance]), the contribution is
    strictly smaller at every later clock reading. *)
Theorem contribution_fades_behind_front
    (u : Basic.Uniforms) (px pos : vec2) (t0 T1 T2 : R) :
  t0 <= T1 -> T1 < T2 ->
  distance (Basic.uv (Basic.frag u px)) (Basic.clickUV u (Basic.frag u px) pos)
    <= Basic.speed * (T1 - t0) ->
  Basic.contribution (Basic.withTime u T2)
    (Basic.frag (Basic.withTime u T2) px) pos t0
  < Basic.contribution (Basic.withTime u T1)
      (Basic.frag (Basic.withTime u T1) px) pos t0.
Proof.
  intros H01 H12 Hfront.
  unfold Basic.contribution.
  change (Basic.frag (Basic.withTime u T2) px) with (Basic.frag u px).
  change (Basic.frag (Basic.withTime u T1) px) with (Basic.frag u px).
  change (Basic.clickUV (Basic.withTime u T2)) with (Basic.clickUV u).
  change (Basic.clickUV (Basic.withTime u T1)) with (Basic.clickUV u).
  cbn [Basic.withTime Basic.uTime].
  set (r := distance (Basic.uv (Basic.frag u px))
                     (Basic.clickUV u (Basic.frag u px) pos)) in *.
  rewrite !Rmax_left by lra.
  set (t1 := T1 - t0) in *. set (t2 := T2 - t0).
  assert (Ht : t1 < t2) by (unfold t1, t2; lra).
  assert (Hring : Basic.ring r t2 <= Basic.ring r t1).
  { unfold Basic.ring, pow2, Basic.speed, Basic.thickness in *.
    destruct (Req_dec ((r - 0.30 * t2) / 0.10 * ((r - 0.30 * t2) / 0.10))
                      ((r - 0.30 * t1) / 0.10 * ((r - 0.30 * t1) / 0.10)))
      as [-> | Hne]; [lra |].
    left. apply exp_increasing. nra. }
  assert (Hatten : Basic.atten r t2 < Basic.atten r t1).
  { unfold Basic.atten. apply Rmult_lt_compat_r; [apply exp_pos |].
    apply exp_decay_strict; [unfold Basic.dampT; lra | exact Ht]. }
  assert (Hr2 : 0 < Basic.ring r t2) by apply exp_pos.
  assert (Ha2 : 0 < Basic.atten r t2).
  { unfold Basic.atten. apply Rmult_lt_0_compat; apply exp_pos. }
  nra.
Qed.

End Output.

Lemma enhancedScreen_decays :
  0 <= Enhanced.uTimeDecay Sample.enhancedScreen /\
  0 <= Enhanced.uDistanceDecay Sample.enhancedScreen.
Proof.
  unfold Sample.enhancedScreen.
  cbn [Enhanced.uTimeDecay Enhanced.uDistanceDecay Enhanced.withClicks
       Enhanced.withResolution Enhanced.initWith Enhanced.uniforms
       Sample.params Enhanced.defaultParams Enhanced.timeDecay
       Enhanced.distanceDecay].
  lra.
Qed.

Lemma intensity_is_bounded_witness :
  (0 <= Enhanced.uTimeDecay Sample.enhancedScreen /\
   0 <= Enhanced.uDistanceDecay Sample.enhancedScreen) /\
  0 <= Basic.feedOf Sample.basicScreen Sample.centre <= 1 /\
  0 <= Enhanced.totalWave Sample.enhancedScreen Sample.centre <= 0.91.
Proof.
  split; [exact enhancedScreen_decays |].
  exact (intensity_is_bounded Sample.basicScreen Sample.enhancedScreen
           Sample.centre (proj1 enhancedScreen_decays)
           (proj2 enhancedScreen_decays)).
Defined.

Lemma onCentre_nonEmpty : isEmpty Sample.onCentre = false.
Proof. apply isEmpty_false_iff. unfold Sample.onCentre; cbn [vx vy]. lra. Qed.

Lemma fresh_ripple_lights_its_cell_witness :
  isEmpty Sample.onCentre = false /\
  Rmax (Basic.uTime Sample.basicScreen - 0) 0 = 0 /\
  Basic.feedOf Sample.basicScreen Sample.centre = 1 /\
  Basic.main Sample.basicScreen Sample.centre = Basic.foreground.
Proof.
  split; [exact onCentre_nonEmpty |]. split; [exact Rmax_0_0 |].
  exact (fresh_ripple_lights_its_cell Sample.basicScreen Sample.centre
           Sample.onCentre 0 0%nat eq_refl eq_refl onCentre_nonEmpty Rmax_0_0
           basic_centre_distance).
Defined.

Lemma ln_64_lt_100 : ln 64 < 100.
Proof.
  rewrite <- (ln_exp 100). apply ln_increasing; [lra |].
  pose proof (exp_ineq1 100 ltac:(lra)). lra.
Qed.

Lemma stale_is_old (i : nat) (pos : vec2) (t0 : R) :
  Basic.uClickPos Sample.stale !! i = Some pos ->
  Basic.uClickTimes Sample.stale !! i = Some t0 ->
  isEmpty pos = false -> ln 64 < Basic.uTime Sample.stale - t0.
Proof.
  unfold Sample.stale. cbn [Basic.uClickPos Basic.uClickTimes Basic.uTime].
  intros Hp Ht He. destruct i as [| i].
  - cbn in Ht. injection Ht as <-. pose proof ln_64_lt_100. lra.
  - change (replicate 9 sentinel !! i = Some pos) in Hp.
    apply lookup_replicate in Hp as [-> _].
    rewrite isEmpty_sentinel in He. discriminate.
Qed.

Lemma old_ripples_are_invisible_witness :
  ln 64 < Basic.uTime Sample.stale - 0 /\
  Basic.feedOf Sample.stale Sample.centre < 1 / 64 /\
  Basic.main Sample.stale Sample.centre = Basic.background.
Proof.
  split; [exact (stale_is_old 0 Sample.onCentre 0 eq_refl eq_refl
                   onCentre_nonEmpty) |].
  exact (old_ripples_are_invisible Sample.stale stale_is_old Sample.centre).
Defined.

Lemma contribution_fades_behind_front_witness :
  distance (Basic.uv (Basic.frag Sample.basicScreen Sample.centre))
           (Basic.clickUV Sample.basicScreen
              (Basic.frag Sample.basicScreen Sample.centre) Sample.onCentre)
    <= Basic.speed * (1 - 0) /\
  Basic.contribution (Basic.withTime Sample.basicScreen 2)
    (Basic.frag (Basic.withTime Sample.basicScreen 2) Sample.centre)
    Sample.onCentre 0
  < Basic.contribution (Basic.withTime Sample.basicScreen 1)
      (Basic.frag (Basic.withTime Sample.basicScreen 1) Sample.centre)
      Sample.onCentre 0.
Proof.
  assert (Hd : distance (Basic.uv (Basic.frag Sample.basicScreen Sample.centre))
                 (Basic.clickUV Sample.basicScreen
                    (Basic.frag Sample.basicScreen Sample.centre)
                    Sample.onCentre)
               <= Basic.speed * (1 - 0)).
  { rewrite basic_centre_distance. unfold Basic.speed. lra. }
  split; [exact Hd |].
  exact (contribution_fades_behind_front Sample.basicScreen Sample.centre
           Sample.onCentre 0 1 2 ltac:(lra) ltac:(lra) Hd).
Defined.


(** ** The dither pattern as an integer matrix *)

Section DitherMatrix.

Lemma Int_part_half (x : R) : Int_part (x * 0.5) = (Int_part x / 2)%Z.
Proof.
  symmetry. apply Int_part_spec.
  destruct (base_Int_part x) as [Hle Hgt].
  set (n := Int_part x) in *.
  pose proof (Z.div_mod n 2 ltac:(lia)) as Hn.
  pose proof (Z.mod_pos_bound n 2 ltac:(lia)) as [Hr0 Hr2].
  assert (HnR : IZR n = 2 * IZR (n / 2) + IZR (n mod 2)).
  { rewrite <- mult_IZR, <- plus_IZR. f_equal. exact Hn. }
  assert (Hr1 : (n mod 2 <= 1)%Z) by lia.
  apply IZR_le in Hr0. apply IZR_le in Hr1. lra.
Qed.

Lemma Bayer2_Z (a : vec2) :
  Bayer2 a = IZR (DitherZ.bayer2 (Int_part (vx a)) (Int_part (vy a))) / 4.
Proof.
  unfold Bayer2, vfloor, floor, DitherZ.bayer2; cbn [vx vy].
  set (X := Int_part (vx a)). set (Y := Int_part (vy a)).
  set (n := (2 * X + 3 * (Y * Y))%Z).
  assert (Hr : (0 <= n mod 4 < 4)%Z) by (apply Z.mod_pos_bound; lia).
  assert (Hn : IZR n = 4 * IZR (n / 4) + IZR (n mod 4)).
  { rewrite <- mult_IZR, <- plus_IZR. f_equal. apply Z.div_mod. lia. }
  assert (Hn' : IZR n = 2 * IZR X + 3 * (IZR Y * IZR Y)).
  { unfold n. rewrite plus_IZR, !mult_IZR. reflexivity. }
  replace (IZR X / 2 + IZR Y * IZR Y * 0.75)
    with (IZR (n / 4) + IZR (n mod 4) / 4) by lra.
  apply fract_shift.
  destruct Hr as [Hr0 Hr4]. apply IZR_le in Hr0. apply IZR_lt in Hr4. lra.
Qed.

Lemma Bayer4_Z (a : vec2) :
  Bayer4 a = IZR (DitherZ.bayer4 (Int_part (vx a)) (Int_part (vy a))) / 16.
Proof.
  unfold Bayer4, DitherZ.bayer4. rewrite !Bayer2_Z.
  unfold vscale; cbn [vx vy]. rewrite !Int_part_half.
  rewrite plus_IZR, mult_IZR. lra.
Qed.

Lemma Bayer8_Z (a : vec2) :
  Bayer8 a = IZR (DitherZ.bayer8 (Int_part (vx a)) (Int_part (vy a))) / 64.
Proof.
  unfold Bayer8, DitherZ.bayer8. rewrite Bayer4_Z, Bayer2_Z.
  unfold vscale; cbn [vx vy]. rewrite !Int_part_half.
  rewrite plus_IZR, mult_IZR. lra.
Qed.

Lemma bayer2_period (x y : Z) :
  DitherZ.bayer2 (x + 2) y = DitherZ.bayer2 x y /\
  DitherZ.bayer2 x (y + 2) = DitherZ.bayer2 x y.
Proof.
  unfold DitherZ.bayer2. split.
  - replace (2 * (x + 2) + 3 * (y * y))%Z with (2 * x + 3 * (y * y) + 1 * 4)%Z by ring.
    apply Z.mod_add. lia.
  - replace (2 * x + 3 * ((y + 2) * (y + 2)))%Z
      with (2 * x + 3 * (y * y) + (3 * y + 3) * 4)%Z by ring.
    apply Z.mod_add. lia.
Qed.

Lemma div2_shift (x k : Z) : ((x + 2 * k) / 2 = x / 2 + k)%Z.
Proof.
  replace (x + 2 * k)%Z with (x + k * 2)%Z by ring. apply Z.div_add. lia.
Qed.

Lemma bayer8_period (x y : Z) :
  DitherZ.bayer8 (x + 8) y = DitherZ.bayer8 x y /\
  DitherZ.bayer8 x (y + 8) = DitherZ.bayer8 x y.
Proof.
  assert (Hx2 : forall u v k, DitherZ.bayer2 (u + 2 * k) v = DitherZ.bayer2 u v).
  { intros u v k. unfold DitherZ.bayer2.
    replace (2 * (u + 2 * k) + 3 * (v * v))%Z
      with (2 * u + 3 * (v * v) + k * 4)%Z by ring.
    apply Z.mod_add. lia. }
  assert (Hy2 : forall u v k, DitherZ.bayer2 u (v + 2 * k) = DitherZ.bayer2 u v).
  { intros u v k. unfold DitherZ.bayer2.
    replace (2 * u + 3 * ((v + 2 * k) * (v + 2 * k)))%Z
      with (2 * u + 3 * (v * v) + (3 * v * k + 3 * k * k) * 4)%Z by ring.
    apply Z.mod_add. lia. }
  unfold DitherZ.bayer8, DitherZ.bayer4. split.
  - change 8%Z with (2 * 4)%Z. rewrite div2_shift.
    change 4%Z with (2 * 2)%Z at 1. rewrite div2_shift.
    rewrite (Hx2 (x / 2 / 2)%Z _ 1%Z), (Hx2 (x / 2)%Z _ 2%Z), (Hx2 x _ 4%Z).
    reflexivity.
  - change 8%Z with (2 * 4)%Z. rewrite div2_shift.
    change 4%Z with (2 * 2)%Z at 1. rewrite div2_shift.
    rewrite (Hy2 _ (y / 2 / 2)%Z 1%Z), (Hy2 _ (y / 2)%Z 2%Z), (Hy2 _ y 4%Z).
    reflexivity.
Qed.

Lemma Int_part_shift (x : R) (k : Z) : Int_part (x + IZR k) = (Int_part x + k)%Z.
Proof.
  symmetry. apply Int_part_spec.
  destruct (base_Int_part x) as [Hle Hgt]. rewrite plus_IZR. lra.
Qed.

(** X15.  The threshold of the basic dither depends on the pixel cell
    only: [Bayer8] at any coordinate is the entry of an integer matrix at
    the integer parts of the coordinate, over 64, and the matrix repeats
    every 8 cells in both directions. *)
Theorem bayer8_is_a_tiled_matrix (a : vec2) :
  Bayer8 a = IZR (DitherZ.bayer8 (Int_part (vx a)) (Int_part (vy a))) / 64 /\
  Bayer8 (Vec2 (vx a + 8) (vy a)) = Bayer8 a /\
  Bayer8 (Vec2 (vx a) (vy a + 8)) = Bayer8 a.
Proof.
  split; [apply Bayer8_Z |].
  rewrite !Bayer8_Z. cbn [vx vy].
  rewrite !(Int_part_shift _ 8).
  destruct (bayer8_period (Int_part (vx a)) (Int_part (vy a))) as [-> ->].
  split; reflexivity.
Qed.

Lemma Int_part_IZR (z : Z) : Int_part (IZR z) = z.
Proof. symmetry. apply Int_part_spec. lra. Qed.

Lemma Bayer8_cell (x y : Z) :
  Bayer8 (Vec2 (IZR x) (IZR y)) = IZR (DitherZ.bayer8 x y) / 64.
Proof. rewrite Bayer8_Z. cbn [vx vy]. rewrite !Int_part_IZR. reflexivity. Qed.

Lemma cells_spec (x y : Z) :
  (x, y) ∈ DitherZ.cells <-> (0 <= x < 8)%Z /\ (0 <= y < 8)%Z.
Proof.
  unfold DitherZ.cells. rewrite list_elem_of_bind. split.
  - intros (y' & Hin & Hy). apply list_elem_of_bind in Hin as (x' & Hin & Hx).
    apply list_elem_of_singleton in Hin. injection Hin as -> ->.
    apply elem_of_seqZ in Hx, Hy. lia.
  - intros [Hx Hy]. exists y. split; [| apply elem_of_seqZ; lia].
    apply list_elem_of_bind. exists x. split; [| apply elem_of_seqZ; lia].
    apply list_elem_of_singleton. reflexivity.
Qed.

(** X16.  The 8 x 8 matrix is a dither matrix proper: over the cells of
    one tile [Bayer8] takes each of the 64 values [k / 64], [k] from 0 to
    63, and no two cells of the tile have the same threshold. *)
Theorem bayer8_tile_is_a_permutation :
  (forall k : Z, (0 <= k < 64)%Z ->
     exists x y : Z, (0 <= x < 8)%Z /\ (0 <= y < 8)%Z /\
                     Bayer8 (Vec2 (IZR x) (IZR y)) = IZR k / 64) /\
  (forall x1 y1 x2 y2 : Z,
     (0 <= x1 < 8)%Z -> (0 <= y1 < 8)%Z -> (0 <= x2 < 8)%Z -> (0 <= y2 < 8)%Z ->
     Bayer8 (Vec2 (IZR x1) (IZR y1)) = Bayer8 (Vec2 (IZR x2) (IZR y2)) ->
     x1 = x2 /\ y1 = y2).
Proof.
  split.
  - intros k Hk.
    assert (Hall : Forall (fun z => z ∈ DitherZ.tile) (seqZ 0 64)).
    { apply (bool_decide_unpack _). vm_compute. exact I. }
    rewrite Forall_forall in Hall.
    assert (Hin : k ∈ DitherZ.tile) by (apply Hall, elem_of_seqZ; lia).
    unfold DitherZ.tile in Hin.
    apply list_elem_of_fmap in Hin as ([x y] & -> & Hcell).
    apply cells_spec in Hcell as [Hx Hy].
    exists x, y. split; [exact Hx |]. split; [exact Hy |]. apply Bayer8_cell.
  - intros x1 y1 x2 y2 Hx1 Hy1 Hx2 Hy2. rewrite !Bayer8_cell. intros Heq.
    assert (Hz : DitherZ.bayer8 x1 y1 = DitherZ.bayer8 x2 y2).
    { apply eq_IZR. lra. }
    assert (Hinj : Forall (fun p1 => Forall (fun p2 =>
              DitherZ.bayer8 (fst p1) (snd p1) = DitherZ.bayer8 (fst p2) (snd p2) ->
              p1 = p2) DitherZ.cells) DitherZ.cells).
    { apply (bool_decide_unpack _). vm_compute. exact I. }
    rewrite Forall_forall in Hinj.
    pose proof (Hinj (x1, y1) (proj2 (cells_spec x1 y1) (conj Hx1 Hy1))) as Hrow.
    rewrite Forall_forall in Hrow.
    pose proof (Hrow (x2, y2) (proj2 (cells_spec x2 y2) (conj Hx2 Hy2)) Hz) as Hp.
    injection Hp as -> ->. auto.
Qed.

End DitherMatrix.

(** ** Colours of the elaborated shader *)

Section Colours.

Lemma animated_channel (c g : R) :
  0 <= c -> 0 <= g <= 1 -> c <= mix c (c * 1.5) (g * 0.3) <= 1.15 * c.
Proof. intros Hc Hg. unfold mix. split; nra. Qed.

Lemma animated_background_range (u : Enhanced.Uniforms) (uv : vec2) :
  0 <= cr (Enhanced.uBackgroundColor u) ->
  0 <= cg (Enhanced.uBackgroundColor u) ->
  0 <= cb (Enhanced.uBackgroundColor u) ->
  (cr (Enhanced.uBackgroundColor u) <= cr (Enhanced.getAnimatedBackground u uv)
     <= 1.15 * cr (Enhanced.uBackgroundColor u)) /\
  (cg (Enhanced.uBackgroundColor u) <= cg (Enhanced.getAnimatedBackground u uv)
     <= 1.15 * cg (Enhanced.uBackgroundColor u)) /\
  (cb (Enhanced.uBackgroundColor u) <= cb (Enhanced.getAnimatedBackground u uv)
     <= 1.15 * cb (Enhanced.uBackgroundColor u)).
Proof.
  intros Hr Hg Hb. unfold Enhanced.getAnimatedBackground.
  destruct (Enhanced.uAnimatedBackground u); cbn [negb].
  - match goal with |- context [smoothstep 0 1 ?x] =>
      pose proof (smoothstep_range 0 1 x) as Hgr;
      set (gr := smoothstep 0 1 x) in * end.
    unfold vmix, cscale; cbn [cr cg cb].
    repeat split; apply animated_channel; assumption.
  - repeat split; lra.
Qed.

(** X17.  The animated background only brightens: with the animation
    off the background is [uBackgroundColor]; with it on, every
    component lies between that of [uBackgroundColor] and 1.15 times it
    (for components that are not negative), at every place and clock
    reading. *)
Theorem animated_background_only_brightens (u : Enhanced.Uniforms) (uv : vec2) :
  0 <= cr (Enhanced.uBackgroundColor u) ->
  0 <= cg (Enhanced.uBackgroundColor u) ->
  0 <= cb (Enhanced.uBackgroundColor u) ->
  (Enhanced.uAnimatedBackground u = false ->
     Enhanced.getAnimatedBackground u uv = Enhanced.uBackgroundColor u) /\
  (cr (Enhanced.uBackgroundColor u) <= cr (Enhanced.getAnimatedBackground u uv)
     <= 1.15 * cr (Enhanced.uBackgroundColor u)) /\
  (cg (Enhanced.uBackgroundColor u) <= cg (Enhanced.getAnimatedBackground u uv)
     <= 1.15 * cg (Enhanced.uBackgroundColor u)) /\
  (cb (Enhanced.uBackgroundColor u) <= cb (Enhanced.getAnimatedBackground u uv)
     <= 1.15 * cb (Enhanced.uBackgroundColor u)).
Proof.
  intros Hr Hg Hb. split.
  - unfold Enhanced.getAnimatedBackground. intros ->. reflexivity.
  - apply animated_background_range; assumption.
Qed.

Lemma rippleStrength_range (u : Enhanced.Uniforms) (px : vec2) :
  0 <= Enhanced.rippleStrengthOf u px <= 1.
Proof.
  unfold Enhanced.rippleStrengthOf. destruct (Enhanced.waves u px).
  apply smoothstep_range.
Qed.

(** One colour component of [main]: the mix, and the bloom above 0.5. *)
Lemma output_channel (b c1 c2 bloom rs : R) :
  0 <= b <= 1 -> 0 <= c1 <= 1 -> 0 <= c2 <= 1 -> 0 <= bloom -> 0 <= rs <= 1 ->
  0 <= mix b (mix c1 c2 rs) rs /\
  mix b (mix c1 c2 rs) rs
    + mix c1 c2 rs * (bloom * Rmax (rs - 0.5) 0 * 2) <= 1 + bloom.
Proof.
  intros Hb H1 H2 Hbl Hrs. unfold mix.
  assert (Hrc : 0 <= c1 * (1 - rs) + c2 * rs <= 1) by nra.
  set (rc := c1 * (1 - rs) + c2 * rs) in *.
  assert (Hm : 0 <= b * (1 - rs) + rc * rs <= 1) by nra.
  assert (Hx : 0 <= Rmax (rs - 0.5) 0 <= 0.5).
  { split; [apply Rmax_r | apply Rmax_lub; lra]. }
  set (x := Rmax (rs - 0.5) 0) in *.
  split; [lra |].
  assert (Hbx : 0 <= bloom * x * 2 <= bloom) by nra.
  nra.
Qed.

(** X18.  The bloom of the elaborated shader sets in without a jump and
    stays bounded: the ripple strength lies in [0, 1]; the output is the
    mix of background and ripple colour plus the ripple colour times
    [bloom * max(strength - 0.5, 0) * 2]; and for colours with components
    in [0, 1] and a bloom strength that is not negative, every component
    of the output lies in [0, 1 + bloom strength]. *)
Theorem bloom_is_bounded (u : Enhanced.Uniforms) (px : vec2) :
  unitColour (Enhanced.uColor1 u) -> unitColour (Enhanced.uColor2 u) ->
  unitColour (rgb (Enhanced.backgroundOnly u px)) ->
  0 <= Enhanced.uBloomStrength u ->
  0 <= Enhanced.rippleStrengthOf u px <= 1 /\
  rgb (Enhanced.main u px) =
    cadd (vmix (rgb (Enhanced.backgroundOnly u px))
               (vmix (Enhanced.uColor1 u) (Enhanced.uColor2 u)
                     (Enhanced.rippleStrengthOf u px))
               (Enhanced.rippleStrengthOf u px))
         (cscale (vmix (Enhanced.uColor1 u) (Enhanced.uColor2 u)
                       (Enhanced.rippleStrengthOf u px))
                 (Enhanced.uBloomStrength u
                  * Rmax (Enhanced.rippleStrengthOf u px - 0.5) 0 * 2)) /\
  0 <= cr (rgb (Enhanced.main u px)) <= 1 + Enhanced.uBloomStrength u /\
  0 <= cg (rgb (Enhanced.main u px)) <= 1 + Enhanced.uBloomStrength u /\
  0 <= cb (rgb (Enhanced.main u px)) <= 1 + Enhanced.uBloomStrength u.
Proof.
  intros (H1r & H1g & H1b) (H2r & H2g & H2b) (Hbr & Hbg & Hbb) Hbl.
  pose proof (rippleStrength_range u px) as Hrs.
  assert (Hmain : rgb (Enhanced.main u px) =
    cadd (vmix (rgb (Enhanced.backgroundOnly u px))
               (vmix (Enhanced.uColor1 u) (Enhanced.uColor2 u)
                     (Enhanced.rippleStrengthOf u px))
               (Enhanced.rippleStrengthOf u px))
         (cscale (vmix (Enhanced.uColor1 u) (Enhanced.uColor2 u)
                       (Enhanced.rippleStrengthOf u px))
                 (Enhanced.uBloomStrength u
                  * Rmax (Enhanced.rippleStrengthOf u px - 0.5) 0 * 2))).
  { unfold Enhanced.main, Enhanced.backgroundOnly. cbn [rgb].
    set (rs := Enhanced.rippleStrengthOf u px) in *.
    destruct (Rlt_dec 0.5 rs) as [Hhi | Hlo].
    - rewrite ltb_true by exact Hhi. rewrite (Rmax_left (rs - 0.5) 0) by lra.
      reflexivity.
    - rewrite ltb_false by lra. rewrite (Rmax_right (rs - 0.5) 0) by lra.
      unfold cadd, cscale. cbn [cr cg cb].
      rewrite !Rmult_0_r, !Rmult_0_l, !Rmult_0_r, !Rplus_0_r.
      destruct (vmix _ _ rs); reflexivity. }
  split; [exact Hrs |]. split; [exact Hmain |].
  rewrite Hmain. unfold cadd, cscale, vmix. cbn [cr cg cb].
  set (rs := Enhanced.rippleStrengthOf u px) in *.
  set (bl := Enhanced.uBloomStrength u) in *.
  assert (Hx : 0 <= Rmax (rs - 0.5) 0) by apply Rmax_r.
  assert (Hadd : forall b c1 c2, 0 <= b <= 1 -> 0 <= c1 <= 1 -> 0 <= c2 <= 1 ->
            0 <= mix b (mix c1 c2 rs) rs
                 + mix c1 c2 rs * (bl * Rmax (rs - 0.5) 0 * 2) <= 1 + bl).
  { intros b c1 c2 Hb Hc1 Hc2.
    destruct (output_channel b c1 c2 bl rs Hb Hc1 Hc2 Hbl Hrs) as [Hlo Hhi].
    split; [| exact Hhi].
    assert (Hrc : 0 <= mix c1 c2 rs) by (unfold mix; nra).
    assert (Hk : 0 <= bl * Rmax (rs - 0.5) 0 * 2) by nra.
    nra. }
  repeat split; apply Hadd; assumption.
Qed.

End Colours.

Lemma enhancedScreen_background :
  0 <= cr (Enhanced.uBackgroundColor Sample.enhancedScreen) /\
  0 <= cg (Enhanced.uBackgroundColor Sample.enhancedScreen) <= 2 / 15 /\
  0 <= cb (Enhanced.uBackgroundColor Sample.enhancedScreen) <= 2 / 15 /\
  cr (Enhanced.uBackgroundColor Sample.enhancedScreen) <= 2 / 15.
Proof.
  unfold Sample.enhancedScreen.
  cbn [Enhanced.uBackgroundColor Enhanced.withClicks
       Enhanced.withResolution Enhanced.initWith Enhanced.uniforms
       Sample.params Enhanced.defaultParams Enhanced.backgroundColor cr cg cb].
  lra.
Qed.

Lemma animated_background_only_brightens_witness :
  (0 <= cr (Enhanced.uBackgroundColor Sample.enhancedScreen) /\
   0 <= cg (Enhanced.uBackgroundColor Sample.enhancedScreen) /\
   0 <= cb (Enhanced.uBackgroundColor Sample.enhancedScreen)) /\
  cb (Enhanced.uBackgroundColor Sample.enhancedScreen)
    <= cb (Enhanced.getAnimatedBackground Sample.enhancedScreen Sample.centre)
    <= 1.15 * cb (Enhanced.uBackgroundColor Sample.enhancedScreen).
Proof.
  destruct enhancedScreen_background as (Hr & [Hg _] & [Hb _] & _).
  split; [repeat split; assumption |].
  exact (proj2 (proj2 (proj2 (animated_background_only_brightens
           Sample.enhancedScreen Sample.centre Hr Hg Hb)))).
Defined.

Lemma enhancedScreen_colours :
  unitColour (Enhanced.uColor1 Sample.enhancedScreen) /\
  unitColour (Enhanced.uColor2 Sample.enhancedScreen) /\
  0 <= Enhanced.uBloomStrength Sample.enhancedScreen.
Proof.
  unfold unitColour, Sample.enhancedScreen.
  cbn [Enhanced.uColor1 Enhanced.uColor2 Enhanced.uBloomStrength
       Enhanced.withClicks Enhanced.withResolution Enhanced.initWith
       Enhanced.uniforms Sample.params Enhanced.defaultParams
       Enhanced.color1 Enhanced.color2 Enhanced.bloomStrength cr cg cb].
  lra.
Qed.

Lemma enhancedScreen_backgroundOnly (px : vec2) :
  unitColour (rgb (Enhanced.backgroundOnly Sample.enhancedScreen px)).
Proof.
  destruct enhancedScreen_background as (Hr & Hg & Hb & Hr').
  unfold Enhanced.backgroundOnly. cbn [rgb].
  destruct (animated_background_range Sample.enhancedScreen
              (Enhanced.uv (Enhanced.frag Sample.enhancedScreen px))
              Hr (proj1 Hg) (proj1 Hb)) as (Ar & Ag & Ab).
  unfold unitColour. lra.
Qed.

Lemma bloom_is_bounded_witness :
  unitColour (Enhanced.uColor1 Sample.enhancedScreen) /\
  unitColour (Enhanced.uColor2 Sample.enhancedScreen) /\
  unitColour (rgb (Enhanced.backgroundOnly Sample.enhancedScreen Sample.centre)) /\
  0 <= Enhanced.uBloomStrength Sample.enhancedScreen /\
  0 <= cr (rgb (Enhanced.main Sample.enhancedScreen Sample.centre))
    <= 1 + Enhanced.uBloomStrength Sample.enhancedScreen.
Proof.
  destruct enhancedScreen_colours as (H1 & H2 & Hbl).
  pose proof (enhancedScreen_backgroundOnly Sample.centre) as Hbg.
  repeat (split; [assumption |]).
  exact (proj1 (proj2 (proj2 (bloom_is_bounded Sample.enhancedScreen
           Sample.centre H1 H2 Hbg Hbl)))).
Defined.


(** ** The frame counter *)

Section FrameCounter.

Lemma round_within (x : R) (n : Z) : 0 <= x <= IZR n -> (0 <= Perf.round x <= n)%Z.
Proof.
  intros [H0 Hn]. unfold Perf.round.
  destruct (base_Int_part (x + 0.5)) as [Hle Hgt].
  split.
  - assert (H : (-1 < Int_part (x + 0.5))%Z) by (apply lt_IZR; lra). lia.
  - assert (H : (Int_part (x + 0.5) < n + 1)%Z).
    { apply lt_IZR. rewrite plus_IZR. lra. }
    lia.
Qed.

Lemma rate_within (n : Z) (elapsed : R) :
  (0 <= n)%Z -> 1000 <= elapsed -> 0 <= IZR n * 1000 / elapsed <= IZR n.
Proof.
  intros Hn He. apply IZR_le in Hn.
  assert (Hq : 0 < / elapsed) by (apply Rinv_0_lt_compat; lra).
  assert (Hone : elapsed * / elapsed = 1) by (apply Rinv_r; lra).
  unfold Rdiv. split; [nra |].
  assert (Hk : 1000 * / elapsed <= 1) by nra.
  rewrite Rmult_assoc. nra.
Qed.

Lemma update_keeps (p : Perf.Stats) (t : R) (n : Z) :
  (0 <= Perf.frameCount p <= n)%Z ->
  (0 <= Perf.fps p <= Z.max 60 n)%Z ->
  (0 <= Perf.frameCount (Perf.updatePerformanceStats p t) <= n + 1)%Z /\
  (0 <= Perf.fps (Perf.updatePerformanceStats p t) <= Z.max 60 (n + 1))%Z.
Proof.
  intros Hfc Hfps. unfold Perf.updatePerformanceStats.
  destruct (Rlt_dec (t - Perf.lastTime p) 1000) as [Hlt | Hge].
  - rewrite ltb_true by exact Hlt. cbn [Perf.frameCount Perf.fps]. lia.
  - rewrite ltb_false by lra. cbn [Perf.frameCount Perf.fps].
    pose proof (round_within _ (Perf.frameCount p + 1)
                  (rate_within (Perf.frameCount p + 1) (t - Perf.lastTime p)
                     ltac:(lia) ltac:(lra))) as Hr.
    lia.
Qed.

(** X19.  The frame counter never overstates: after any sequence of
    calls, whatever the clock readings, [frameCount] lies between 0 and
    the number of calls, and the frames per second shown lie between 0
    and the larger of the initial 60 and the number of calls.  When a
    call finds that a second or more has passed, it restarts the window
    and shows at most the number of frames counted in it, exactly that
    number when exactly one second has passed; otherwise it only counts
    the frame. *)
Theorem fps_never_overstates (times : list R) (p : Perf.Stats) (t : R) :
  ((0 <= Perf.frameCount (Perf.updates Perf.init times)
      <= Z.of_nat (length times))%Z /\
   (0 <= Perf.fps (Perf.updates Perf.init times)
      <= Z.max 60 (Z.of_nat (length times)))%Z) /\
  ((0 <= Perf.frameCount p)%Z -> 1000 <= t - Perf.lastTime p ->
     Perf.frameCount (Perf.updatePerformanceStats p t) = 0%Z /\
     Perf.lastTime (Perf.updatePerformanceStats p t) = t /\
     (0 <= Perf.fps (Perf.updatePerformanceStats p t)
        <= Perf.frameCount p + 1)%Z /\
     (t - Perf.lastTime p = 1000 ->
        Perf.fps (Perf.updatePerformanceStats p t)
          = (Perf.frameCount p + 1)%Z)) /\
  (t - Perf.lastTime p < 1000 ->
     Perf.updatePerformanceStats p t =
       Perf.MkStats (Perf.frameCount p + 1) (Perf.lastTime p) (Perf.fps p)).
Proof.
  split; [| split].
  - assert (Hgen : forall q n,
              (0 <= Perf.frameCount q <= n)%Z ->
              (0 <= Perf.fps q <= Z.max 60 n)%Z ->
              (0 <= Perf.frameCount (Perf.updates q times)
                 <= n + Z.of_nat (length times))%Z /\
              (0 <= Perf.fps (Perf.updates q times)
                 <= Z.max 60 (n + Z.of_nat (length times)))%Z).
    { induction times as [| t1 times IH]; intros q n Hfc Hfps;
        cbn [Perf.updates length].
      - rewrite Z.add_0_r. auto.
      - destruct (update_keeps q t1 n Hfc Hfps) as [Hfc1 Hfps1].
        destruct (IH _ _ Hfc1 Hfps1) as [Ha Hb].
        rewrite Nat2Z.inj_succ.
        replace (n + Z.succ (Z.of_nat (length times)))%Z
          with (n + 1 + Z.of_nat (length times))%Z by lia.
        auto. }
    apply (Hgen Perf.init 0%Z); cbn [Perf.init Perf.frameCount Perf.fps]; lia.
  - intros Hfc He. unfold Perf.updatePerformanceStats.
    rewrite ltb_false by lra.
    cbn [Perf.frameCount Perf.lastTime Perf.fps].
    split; [reflexivity |]. split; [reflexivity |]. split.
    + apply round_within, rate_within; [lia | lra].
    + intros Heq. rewrite Heq. unfold Perf.round.
      replace (IZR (Perf.frameCount p + 1) * 1000 / 1000 + 0.5)
        with (IZR (Perf.frameCount p + 1) + 0.5) by lra.
      symmetry. apply Int_part_spec. lra.
  - intros Hlt. unfold Perf.updatePerformanceStats.
    rewrite ltb_true by exact Hlt. reflexivity.
Qed.

End FrameCounter.
